(** * Graphology: structure index and typed edge iteration

    A shallow embedding of [src/indices.js] (the structure index) and of the
    edge iteration module ([attachEdgeIterationMethods] and its helpers),
    with the properties of the specification stated over it.

    Modelling conventions.

    - Identifiers.  The sources type nodes and edges as [any].  A node
      identifier is a [value]: a string or an array of strings (an array is
      what the bunch helpers accept as a bunch); strict equality on arrays
      is object identity in JavaScript and structural equality here, an
      array standing for the one object that is passed around.  An edge
      identifier is a string.
    - The node store [graph._nodes] is a [Map] keyed by the identifiers,
      as [src/indices.js] reads it ([get], [forEach]): an association list
      in insertion order.  Where the iteration module reads it as a plain
      object ([graph._nodes[node]], when [graph.map] is false), the lookup
      is a property lookup on that [Map] object.
    - A bucket ([in], [out], [undirectedIn], [undirectedOut] of a node
      record) is the object [Object.create(null)] of
      [updateStructureIndex].  Its keys are property names: an identifier
      used as a key is converted to a string ([show]), so that the string
      "A" and the array ["A"] name one property.  A plain object
      enumerates integer-like keys first; nothing below depends on the
      order of a bucket.
    - A bucket entry is what [updateStructureIndex] stores: the edge
      identifier itself in a simple graph, a reference to a [Set] in a
      multigraph.  Sets live in a store indexed by reference, so that two
      entries can alias one set.
    - What the helpers of the iteration module do on a bucket follows
      JavaScript: a bucket has no [get] and no [forEach], and calling them
      raises [TypeError]; [values()] of a [Set] is an iterator, no array;
      [entries] of a [Set] is a method, and a loop over its properties has
      no turn; a missing property reads [undefined].
    - The edge store [graph._edges] is read through [keys] and [forEach]
      when [graph.map] is true and as a plain object otherwise; both are
      modelled by one association list in insertion order.
    - An exception ends the call; the partly updated graph is dropped. *)

From Stdlib Require Import List String Ascii Bool Arith Lia DecimalString.
Import ListNotations.
Open Scope list_scope.

Set Implicit Arguments.

(** ** Identifiers *)

Inductive value : Type :=
| Str (s : string)
| Arr (ids : list string).

Class EqDec (K : Type) := eq_dec : forall x y : K, {x = y} + {x <> y}.

#[export] Instance string_EqDec : EqDec string := string_dec.

#[export] Instance value_EqDec : EqDec value.
Proof.
  intros x y. unfold EqDec in *.
  decide equality; [apply string_dec | apply (list_eq_dec string_dec)].
Defined.

Abbreviation node := value (only parsing).
Abbreviation edge := string (only parsing).

(** The string an identifier is converted to, where it is used as a
    property name ([target in bucket], [bucket[target]]) and where a
    template literal prints it: a string is itself, an array the join of
    its elements with a comma. *)
Definition show (v : value) : string :=
  match v with
  | Str s => s
  | Arr ids => String.concat "," ids
  end.

(** ** Exceptions *)

(** Where a missing node was met: as the single argument, as a member of
    a bunch, as the source or as the target of a path. *)
Inductive place := InGraph | InBunch | AsSource | AsTarget.

(** Modelled from the spec: the two error classes of the errors module,
    [NotFoundGraphError] carrying the operation name and the identifier not
    found, [InvalidArgumentsGraphError] the operation name and the number
    of arguments received; and the [TypeError] of the language. *)
Inductive error : Type :=
| NotFoundGraphError (op : string) (x : value) (p : place)
| InvalidArgumentsGraphError (op : string) (got : nat)
| TypeError.

Inductive exc (A : Type) : Type :=
| Ret (a : A)
| Throw (e : error).
Arguments Ret {A} a.
Arguments Throw {A} e.

Definition bind {A B} (c : exc A) (k : A -> exc B) : exc B :=
  match c with
  | Ret a => k a
  | Throw e => Throw e
  end.

Notation "x <- c ;; k" := (bind c (fun x => k))
  (at level 61, c at next level, right associativity).

(** ** Keyed collections in insertion order *)

Section Assoc.
Context {K V : Type} `{EqDec K}.

Fixpoint get (k : K) (l : list (K * V)) : option V :=
  match l with
  | [] => None
  | (k', v) :: r => if eq_dec k k' then Some v else get k r
  end.

(** Assignment keeps the position of a key already present. *)
Fixpoint set (k : K) (v : V) (l : list (K * V)) : list (K * V) :=
  match l with
  | [] => [(k, v)]
  | (k', v') :: r =>
      if eq_dec k k' then (k', v) :: r else (k', v') :: set k v r
  end.

Fixpoint del (k : K) (l : list (K * V)) : list (K * V) :=
  match l with
  | [] => []
  | (k', v') :: r => if eq_dec k k' then r else (k', v') :: del k r
  end.

Definition has (k : K) (l : list (K * V)) : bool :=
  match get k l with Some _ => true | None => false end.

Definition keys (l : list (K * V)) : list K := List.map fst l.
End Assoc.

(** ** Sets of edge identifiers, held by reference *)

Abbreviation handle := nat (only parsing).
Abbreviation store := (list (list string)) (only parsing).

Definition members (sets : store) (h : handle) : list edge := nth h sets [].

Fixpoint update_nth {A} (n : nat) (f : A -> A) (l : list A) : list A :=
  match l, n with
  | [], _ => []
  | x :: r, 0 => f x :: r
  | x :: r, S n' => x :: update_nth n' f r
  end.

Definition mem (e : edge) (s : list edge) : bool :=
  if in_dec string_dec e s then true else false.

(** [Set.prototype.add] *)
Definition add (e : edge) (s : list edge) : list edge :=
  if mem e s then s else s ++ [e].

(** [Set.prototype.delete] *)
Fixpoint delete (e : edge) (s : list edge) : list edge :=
  match s with
  | [] => []
  | x :: r => if string_dec e x then r else x :: delete e r
  end.

(** ** Data model *)

(** What [updateStructureIndex] stores under a neighbour: the edge
    identifier itself, or a reference to a [Set]. *)
Inductive entry : Type :=
| Single (e : edge)
| Shared (h : handle).

(** A bucket is the object [Object.create(null)] of [updateStructureIndex]:
    no prototype, and own properties named after the neighbours. *)
Abbreviation bucket := (list (string * entry)) (only parsing).

Record NodeData := mkNodeData {
  in_ : option bucket;
  out : option bucket;
  undirectedIn : option bucket;
  undirectedOut : option bucket
}.

Record EdgeData := mkEdgeData {
  source : node;
  target : node;
  undirected : bool
}.

(** Modelled from the spec: the fields of an instance of the [Graph] class
    the two modules use, with [sets] the store of the sets the entries
    refer to and [computed] the flag of the structure index ("built or
    not").  [_nodes] is a [Map] keyed by the node identifiers: it is how
    [src/indices.js] reads it ([get], [forEach]).  [map] is the field
    [graph.map] the iteration module branches on. *)
Record Graph := mkGraph {
  multi : bool;
  map : bool;
  _nodes : list (node * NodeData);
  _edges : list (edge * EdgeData);
  sets : store;
  computed : bool
}.

Inductive slot := kIn | kOut | kUndirectedIn | kUndirectedOut.

Definition getB (k : slot) (d : NodeData) : option bucket :=
  match k with
  | kIn => in_ d
  | kOut => out d
  | kUndirectedIn => undirectedIn d
  | kUndirectedOut => undirectedOut d
  end.

Definition setB (k : slot) (b : option bucket) (d : NodeData) : NodeData :=
  match k with
  | kIn => mkNodeData b (out d) (undirectedIn d) (undirectedOut d)
  | kOut => mkNodeData (in_ d) b (undirectedIn d) (undirectedOut d)
  | kUndirectedIn => mkNodeData (in_ d) (out d) b (undirectedOut d)
  | kUndirectedOut => mkNodeData (in_ d) (out d) (undirectedIn d) b
  end.

Definition with_index (g : Graph) (nodes : list (node * NodeData)) (s : store) : Graph :=
  mkGraph (multi g) (map g) nodes (_edges g) s (computed g).

Definition noData : NodeData := mkNodeData None None None None.

(** ** [src/indices.js] *)

(** [sourceData[outKey] || Object.create(null)] *)
Definition orEmpty (b : option bucket) : bucket :=
  match b with Some b => b | None => [] end.

Definition updateStructureIndex (graph : Graph) (edge : edge) (data : EdgeData)
  : exc Graph :=
  let multi := multi graph in
  let undirected := undirected data in
  let source := source data in
  let target := target data in
  let outKey := if undirected then kUndirectedOut else kOut in
  match get source (_nodes graph) with
  | None => Throw TypeError
  | Some sourceData =>
      let b := orEmpty (getB outKey sourceData) in
      let '(b, sets) :=
        if has (show target) b then (b, sets graph)
        else if multi
             then (set (show target) (Shared (List.length (sets graph))) b,
                   sets graph ++ [[]])
             else (set (show target) (Single edge) b, sets graph) in
      sets <- (if multi
               then match get (show target) b with
                    | Some (Shared h) => Ret (update_nth h (add edge) sets)
                    | _ => Throw TypeError
                    end
               else Ret sets) ;;
      let nodes := set source (setB outKey (Some b) sourceData) (_nodes graph) in
      if eq_dec source target then Ret (with_index graph nodes sets)
      else
        let inKey := if undirected then kUndirectedIn else kIn in
        match get target nodes with
        | None => Throw TypeError
        | Some targetData =>
            let tb := orEmpty (getB inKey targetData) in
            let tb :=
              if has (show source) tb then tb
              else match get (show target) b with
                   | Some v => set (show source) v tb
                   | None => tb
                   end in
            Ret (with_index graph
                   (set target (setB inKey (Some tb) targetData) nodes) sets)
        end
  end.

Definition clearEdgeFromStructureIndex (graph : Graph) (edge : edge) (data : EdgeData)
  : exc Graph :=
  let multi := multi graph in
  let source := source data in
  let target := target data in
  let undirected := undirected data in
  match get source (_nodes graph) with
  | None => Throw TypeError
  | Some sourceData =>
      let outKey := if undirected then kUndirectedOut else kOut in
      match getB outKey sourceData with
      | None => Throw TypeError
      | Some sourceIndex =>
          r <- (match get (show target) sourceIndex with
                | Some v =>
                    if multi
                    then match v with
                         | Shared h =>
                             Ret (sourceIndex, update_nth h (delete edge) (sets graph))
                         | Single _ => Throw TypeError
                         end
                    else Ret (del (show target) sourceIndex, sets graph)
                | None => Ret (sourceIndex, sets graph)
                end) ;;
          let '(sourceIndex, sets) := r in
          let nodes :=
            set source (setB outKey (Some sourceIndex) sourceData) (_nodes graph) in
          if multi then Ret (with_index graph nodes sets)
          else
            match get target nodes with
            | None => Throw TypeError
            | Some targetData =>
                let inKey := if undirected then kUndirectedIn else kIn in
                match getB inKey targetData with
                | None => Throw TypeError
                | Some targetIndex =>
                    Ret (with_index graph
                           (set target
                              (setB inKey (Some (del (show source) targetIndex))
                                    targetData)
                              nodes)
                           sets)
                end
            end
      end
  end.

Definition clearStructureIndex (graph : Graph) : Graph :=
  with_index graph
    (List.map (fun '(n, _) => (n, noData)) (_nodes graph))
    (sets graph).

(** ** The [Graph] members the two modules call

    The [Graph] class, the utils module and the errors module are not among
    the sources; what the iteration module uses of them is modelled here. *)

(** Modelled from the spec: the node-existence check of the [Graph] class
    (identifier to boolean), as membership in the node store. *)
Definition hasNode (g : Graph) (n : value) : bool := has n (_nodes g).

(** Modelled from the spec: the directed-edge-exists check of the [Graph]
    class for an ordered pair, over the canonical edge store. *)
Definition hasDirectedEdge (g : Graph) (s t : value) : bool :=
  existsb (fun '(_, d) =>
             negb (undirected d)
             && (if eq_dec (source d) s then true else false)
             && (if eq_dec (target d) t then true else false))
          (_edges g).

(** Modelled from the spec: the undirected-edge-exists check of the [Graph]
    class for an ordered pair, over the canonical edge store. *)
Definition hasUndirectedEdge (g : Graph) (s t : value) : bool :=
  existsb (fun '(_, d) =>
             undirected d
             && (if eq_dec (source d) s then true else false)
             && (if eq_dec (target d) t then true else false))
          (_edges g).

(** A JavaScript number as the counting code can produce it, or
    [undefined] (the [size] of something that has none). *)
Inductive num : Type :=
| Num (n : nat)
| NaN
| Undefined.

(** [nb += x] *)
Definition plus (nb x : num) : num :=
  match nb, x with
  | Num a, Num b => Num (a + b)
  | _, _ => NaN
  end.

(** Modelled from the spec: [graph.size] of the [Graph] class, the global
    edge count. *)
Definition size (g : Graph) : num := Num (List.length (_edges g)).

(** Modelled from the spec: [computeIndex('structure')] of the [Graph]
    class; a no-op when the index is built, otherwise one scan of the
    canonical edges, each inserted by [updateStructureIndex]. *)
Definition computeIndex (g : Graph) : exc Graph :=
  if computed g then Ret g
  else
    g' <- fold_left
            (fun acc '(edge, data) => g <- acc ;; updateStructureIndex g edge data)
            (_edges g) (Ret g) ;;
    Ret (mkGraph (multi g') (map g') (_nodes g') (_edges g') (sets g') true).

(** Modelled from the spec: the hook [onEdgeAdded] of the [Graph] class,
    inserting into the structure index. *)
Definition onEdgeAdded (g : Graph) (edge : edge) (data : EdgeData) : exc Graph :=
  updateStructureIndex g edge data.

(** Modelled from the spec: the hook [onEdgeRemoved] of the [Graph] class. *)
Definition onEdgeRemoved (g : Graph) (edge : edge) (data : EdgeData) : exc Graph :=
  clearEdgeFromStructureIndex g edge data.

Definition with_edges (g : Graph) (edges : list (edge * EdgeData)) : Graph :=
  mkGraph (multi g) (map g) (_nodes g) edges (sets g) (computed g).

(** Modelled from the spec: adding an edge through the mutation API of the
    [Graph] class, as far as the index sees it; the canonical edge store
    changes, then the hook is called. *)
Definition addEdge (g : Graph) (edge : edge) (data : EdgeData) : exc Graph :=
  onEdgeAdded (with_edges g (set edge data (_edges g))) edge data.

(** Modelled from the spec: removing an edge through the mutation API of
    the [Graph] class; the canonical edge store changes, then the hook is
    called with the data of the edge. *)
Definition dropEdge (g : Graph) (edge : edge) : exc Graph :=
  match get edge (_edges g) with
  | None => Ret g
  | Some data => onEdgeRemoved (with_edges g (del edge (_edges g))) edge data
  end.

(** Modelled from the spec: [isBunch] of the utils module; a bunch is a
    collection of node identifiers. *)
Definition isBunch (v : value) : bool :=
  match v with Arr _ => true | Str _ => false end.

(** Modelled from the spec: [overBunch] of the utils module (the Bunch
    Normalizer), handing the members of a bunch over one by one, in order. *)
Definition overBunch (v : value) : list node :=
  match v with Arr ids => List.map Str ids | Str _ => [] end.

(** ** Error messages *)

Definition quote : string := String (ascii_of_nat 34) EmptyString.

Definition decimal (n : nat) : string := NilZero.string_of_uint (Nat.to_uint n).

Local Open Scope string_scope.

(** The text of the two errors the iteration module raises itself; the
    text of a [TypeError] is the engine's. *)
Definition message (e : error) : option string :=
  match e with
  | NotFoundGraphError op x InGraph =>
      Some ("Graph." ++ op ++ ": could not find the " ++ quote ++ show x ++ quote
            ++ " node in the graph.")
  | NotFoundGraphError op x InBunch =>
      Some ("Graph." ++ op ++ ": could not find the " ++ quote ++ show x ++ quote
            ++ " node in the graph in the given bunch.")
  | NotFoundGraphError op x AsSource =>
      Some ("Graph." ++ op ++ ":  could not find the " ++ quote ++ show x ++ quote
            ++ " source node in the graph.")
  | NotFoundGraphError op x AsTarget =>
      Some ("Graph." ++ op ++ ":  could not find the " ++ quote ++ show x ++ quote
            ++ " target node in the graph.")
  | InvalidArgumentsGraphError op got =>
      Some ("Graph." ++ op ++ ": too many arguments (expecting 0, 1 or 2 and got "
            ++ decimal got ++ ").")
  | TypeError => None
  end.

Local Close Scope string_scope.

(** [needle] occurs in [s]. *)
Fixpoint occurs (needle s : string) : bool :=
  String.prefix needle s
  || match s with
     | EmptyString => false
     | String _ r => occurs needle r
     end.

Definition names (e : error) (what : string) : bool :=
  match message e with
  | Some m => occurs what m
  | None => false
  end.

(** ** The edge iteration module *)

Inductive type_ := mixed | directed | undirectedType | selfLoops.

Inductive direction_ := dirIn | dirOut.

Record Description := mkDescription {
  name : string;
  counter : string;
  type : type_;
  direction : option direction_
}.

Definition EDGES_ITERATION : list Description :=
  [ mkDescription "edges" "countEdges" mixed None;
    mkDescription "inEdges" "countInEdges" directed (Some dirIn);
    mkDescription "outEdges" "countOutEdges" directed (Some dirOut);
    mkDescription "inboundEdges" "countInboundEdges" mixed (Some dirIn);
    mkDescription "outboundEdges" "countOutboundEdges" mixed (Some dirOut);
    mkDescription "directedEdges" "countDirectedEdges" directed None;
    mkDescription "undirectedEdges" "countUndirectedEdges" undirectedType None;
    mkDescription "selfLoops" "countSelfLoops" selfLoops None ].

(** *** Values the helpers hand over *)

(** An element of an array a call returns: an edge identifier; or, where a
    helper hands over the iterator of a set in place of an array, that
    iterator. *)
Inductive item : Type :=
| Id (e : edge)
| ValuesIterator (h : handle).

(** What a collecting helper returns: an array, or the iterator that
    [values()] of a [Set] returns. *)
Inductive collected : Type :=
| Array (l : list item)
| Iterator (h : handle).

(** [edges.concat(x)]: an array is spread, any other value is appended as
    one element. *)
Definition concat (edges : list item) (x : collected) : list item :=
  match x with
  | Array l => edges ++ l
  | Iterator h => edges ++ [ValuesIterator h]
  end.

(** [edges.push.apply(edges, x)]: the elements of an array are pushed; an
    iterator has no [length], and nothing is pushed. *)
Definition pushApply (edges : list item) (x : collected) : list item :=
  match x with
  | Array l => edges ++ l
  | Iterator _ => edges
  end.

(** [entry.values()]: the iterator of a [Set]; a string has no such
    method. *)
Definition values (v : entry) : exc collected :=
  match v with
  | Shared h => Ret (Iterator h)
  | Single _ => Throw TypeError
  end.

(** [entry.size]: a string has no such property. *)
Definition sizeOf (sets : store) (v : entry) : num :=
  match v with
  | Shared h => Num (List.length (members sets h))
  | Single _ => Undefined
  end.

(** The properties that [for (const v in entry.entries)] goes through:
    [entries] of a [Set] is a method, and a function has no enumerable
    property; a string has no [entries], and a loop over [undefined] has
    no turn. *)
Definition entriesOf (v : entry) : list edge :=
  match v with
  | Shared _ => []
  | Single _ => []
  end.

(** [map.get(key)] and [map.forEach(callback)] on a bucket: the object has
    no prototype, and an own property of that name holds a set or a
    string; there is nothing to call. *)
Definition noMethod {A : Type} : exc A := Throw TypeError.

(** *** Collecting, counting, merging

    The optional [key] is [Some] exactly when the JavaScript call passes a
    second argument ([arguments.length > 1]). *)

Definition collectEdgesFromMap (map : option bucket) (key : option node)
  : exc collected :=
  let edges := [] in
  match map with
  | None => Ret (Array edges)
  | Some map =>
      match key with
      | Some key => noMethod
      | None => noMethod
      end
  end.

Definition collectEdgesFromObject (object : option bucket) (key : option node)
  : exc collected :=
  let edges := [] in
  match object, key with
  | None, _ => Ret (Array edges)
  | Some object, Some key =>
      match get (show key) object with
      | None => Ret (Array edges)
      | Some v => values v
      end
  | Some object, None =>
      edges <- fold_left
                 (fun acc '(_, v) =>
                    edges <- acc ;; x <- values v ;; Ret (pushApply edges x))
                 object (Ret edges) ;;
      Ret (Array edges)
  end.

Definition countEdgesFromMap (map : option bucket) (key : option node) : exc num :=
  let nb := Num 0 in
  match map with
  | None => Ret nb
  | Some map =>
      match key with
      | Some key => noMethod
      | None => noMethod
      end
  end.

Definition countEdgesFromObject (sets : store) (object : option bucket)
  (key : option node) : num :=
  let nb := Num 0 in
  match object, key with
  | None, _ => nb
  | Some object, Some key =>
      match get (show key) object with
      | None => nb
      | Some v => sizeOf sets v
      end
  | Some object, None =>
      fold_left (fun nb '(_, v) => plus nb (sizeOf sets v)) object nb
  end.

Definition mergeEdgesFromMap (edges : list edge) (map : option bucket)
  : exc (list edge) :=
  match map with
  | None => Ret edges
  | Some map => noMethod
  end.

Definition mergeEdgesFromObject (edges : list edge) (object : option bucket)
  : list edge :=
  match object with
  | None => edges
  | Some object =>
      fold_left
        (fun edges '(_, x) =>
           fold_left (fun edges v => add v edges) (entriesOf x) edges)
        object edges
  end.

(** *** The four arities *)

Inductive result : Type :=
| Edges (l : list item)
| Count (n : num).

Definition isType (a b : type_) : bool :=
  match a, b with
  | mixed, mixed | directed, directed
  | undirectedType, undirectedType | selfLoops, selfLoops => true
  | _, _ => false
  end.

(** The test of the arity-0 scan:
    [((type === 'selfLoops') === (data.source === data.target)) &&
     (!!data.undirected === (type === 'undirected'))]. *)
Definition keeps (type : type_) (data : EdgeData) : bool :=
  Bool.eqb (isType type selfLoops)
           (if eq_dec (source data) (target data) then true else false)
  && Bool.eqb (undirected data) (isType type undirectedType).

Definition createEdgeArray (count : bool) (graph : Graph) (type : type_) : result :=
  if count && isType type mixed then Count (size graph)
  else
    let scan :=
      fold_left
        (fun '(list, nb) '(edge, data) =>
           if keeps type data
           then ((if count then list else list ++ [Id edge]), S nb)
           else (list, nb))
        (_edges graph) ([], 0) in
    if map graph then
      if isType type mixed then Edges (List.map Id (keys (_edges graph)))
      else let '(list, nb) := scan in if count then Count (Num nb) else Edges list
    else
      if isType type mixed then Edges (List.map Id (keys (_edges graph)))
      else let '(list, nb) := scan in if count then Count (Num nb) else Edges list.

Definition wants (direction : option direction_) (d : direction_) : bool :=
  match direction, d with
  | None, _ => true
  | Some dirIn, dirIn | Some dirOut, dirOut => true
  | _, _ => false
  end.

(** The property names a [Map] object answers through its prototypes
    ([Map.prototype] and [Object.prototype], ES2015 with Annex B). *)
Definition inherited : list string :=
  [ "clear"; "constructor"; "delete"; "entries"; "forEach"; "get"; "has";
    "keys"; "set"; "size"; "values"; "hasOwnProperty"; "isPrototypeOf";
    "propertyIsEnumerable"; "toLocaleString"; "toString"; "valueOf";
    "__proto__"; "__defineGetter__"; "__defineSetter__"; "__lookupGetter__";
    "__lookupSetter__" ]%string.

(** [graph.map ? graph._nodes.get(node) : graph._nodes[node]].  The second
    reads a property of the [Map] object: a member of its prototypes, which
    has none of the four fields, or [undefined]. *)
Definition nodeDataOf (graph : Graph) (node : node) : option NodeData :=
  if map graph then get node (_nodes graph)
  else if mem (show node) inherited then Some noData else None.

(** [nodeData.in], [nodeData.out], ...: reading a field of [undefined]
    raises. *)
Definition field (k : slot) (nodeData : option NodeData) : exc (option bucket) :=
  match nodeData with
  | Some d => Ret (getB k d)
  | None => Throw TypeError
  end.

(** One [if (count) nb += countEdges(nodeData.k, key)
    else edges = edges.concat(collectEdges(nodeData.k, key))]. *)
Definition visit (count : bool) (graph : Graph) (nodeData : option NodeData)
  (k : slot) (key : option node) (acc : list item * num) : exc (list item * num) :=
  let '(edges, nb) := acc in
  b <- field k nodeData ;;
  if count then
    n <- (if map graph then countEdgesFromMap b key
          else Ret (countEdgesFromObject (sets graph) b key)) ;;
    Ret (edges, plus nb n)
  else
    found <- (if map graph then collectEdgesFromMap b key
              else collectEdgesFromObject b key) ;;
    Ret (concat edges found, nb).

Definition createEdgeArrayForNode (count : bool) (graph : Graph) (type : type_)
  (direction : option direction_) (node : node) : exc (result * Graph) :=
  graph <- computeIndex graph ;;
  let nodeData := nodeDataOf graph node in
  let acc := ([], Num 0) in
  acc <- (if isType type mixed || isType type directed then
            acc <- (if wants direction dirIn
                    then visit count graph nodeData kIn None acc else Ret acc) ;;
            if wants direction dirOut
            then visit count graph nodeData kOut None acc else Ret acc
          else Ret acc) ;;
  acc <- (if isType type mixed || isType type undirectedType then
            acc <- (if wants direction dirIn
                    then visit count graph nodeData kUndirectedIn None acc
                    else Ret acc) ;;
            if wants direction dirOut
            then visit count graph nodeData kUndirectedOut None acc else Ret acc
          else Ret acc) ;;
  let '(edges, nb) := acc in
  Ret (if count then Count nb else Edges edges, graph).

(** One [mergeEdges(edges, nodeData.k)]. *)
Definition mergeEdges (graph : Graph) (nodeData : option NodeData) (k : slot)
  (edges : list edge) : exc (list edge) :=
  b <- field k nodeData ;;
  if map graph then mergeEdgesFromMap edges b
  else Ret (mergeEdgesFromObject edges b).

(** The callback [createEdgeArrayForBunch] hands to [overBunch], on one
    member of the bunch. *)
Definition member (name : string) (graph : Graph) (type : type_)
  (direction : option direction_) (edges : list edge) (node : node)
  : exc (list edge) :=
  if negb (hasNode graph node)
  then Throw (NotFoundGraphError name node InBunch)
  else
    let nodeData := nodeDataOf graph node in
    edges <- (if isType type mixed || isType type directed then
                edges <- (if wants direction dirIn
                          then mergeEdges graph nodeData kIn edges
                          else Ret edges) ;;
                if wants direction dirOut
                then mergeEdges graph nodeData kOut edges
                else Ret edges
              else Ret edges) ;;
    if isType type mixed || isType type undirectedType then
      edges <- (if wants direction dirIn
                then mergeEdges graph nodeData kUndirectedIn edges
                else Ret edges) ;;
      if wants direction dirOut
      then mergeEdges graph nodeData kUndirectedOut edges
      else Ret edges
    else Ret edges.

(** [edges] is the [Set], or the [BasicSet], the members' edges are merged
    into; the array returned lists its members.
    Modelled from the spec: [values()] of the [BasicSet] of the utils
    module, the members as an array. *)
Definition createEdgeArrayForBunch (name : string) (graph : Graph) (type : type_)
  (direction : option direction_) (bunch : value) : exc (list edge * Graph) :=
  graph <- computeIndex graph ;;
  edges <- fold_left
             (fun acc node => edges <- acc ;; member name graph type direction edges node)
             (overBunch bunch) (Ret []) ;;
  Ret (edges, graph).

Definition createEdgeArrayForPath (count : bool) (graph : Graph) (type : type_)
  (source target : node) : exc (result * Graph) :=
  graph <- computeIndex graph ;;
  let sourceData := nodeDataOf graph source in
  let acc := ([], Num 0) in
  acc <- (if isType type mixed || isType type directed then
            acc <- visit count graph sourceData kIn (Some target) acc ;;
            visit count graph sourceData kOut (Some target) acc
          else Ret acc) ;;
  acc <- (if isType type mixed || isType type undirectedType then
            acc <- visit count graph sourceData kUndirectedIn (Some target) acc ;;
            visit count graph sourceData kUndirectedOut (Some target) acc
          else Ret acc) ;;
  let '(edges, nb) := acc in
  Ret (if count then Count nb else Edges edges, graph).

Definition counterName (description : Description) : string := counter description.

(** The method [attachEdgeArrayCreator] puts on the prototype, applied to
    the graph and to its positional arguments. *)
Definition attachEdgeArrayCreator (counter : bool) (description : Description)
  (this : Graph) (args : list value) : exc (result * Graph) :=
  let type := type description in
  let direction := direction description in
  let name := if counter then counterName description else name description in
  match args with
  | [] => Ret (createEdgeArray counter this type, this)
  | [nodeOrBunch] =>
      if hasNode this nodeOrBunch then
        createEdgeArrayForNode counter this type direction nodeOrBunch
      else if isBunch nodeOrBunch then
        r <- createEdgeArrayForBunch name this type direction nodeOrBunch ;;
        let '(edges, graph) := r in
        Ret (if counter then Count (Num (List.length edges))
             else Edges (List.map Id edges), graph)
      else Throw (NotFoundGraphError name nodeOrBunch InGraph)
  | [source; target] =>
      if negb (hasNode this source) then
        Throw (NotFoundGraphError name source AsSource)
      else if negb (hasNode this target) then
        Throw (NotFoundGraphError name target AsTarget)
      else
        let hasEdge :=
          if isType type mixed || isType type directed
          then hasDirectedEdge this source target
          else hasUndirectedEdge this source target in
        if negb hasEdge then Ret (if counter then Count (Num 0) else Edges [], this)
        else createEdgeArrayForPath counter this type source target
  | _ => Throw (InvalidArgumentsGraphError name (List.length args))
  end.

(** [attachEdgeIterationMethods]: the methods put on the class, by name. *)
Definition attachEdgeIterationMethods
  : list (string * (Graph -> list value -> exc (result * Graph))) :=
  flat_map
    (fun description =>
       [ (name description, attachEdgeArrayCreator false description);
         (counterName description, attachEdgeArrayCreator true description) ])
    EDGES_ITERATION.

(** ** The call sequences an index goes through *)

(** Modelled from the spec: [clearIndex('structure')] of the [Graph]
    class, dropping all bookkeeping of the index. *)
Definition clearIndex (g : Graph) : Graph :=
  let g' := clearStructureIndex g in
  mkGraph (multi g') (map g') (_nodes g') (_edges g') (sets g') false.

Inductive call : Type :=
| AddEdge (e : edge) (d : EdgeData)
| DropEdge (e : edge)
| OnEdgeAdded (e : edge) (d : EdgeData)
| OnEdgeRemoved (e : edge) (d : EdgeData)
| ComputeIndex
| ClearIndex.

Definition step (g : Graph) (c : call) : exc Graph :=
  match c with
  | AddEdge e d => addEdge g e d
  | DropEdge e => dropEdge g e
  | OnEdgeAdded e d => onEdgeAdded g e d
  | OnEdgeRemoved e d => onEdgeRemoved g e d
  | ComputeIndex => computeIndex g
  | ClearIndex => Ret (clearIndex g)
  end.

Fixpoint run (cs : list call) (g : Graph) : exc Graph :=
  match cs with
  | [] => Ret g
  | c :: cs => g <- step g c ;; run cs g
  end.

(** The entry of bucket [k] of node [s] under the property name [t]. *)
Definition look (nodes : list (node * NodeData)) (k : slot) (s : node) (t : string)
  : option entry :=
  match get s nodes with
  | Some d => match getB k d with
              | Some b => get t b
              | None => None
              end
  | None => None
  end.

(** No node has a bucket. *)
Definition unindexed (g : Graph) : bool :=
  forallb (fun '(_, d) =>
             match in_ d, out d, undirectedIn d, undirectedOut d with
             | None, None, None, None => true
             | _, _, _, _ => false
             end)
          (_nodes g).

(** The entry is a set. *)
Definition isShared (v : entry) : bool :=
  match v with Shared _ => true | Single _ => false end.

(** ** Vocabulary of the properties *)

Definition slot_eq_dec (a b : slot) : {a = b} + {a <> b}.
Proof. decide equality. Defined.

Definition onlyTypeError {A} (c : exc A) : Prop :=
  forall e, c = Throw e -> e = TypeError.

Ltac split_match :=
  repeat match goal with
         | H : context [match ?x with _ => _ end] |- _ => destruct x eqn:?
         | H : context [if ?x then _ else _] |- _ => destruct x eqn:?
         end.

(** The name a method raises its errors under. *)
Definition methodName (counter : bool) (description : Description) : string :=
  if counter then counterName description else name description.

(** *** Entries of the index *)

(** [undirected ? 'undirectedOut' : 'out'] and [undirected ? 'undirectedIn' : 'in'] *)
Definition outSlot (undirected : bool) : slot :=
  if undirected then kUndirectedOut else kOut.

Definition inSlot (undirected : bool) : slot :=
  if undirected then kUndirectedIn else kIn.

Definition outKeyOf (data : EdgeData) : slot := outSlot (undirected data).

Definition inKeyOf (data : EdgeData) : slot := inSlot (undirected data).

(** The four buckets of a node, in the order a one-node call reads them. *)
Definition slots : list slot := [kIn; kOut; kUndirectedIn; kUndirectedOut].

(** Write [v] under the property name [t] in bucket [k] of node [s]. *)
Definition put (nodes : list (node * NodeData)) (k : slot) (s : node) (t : string)
  (v : entry) : list (node * NodeData) :=
  match get s nodes with
  | Some d => set s (setB k (Some (set t v (orEmpty (getB k d)))) d) nodes
  | None => nodes
  end.

(** Delete the property [t] of bucket [k] of node [s]. *)
Definition drop (nodes : list (node * NodeData)) (k : slot) (s : node) (t : string)
  : list (node * NodeData) :=
  match get s nodes with
  | Some d =>
      match getB k d with
      | Some b => set s (setB k (Some (del t b)) d) nodes
      | None => nodes
      end
  | None => nodes
  end.

(** Bucket [k] of node [n], if the node and the bucket exist. *)
Definition bucketAt (nodes : list (node * NodeData)) (k : slot) (n : node)
  : option bucket :=
  match get n nodes with
  | Some d => getB k d
  | None => None
  end.

Definition at_ (k : slot) (s : node) (t : string) (k' : slot) (s' : node)
  (t' : string) : bool :=
  (if slot_eq_dec k k' then true else false)
  && (if eq_dec s s' then true else false)
  && (if eq_dec t t' then true else false).

(** The entry [updateStructureIndex] allocates when there is none:
    [multi ? new Set() : edge]. *)
Definition freshEntry (g : Graph) (e : edge) : entry :=
  if multi g then Shared (List.length (sets g)) else Single e.

(** No bucket holds a property twice (an object cannot). *)
Definition keyedOnce (nodes : list (node * NodeData)) : Prop :=
  forall n d, In (n, d) nodes ->
  forall k b, getB k d = Some b -> NoDup (keys b).

(** No string occurs twice. *)
Fixpoint unique (l : list string) : bool :=
  match l with
  | [] => true
  | x :: r => negb (mem x r) && unique r
  end.

(** No two nodes of the store are converted to one property name. *)
Definition uniqueNames (nodes : list (node * NodeData)) : bool :=
  unique (List.map show (keys nodes)).

(** Between nodes of the store, out entries and in entries mirror each
    other. *)
Definition mirroredNodes (nodes : list (node * NodeData)) : Prop :=
  forall u s t, In s (keys nodes) -> In t (keys nodes) -> s <> t ->
    look nodes (outSlot u) s (show t) = look nodes (inSlot u) t (show s).

(** No in-side bucket holds a node under its own name. *)
Definition noInLoop (nodes : list (node * NodeData)) : Prop :=
  forall u s, In s (keys nodes) -> look nodes (inSlot u) s (show s) = None.

(** What every sequence of calls keeps of an index whose nodes have
    distinct names. *)
Record tidy (nodes : list (node * NodeData)) : Prop := mkTidy {
  tidy_mirrored : mirroredNodes nodes;
  tidy_noInLoop : noInLoop nodes
}.

(** What a sequence of calls keeps when the nodes have distinct names: the
    names stay distinct, no bucket holds a property twice, the entries are
    mirrored. *)
Definition neat (g : Graph) : Prop :=
  uniqueNames (_nodes g) = true /\ keyedOnce (_nodes g) /\ tidy (_nodes g).

(** Every set an entry refers to is allocated, and no set holds an
    identifier twice. *)
Record allocated (g : Graph) : Prop := mkAllocated {
  handles_valid : forall k s t h,
    look (_nodes g) k s t = Some (Shared h) -> h < List.length (sets g);
  sets_distinct : forall h, NoDup (members (sets g) h)
}.

(** What every sequence of calls keeps, whatever the names. *)
Definition sound (g : Graph) : Prop := keyedOnce (_nodes g) /\ allocated g.

(** *** Calls of the iteration module *)

(** The buckets a one-node call of a type and a direction reads. *)
Definition reads (type : type_) (direction : option direction_) (k : slot) : bool :=
  match k with
  | kIn => (isType type mixed || isType type directed) && wants direction dirIn
  | kOut => (isType type mixed || isType type directed) && wants direction dirOut
  | kUndirectedIn =>
      (isType type mixed || isType type undirectedType) && wants direction dirIn
  | kUndirectedOut =>
      (isType type mixed || isType type undirectedType) && wants direction dirOut
  end.

(** The existence check of a two-node call:
    [type === 'mixed' || type === 'directed'] asks for a directed edge,
    any other type for an undirected one. *)
Definition hasEdgeOfType (type : type_) (g : Graph) (s t : node) : bool :=
  if isType type mixed || isType type directed
  then hasDirectedEdge g s t
  else hasUndirectedEdge g s t.

(** What a call that lists nothing returns. *)
Definition nothing (counter : bool) : result :=
  if counter then Count (Num 0) else Edges [].

(** Reading bucket [k] of node [n] raises: the record of the node is
    [undefined], or the bucket exists and the helpers of a [Map] are
    applied to it. *)
Definition stuck (g : Graph) (n : node) (k : slot) : bool :=
  match nodeDataOf g n with
  | None => true
  | Some d => map g && (match getB k d with Some _ => true | None => false end)
  end.

(** Some bucket that a one-node call of a type and a direction reads
    raises. *)
Definition blocked (g : Graph) (type : type_) (direction : option direction_)
  (n : node) : bool :=
  existsb (fun k => reads type direction k && stuck g n k) slots.

(** The sizes of the sets of a bucket, added up. *)
Definition sizes (sets : store) (b : bucket) : nat :=
  list_sum (List.map (fun '(_, v) => match v with
                                     | Shared h => List.length (members sets h)
                                     | Single _ => 0
                                     end) b).

(** Every entry of a bucket is a set. *)
Definition bucketOfSets (b : bucket) : bool := forallb (fun '(_, v) => isShared v) b.

(** The first error the members of a bunch raise, in the order of the
    bunch: a member the graph does not have, or a member with a bucket that
    raises. *)
Fixpoint firstFailure (op : string) (g : Graph) (type : type_)
  (direction : option direction_) (members : list node) : option error :=
  match members with
  | [] => None
  | n :: rest =>
      if negb (hasNode g n) then Some (NotFoundGraphError op n InBunch)
      else if blocked g type direction n then Some TypeError
           else firstFailure op g type direction rest
  end.

(** Two errors of one class about the same thing: the method named
    apart. *)
Definition sameFailure (e1 e2 : error) : Prop :=
  match e1, e2 with
  | NotFoundGraphError _ x p, NotFoundGraphError _ y q => x = y /\ p = q
  | InvalidArgumentsGraphError _ n, InvalidArgumentsGraphError _ m => n = m
  | TypeError, TypeError => True
  | _, _ => False
  end.

(** A collect call and a count call agree: the count is the length of the
    collection and both leave the same graph, or both raise, the same
    error but for the name of the method. *)
Definition agree (collected counted : exc (result * Graph)) : Prop :=
  match collected, counted with
  | Ret (Edges l, g1), Ret (Count n, g2) => n = Num (List.length l) /\ g1 = g2
  | Throw e1, Throw e2 => sameFailure e1 e2
  | _, _ => False
  end.

(** What an error of a call says, against the graph and the arguments:
    a [NotFoundGraphError] names the method and an identifier the call was
    given, at the place it reports, under which the graph has no node; an
    [InvalidArgumentsGraphError] names the method and the number of
    arguments, more than two. *)
Definition truthful (counter : bool) (description : Description) (this : Graph)
  (args : list value) (e : error) : Prop :=
  match e with
  | NotFoundGraphError op x p =>
      op = methodName counter description
      /\ hasNode this x = false
      /\ match p with
         | InGraph => args = [x] /\ isBunch x = false
         | InBunch => exists bunch, args = [bunch] /\ hasNode this bunch = false
                                    /\ In x (overBunch bunch)
         | AsSource => exists t, args = [x; t]
         | AsTarget => exists s, args = [s; x] /\ hasNode this s = true
         end
  | InvalidArgumentsGraphError op got =>
      op = methodName counter description
      /\ got = List.length args /\ 2 < got
  | TypeError => List.length args = 1 \/ List.length args = 2
  end.

Definition kept (type : type_) (edges : list (edge * EdgeData)) : list (edge * EdgeData) :=
  filter (fun '(_, data) => keeps type data) edges.

(** What an arity-0 call lists. *)
Definition listed (type : type_) (g : Graph) : list edge :=
  if isType type mixed then keys (_edges g) else keys (kept type (_edges g)).

(** *** The mutation API against the index *)

(** The calls of the mutation API on a graph: [addEdge] under an identifier
    no stored edge has, and [dropEdge]. *)
Fixpoint mutations (cs : list call) (g : Graph) : bool :=
  match cs with
  | [] => true
  | c :: cs =>
      match c with
      | AddEdge e _ => negb (has e (_edges g))
      | DropEdge _ => true
      | _ => false
      end
      && match step g c with
         | Ret g' => mutations cs g'
         | Throw _ => true
         end
  end.

(** The calls of the mutation API on a simple graph: [addEdge] under an
    identifier no stored edge has, between a pair that no stored edge of
    that kind joins in that orientation, and [dropEdge]. *)
Fixpoint simpleMutations (cs : list call) (g : Graph) : bool :=
  match cs with
  | [] => true
  | c :: cs =>
      match c with
      | AddEdge e d =>
          negb (has e (_edges g))
          && negb (if undirected d
                   then hasUndirectedEdge g (source d) (target d)
                   else hasDirectedEdge g (source d) (target d))
      | DropEdge _ => true
      | _ => false
      end
      && match step g c with
         | Ret g' => simpleMutations cs g'
         | Throw _ => true
         end
  end.

(** Edge [e] is stored as an edge of kind [u] from [s] to a node of
    property name [t]. *)
Definition stored (g : Graph) (e : edge) (u : bool) (s : node) (t : string) : Prop :=
  exists d, get e (_edges g) = Some d
            /\ undirected d = u /\ source d = s /\ show (target d) = t.

(** The index of a multigraph against its edge store: the set under the out
    entry of [s] for the name [t] holds the stored edges of that kind from
    [s] to a node of that name, every stored edge has such an entry, and no
    two out entries refer to one set. *)
Record exact (g : Graph) : Prop := mkExact {
  exact_ids : NoDup (keys (_edges g));
  exact_members : forall u s t h,
    look (_nodes g) (outSlot u) s t = Some (Shared h) ->
    forall e, In e (members (sets g) h) <-> stored g e u s t;
  exact_entries : forall e d,
    get e (_edges g) = Some d ->
    exists h, look (_nodes g) (outKeyOf d) (source d) (show (target d))
              = Some (Shared h);
  exact_handles : forall u s t u' s' t' h,
    look (_nodes g) (outSlot u) s t = Some (Shared h) ->
    look (_nodes g) (outSlot u') s' t' = Some (Shared h) ->
    u = u' /\ s = s' /\ t = t'
}.

(** The index of a simple graph against its edge store: an out entry is
    the identifier of the stored edge of that kind from the node to the
    neighbour of that name, no entry is a set, and the ends of the stored
    edges are nodes. *)
Record exactSimple (g : Graph) : Prop := mkExactSimple {
  simple_ids : NoDup (keys (_edges g));
  simple_entries : forall u s t e,
    look (_nodes g) (outSlot u) s t = Some (Single e) <-> stored g e u s t;
  simple_singles : forall k s t h, look (_nodes g) k s t <> Some (Shared h);
  simple_ends : forall e d,
    get e (_edges g) = Some d ->
    In (source d) (keys (_nodes g)) /\ In (target d) (keys (_nodes g))
}.

(** *** Graphs and families of the examples *)

Definition emptyGraph (multi map : bool) : Graph :=
  mkGraph multi map [] [] [] false.

Definition edgesFamily : Description := mkDescription "edges" "countEdges" mixed None.

Definition outEdgesFamily : Description :=
  mkDescription "outEdges" "countOutEdges" directed (Some dirOut).

Definition inEdgesFamily : Description :=
  mkDescription "inEdges" "countInEdges" directed (Some dirIn).

Definition selfLoopsFamily : Description :=
  mkDescription "selfLoops" "countSelfLoops" selfLoops None.

Definition directedAB : EdgeData := mkEdgeData (Str "A") (Str "B") false.

(** A graph with the nodes A and B, no edge, index built. *)
Definition nodesAB (multi map : bool) : Graph :=
  mkGraph multi map [(Str "A", noData); (Str "B", noData)] [] [] true.

(** A simple graph with the nodes A and B, no edge, index built. *)
Definition simpleAB (map : bool) : Graph := nodesAB false map.

(** [simpleAB] after the mutation API added the directed edge "ab" from A
    to B: both buckets hold the identifier itself. *)
Definition simpleWithAB (map : bool) : Graph :=
  mkGraph false map
    [ (Str "A", mkNodeData None (Some [("B"%string, Single "ab")]) None None);
      (Str "B", mkNodeData (Some [("A"%string, Single "ab")]) None None None) ]
    [ ("ab"%string, directedAB) ] [] true.

(** A multigraph with the nodes A and B, after the mutation API added the
    directed edge "ab" from A to B. *)
Definition multiWithAB (map : bool) : Graph :=
  mkGraph true map
    [ (Str "A", mkNodeData None (Some [("B"%string, Shared 0)]) None None);
      (Str "B", mkNodeData (Some [("A"%string, Shared 0)]) None None None) ]
    [ ("ab"%string, directedAB) ]
    [ ["ab"%string] ]
    true.

Definition multiAB : Graph := multiWithAB true.

(** A multigraph with the nodes A and B, the undirected edge "ab" between
    them and its index built. *)
Definition undirectedAB : Graph :=
  mkGraph true true
    [ (Str "A", mkNodeData None None None (Some [("B"%string, Shared 0)]));
      (Str "B", mkNodeData None None (Some [("A"%string, Shared 0)]) None) ]
    [ ("ab"%string, mkEdgeData (Str "A") (Str "B") true) ]
    [ ["ab"%string] ]
    true.

(** A simple graph whose node A carries the directed loop "aa" and nothing
    else, as [addEdge] leaves it. *)
Definition simpleLoop : Graph :=
  mkGraph false true
    [ (Str "A", mkNodeData None (Some [("A"%string, Single "aa")]) None None) ]
    [ ("aa"%string, mkEdgeData (Str "A") (Str "A") false) ] [] true.

(** A simple graph on the node A with a directed loop "aa", an undirected
    loop "uu", and on A and B the directed edge "ab" and the undirected
    edge "ba". *)
Definition loops : Graph :=
  mkGraph false true
    [ (Str "A", noData); (Str "B", noData) ]
    [ ("aa"%string, mkEdgeData (Str "A") (Str "A") false);
      ("uu"%string, mkEdgeData (Str "A") (Str "A") true);
      ("ab"%string, mkEdgeData (Str "A") (Str "B") false);
      ("ba"%string, mkEdgeData (Str "B") (Str "A") true) ]
    [] false.

(** On a multigraph with the nodes [A] and [B] and no edge: add [e1] and
    [e2] from [A] to [B], ask [outEdges(A)], drop [e1], ask [outEdges(A)]
    and [inEdges(B)]. *)
Definition parallel (map computed : bool) (A B : node) (e1 e2 : edge)
  : exc (result * result * result) :=
  let g := mkGraph true map [(A, noData); (B, noData)] [] [] computed in
  let data := mkEdgeData A B false in
  g <- addEdge g e1 data ;;
  g <- addEdge g e2 data ;;
  r <- attachEdgeArrayCreator false outEdgesFamily g [A] ;;
  let '(both, g) := r in
  g <- dropEdge g e1 ;;
  r <- attachEdgeArrayCreator false outEdgesFamily g [A] ;;
  let '(outA, g) := r in
  r <- attachEdgeArrayCreator false inEdgesFamily g [B] ;;
  let '(inB, g) := r in
  Ret (both, outA, inB).

(** A multigraph with the node "A", the node keyed by the array ["A"] and
    the node "T", no edge, index built: two of the nodes are converted to
    the property name "A". *)
Definition namesakes (multi : bool) : Graph :=
  mkGraph multi true
    [ (Str "A", noData); (Arr ["A"%string], noData); (Str "T", noData) ]
    [] [] true.

(** The graph a sequence of calls leaves (the graph itself where a call
    raises). *)
Definition after (cs : list call) (g : Graph) : Graph :=
  match run cs g with
  | Ret g' => g'
  | Throw _ => g
  end.

(** * Properties *)
(** ** Keyed collections *)

Section AssocFacts.
Context {K V : Type} `{EqDec K}.
Implicit Types (k : K) (v : V) (l : list (K * V)).

Lemma get_set_eq k v l : get k (set k v l) = Some v.
Proof.
  induction l as [|[k' v'] r IH]; simpl.
  - destruct (eq_dec k k); congruence.
  - destruct (eq_dec k k') as [->|ne]; simpl.
    + destruct (eq_dec k' k'); congruence.
    + destruct (eq_dec k k'); congruence.
Qed.

Lemma get_set_neq k k' v l : k <> k' -> get k' (set k v l) = get k' l.
Proof.
  intros ne. induction l as [|[k2 v2] r IH]; simpl.
  - destruct (eq_dec k' k); congruence.
  - destruct (eq_dec k k2) as [->|ne2]; simpl.
    + destruct (eq_dec k' k2); congruence.
    + destruct (eq_dec k' k2); congruence.
Qed.

Lemma set_get_same k v l : get k l = Some v -> set k v l = l.
Proof.
  induction l as [|[k' v'] r IH]; simpl; [discriminate|].
  destruct (eq_dec k k') as [->|ne]; intros E.
  - congruence.
  - rewrite IH; auto.
Qed.

Lemma keys_set_present k v l : has k l = true -> keys (set k v l) = keys l.
Proof.
  unfold has, keys. induction l as [|[k' v'] r IH]; simpl; [discriminate|].
  destruct (eq_dec k k') as [->|ne]; simpl; intros E; [reflexivity|].
  f_equal. apply IH, E.
Qed.

Lemma has_keys k l : has k l = true <-> In k (keys l).
Proof.
  unfold has. induction l as [|[k' v'] r IH]; simpl.
  - split; [discriminate | tauto].
  - destruct (eq_dec k k') as [->|ne].
    + split; auto.
    + rewrite IH. split; [auto | intros [E|I]; congruence].
Qed.
End AssocFacts.

Lemma getB_setB_eq k b d : getB k (setB k b d) = b.
Proof. destruct k; reflexivity. Qed.

Lemma getB_setB_neq k k' b d : k <> k' -> getB k' (setB k b d) = getB k' d.
Proof. destruct k, k'; simpl; congruence. Qed.

Lemma setB_getB_same k d : setB k (getB k d) d = d.
Proof. destruct d, k; reflexivity. Qed.

(** ** Error texts *)

Lemma prefix_append (a b : string) : String.prefix a (a ++ b)%string = true.
Proof.
  induction a as [|c a IH]; simpl.
  - destruct b; reflexivity.
  - destruct (Ascii.ascii_dec c c); [exact IH | congruence].
Qed.

Lemma occurs_prefix (needle s : string) :
  String.prefix needle s = true -> occurs needle s = true.
Proof. intros P. destruct s; cbn [occurs]; rewrite P; reflexivity. Qed.

Lemma occurs_append (needle pre post : string) :
  occurs needle (pre ++ needle ++ post)%string = true.
Proof.
  induction pre as [|c pre IH].
  - cbn [append]. apply occurs_prefix, prefix_append.
  - change (occurs needle (String c (pre ++ needle ++ post)%string) = true).
    cbn [occurs]. rewrite IH. apply orb_true_r.
Qed.

Lemma append_assoc (a b c : string) : ((a ++ b) ++ c = a ++ b ++ c)%string.
Proof. induction a; simpl; congruence. Qed.


Lemma InvalidArguments_names op n :
  names (InvalidArgumentsGraphError op n) op = true
  /\ names (InvalidArgumentsGraphError op n) "expecting 0, 1 or 2" = true
  /\ names (InvalidArgumentsGraphError op n) ("got " ++ decimal n) = true.
Proof.
  unfold names; cbn [message]. split; [|split].
  - apply (occurs_append op "Graph.").
  - replace ("Graph." ++ op ++ ": too many arguments (expecting 0, 1 or 2 and got "
             ++ decimal n ++ ").")%string
      with (("Graph." ++ op ++ ": too many arguments (")
            ++ "expecting 0, 1 or 2" ++ " and got " ++ decimal n ++ ").")%string.
    + apply occurs_append.
    + rewrite !append_assoc. reflexivity.
  - replace ("Graph." ++ op ++ ": too many arguments (expecting 0, 1 or 2 and got "
             ++ decimal n ++ ").")%string
      with (("Graph." ++ op ++ ": too many arguments (expecting 0, 1 or 2 and ")
            ++ ("got " ++ decimal n) ++ ").")%string.
    + apply occurs_append.
    + rewrite !append_assoc. reflexivity.
Qed.

(** ** Which exceptions the pieces raise *)

Lemma bind_onlyTypeError {A B} (c : exc A) (k : A -> exc B) :
  onlyTypeError c -> (forall a, onlyTypeError (k a)) -> onlyTypeError (bind c k).
Proof.
  intros Hc Hk e. destruct c as [a|e']; simpl.
  - apply Hk.
  - intros [= <-]. apply Hc. reflexivity.
Qed.

Lemma Ret_onlyTypeError {A} (a : A) : onlyTypeError (Ret a).
Proof. intros e; discriminate. Qed.

Lemma Throw_onlyTypeError {A} : onlyTypeError (@Throw A TypeError).
Proof. intros e [= <-]; reflexivity. Qed.

Lemma noMethod_onlyTypeError {A} : onlyTypeError (@noMethod A).
Proof. apply Throw_onlyTypeError. Qed.

Create HintDb exc.
#[local] Hint Resolve Ret_onlyTypeError Throw_onlyTypeError noMethod_onlyTypeError : exc.

Lemma updateStructureIndex_onlyTypeError g e d :
  onlyTypeError (updateStructureIndex g e d).
Proof.
  intros err E. unfold updateStructureIndex, bind in E.
  split_match; congruence.
Qed.

Lemma fold_left_preserves {A B} (P : A -> Prop) (f : A -> B -> A) (l : list B) (a : A) :
  P a -> (forall a b, P a -> P (f a b)) -> P (fold_left f l a).
Proof.
  revert a. induction l as [|b l IH]; intros a Ha Hf; simpl; auto.
Qed.

Lemma computeIndex_onlyTypeError g : onlyTypeError (computeIndex g).
Proof.
  unfold computeIndex. destruct (computed g); auto with exc.
  apply bind_onlyTypeError; [|auto with exc].
  apply fold_left_preserves; [auto with exc|].
  intros c [e d] Hc. apply bind_onlyTypeError; [exact Hc|].
  intros; apply updateStructureIndex_onlyTypeError.
Qed.

Lemma values_onlyTypeError v : onlyTypeError (values v).
Proof. destruct v; simpl; auto with exc. Qed.

Lemma collectEdgesFromMap_onlyTypeError b k : onlyTypeError (collectEdgesFromMap b k).
Proof. unfold collectEdgesFromMap. destruct b, k; auto with exc. Qed.

Lemma countEdgesFromMap_onlyTypeError b k : onlyTypeError (countEdgesFromMap b k).
Proof. unfold countEdgesFromMap. destruct b, k; auto with exc. Qed.

Lemma collectEdgesFromObject_onlyTypeError b k :
  onlyTypeError (collectEdgesFromObject b k).
Proof.
  unfold collectEdgesFromObject. destruct b as [b|]; [|destruct k; auto with exc].
  destruct k as [k|].
  - destruct (get (show k) b); auto with exc. apply values_onlyTypeError.
  - apply bind_onlyTypeError; [|auto with exc].
    apply fold_left_preserves; [auto with exc|].
    intros c [n v] Hc. apply bind_onlyTypeError; [exact Hc|]. intros edges.
    apply bind_onlyTypeError; [apply values_onlyTypeError | auto with exc].
Qed.

Lemma field_onlyTypeError k d : onlyTypeError (field k d).
Proof. destruct d; simpl; auto with exc. Qed.

Lemma visit_onlyTypeError count g d k key acc :
  onlyTypeError (visit count g d k key acc).
Proof.
  unfold visit. destruct acc as [edges nb].
  apply bind_onlyTypeError; [apply field_onlyTypeError|]. intros b.
  destruct count; (apply bind_onlyTypeError; [|auto with exc]);
    destruct (map g); auto with exc.
  - apply countEdgesFromMap_onlyTypeError.
  - apply collectEdgesFromMap_onlyTypeError.
  - apply collectEdgesFromObject_onlyTypeError.
Qed.

#[local] Hint Resolve visit_onlyTypeError computeIndex_onlyTypeError : exc.

Lemma createEdgeArrayForNode_onlyTypeError count g type direction node :
  onlyTypeError (createEdgeArrayForNode count g type direction node).
Proof.
  unfold createEdgeArrayForNode.
  apply bind_onlyTypeError; [auto with exc|]. intros g'. cbv zeta.
  repeat (apply bind_onlyTypeError; [|intros]);
    repeat match goal with
           | |- onlyTypeError (if ?c then _ else _) => destruct c
           | |- onlyTypeError (bind _ _) => apply bind_onlyTypeError; [|intros]
           | |- onlyTypeError (let '(_, _) := ?p in _) => destruct p
           end; auto with exc.
Qed.

Lemma createEdgeArrayForPath_onlyTypeError count g type s t :
  onlyTypeError (createEdgeArrayForPath count g type s t).
Proof.
  unfold createEdgeArrayForPath.
  apply bind_onlyTypeError; [auto with exc|]. intros g'. cbv zeta.
  repeat (apply bind_onlyTypeError; [|intros]);
    repeat match goal with
           | |- onlyTypeError (if ?c then _ else _) => destruct c
           | |- onlyTypeError (bind _ _) => apply bind_onlyTypeError; [|intros]
           | |- onlyTypeError (let '(_, _) := ?p in _) => destruct p
           end; auto with exc.
Qed.

Lemma mergeEdgesFromMap_onlyTypeError edges b :
  onlyTypeError (mergeEdgesFromMap edges b).
Proof. unfold mergeEdgesFromMap. destruct b; auto with exc. Qed.

Lemma mergeEdges_onlyTypeError g d k edges : onlyTypeError (mergeEdges g d k edges).
Proof.
  unfold mergeEdges. apply bind_onlyTypeError; [apply field_onlyTypeError|]. intros b.
  destruct (map g); auto with exc. apply mergeEdgesFromMap_onlyTypeError.
Qed.

#[local] Hint Resolve mergeEdges_onlyTypeError : exc.
(** ** What the index functions leave alone *)

Lemma get_Some_has {K V} `{EqDec K} (k : K) (v : V) l :
  get k l = Some v -> has k l = true.
Proof. unfold has. intros ->. reflexivity. Qed.

Lemma get_In {K V} `{EqDec K} (k : K) (v : V) l : get k l = Some v -> In (k, v) l.
Proof.
  induction l as [|[k' v'] r IH]; simpl; [discriminate|].
  destruct (eq_dec k k') as [->|ne]; [intros [= ->]; auto | auto].
Qed.

Lemma In_get {K V} `{EqDec K} (k : K) (v : V) l :
  NoDup (keys l) -> In (k, v) l -> get k l = Some v.
Proof.
  induction l as [|[k' v'] r IH]; simpl; [tauto|].
  intros N. inversion N as [|? ? Nin Nr]; subst.
  intros [[= -> ->]|I].
  - destruct (eq_dec k k); congruence.
  - destruct (eq_dec k k') as [->|ne]; [|auto].
    exfalso. apply Nin. apply in_map_iff. exists (k', v). auto.
Qed.

Lemma In_set {K V} `{EqDec K} (k : K) (v : V) l p :
  In p (set k v l) -> p = (k, v) \/ In p l.
Proof.
  induction l as [|[k' v'] r IH]; simpl.
  - intros [<-|[]]. auto.
  - destruct (eq_dec k k') as [->|ne]; simpl.
    + intros [<-|I]; auto.
    + intros [<-|I]; auto. destruct (IH I); auto.
Qed.

Lemma updateStructureIndex_frame g e d g' :
  updateStructureIndex g e d = Ret g' ->
  keys (_nodes g') = keys (_nodes g) /\ map g' = map g /\ multi g' = multi g
  /\ _edges g' = _edges g /\ computed g' = computed g.
Proof.
  intros E. unfold updateStructureIndex, bind in E.
  split_match; try discriminate; injection E as <-; simpl;
    repeat split; auto;
    repeat (rewrite keys_set_present; [|eapply get_Some_has; eassumption]);
    reflexivity.
Qed.

Lemma clearEdgeFromStructureIndex_frame g e d g' :
  clearEdgeFromStructureIndex g e d = Ret g' ->
  keys (_nodes g') = keys (_nodes g) /\ map g' = map g /\ multi g' = multi g
  /\ _edges g' = _edges g /\ computed g' = computed g.
Proof.
  intros E. unfold clearEdgeFromStructureIndex, bind in E.
  split_match; try discriminate; injection E as <-; simpl;
    repeat split; auto;
    repeat (rewrite keys_set_present; [|eapply get_Some_has; eassumption]);
    reflexivity.
Qed.

Lemma computeIndex_frame g g' :
  computeIndex g = Ret g' ->
  keys (_nodes g') = keys (_nodes g) /\ map g' = map g /\ multi g' = multi g
  /\ _edges g' = _edges g.
Proof.
  unfold computeIndex. destruct (computed g); [intros [= <-]; auto|].
  set (P := fun c : exc Graph =>
              forall g1, c = Ret g1 ->
                         keys (_nodes g1) = keys (_nodes g) /\ map g1 = map g
                         /\ multi g1 = multi g /\ _edges g1 = _edges g).
  assert (HP : P (fold_left
                    (fun acc '(edge, data) => g <- acc ;; updateStructureIndex g edge data)
                    (_edges g) (Ret g))).
  { apply fold_left_preserves.
    - intros g1 [= <-]. auto.
    - intros c [e d] Hc g1 E. destruct c as [g0|]; simpl in E; [|discriminate].
      destruct (Hc g0 eq_refl) as (K & M & U & Ed).
      destruct (updateStructureIndex_frame _ _ _ E) as (K' & M' & U' & Ed' & _).
      repeat split; congruence. }
  intros E. destruct (fold_left _ _ _) as [g1|]; simpl in E; [|discriminate].
  injection E as <-. simpl. apply HP. reflexivity.
Qed.

Lemma computeIndex_twice g g' : computeIndex g = Ret g' -> computeIndex g' = Ret g'.
Proof.
  unfold computeIndex at 1. destruct (computed g) eqn:C.
  - intros [= <-]. unfold computeIndex. rewrite C. reflexivity.
  - destruct (fold_left _ (_edges g) (Ret g)) as [g1|]; [|discriminate].
    cbn [bind]. intros [= <-]. reflexivity.
Qed.

Lemma computeIndex_built g : computed g = true -> computeIndex g = Ret g.
Proof. unfold computeIndex. intros ->. reflexivity. Qed.

Lemma step_keys g c g' : step g c = Ret g' -> keys (_nodes g') = keys (_nodes g).
Proof.
  destruct c as [e d|e|e d|e d| |]; simpl; intros E.
  - unfold addEdge, onEdgeAdded in E.
    destruct (updateStructureIndex_frame _ _ _ E) as (K & _). exact K.
  - unfold dropEdge in E. destruct (get e (_edges g)) as [d|]; [|congruence].
    destruct (clearEdgeFromStructureIndex_frame _ _ _ E) as (K & _). exact K.
  - destruct (updateStructureIndex_frame _ _ _ E) as (K & _). exact K.
  - destruct (clearEdgeFromStructureIndex_frame _ _ _ E) as (K & _). exact K.
  - destruct (computeIndex_frame _ E) as (K & _). exact K.
  - injection E as <-. unfold clearIndex, clearStructureIndex, with_index, keys. simpl.
    rewrite List.map_map. apply List.map_ext. intros [n d]. reflexivity.
Qed.

Lemma run_keys cs : forall g g', run cs g = Ret g' -> keys (_nodes g') = keys (_nodes g).
Proof.
  induction cs as [|c cs IH]; intros g g' R.
  - injection R as <-. reflexivity.
  - cbn [run] in R. destruct (step g c) as [g1|] eqn:St; [|discriminate].
    cbn [bind] in R. rewrite (IH _ _ R). exact (step_keys _ _ St).
Qed.

Lemma hasNode_keys g g' n :
  keys (_nodes g') = keys (_nodes g) -> hasNode g' n = hasNode g n.
Proof.
  intros K. unfold hasNode.
  destruct (has n (_nodes g)) eqn:E.
  - apply (proj2 (has_keys n (_nodes g'))). rewrite K.
    apply (proj1 (has_keys n (_nodes g))), E.
  - destruct (has n (_nodes g')) eqn:E'; [|reflexivity].
    apply (proj1 (has_keys n (_nodes g'))) in E'. rewrite K in E'.
    apply (proj2 (has_keys n (_nodes g))) in E'. congruence.
Qed.

Lemma hasNode_get g n : hasNode g n = true <-> get n (_nodes g) <> None.
Proof.
  unfold hasNode, has. destruct (get n (_nodes g)); split; congruence.
Qed.

Lemma hasNode_In g n : hasNode g n = true <-> In n (keys (_nodes g)).
Proof. apply has_keys. Qed.

Lemma fold_left_Throw {A B} (f : A -> B -> exc A) (l : list B) (e : error) :
  fold_left (fun acc b => a <- acc ;; f a b) l (Throw e) = Throw e.
Proof. induction l; simpl; auto. Qed.
(** ** Entries of the index *)

Lemma look_put_eq nodes k s t v :
  get s nodes <> None -> look (put nodes k s t v) k s t = Some v.
Proof.
  unfold look, put. destruct (get s nodes) as [d|] eqn:G; [intros _|congruence].
  rewrite get_set_eq, getB_setB_eq. apply get_set_eq.
Qed.

Lemma look_put_neq nodes k s t v k' s' t' :
  ~ (k = k' /\ s = s' /\ t = t') ->
  look (put nodes k s t v) k' s' t' = look nodes k' s' t'.
Proof.
  intros N. unfold look, put. destruct (get s nodes) as [d|] eqn:G; [|reflexivity].
  destruct (eq_dec s s') as [<-|Ns].
  - rewrite get_set_eq, G. destruct (slot_eq_dec k k') as [<-|Nk].
    + rewrite getB_setB_eq. rewrite get_set_neq by (intros ->; apply N; auto).
      destruct (getB k d); reflexivity.
    + rewrite getB_setB_neq by exact Nk. reflexivity.
  - rewrite get_set_neq by exact Ns. reflexivity.
Qed.

Lemma get_put nodes k s t v n : get n (put nodes k s t v) <> None <-> get n nodes <> None.
Proof.
  unfold put. destruct (get s nodes) as [d|] eqn:G; [|tauto].
  destruct (eq_dec s n) as [<-|Ns].
  - rewrite get_set_eq, G. split; congruence.
  - rewrite get_set_neq by exact Ns. tauto.
Qed.

Lemma at_true k s t k' s' t' :
  at_ k s t k' s' t' = true <-> k = k' /\ s = s' /\ t = t'.
Proof.
  unfold at_. destruct (slot_eq_dec k k'), (eq_dec s s'), (eq_dec t t'); simpl;
    split; intros; try discriminate; tauto.
Qed.

Lemma at_false k s t k' s' t' :
  at_ k s t k' s' t' = false <-> ~ (k = k' /\ s = s' /\ t = t').
Proof.
  rewrite <- at_true. destruct (at_ k s t k' s' t'); split; intros; congruence.
Qed.

Lemma look_put nodes k s t v k' s' t' :
  get s nodes <> None ->
  look (put nodes k s t v) k' s' t'
  = if at_ k s t k' s' t' then Some v else look nodes k' s' t'.
Proof.
  intros G. destruct (at_ k s t k' s' t') eqn:A.
  - apply at_true in A as (<- & <- & <-). apply look_put_eq, G.
  - apply look_put_neq, at_false, A.
Qed.

Lemma out_in_slots u u' : outSlot u <> inSlot u'.
Proof. destruct u, u'; discriminate. Qed.

Lemma outSlot_inj u u' : outSlot u = outSlot u' -> u = u'.
Proof. destruct u, u'; simpl; congruence. Qed.

Lemma inSlot_inj u u' : inSlot u = inSlot u' -> u = u'.
Proof. destruct u, u'; simpl; congruence. Qed.

(** In a multigraph, removal changes the shared set and no bucket. *)
Lemma clearEdgeFromStructureIndex_multi g e d g' :
  multi g = true -> clearEdgeFromStructureIndex g e d = Ret g' ->
  _nodes g' = _nodes g /\ multi g' = true.
Proof.
  intros M E. unfold clearEdgeFromStructureIndex in E. rewrite M in E.
  destruct (get (source d) (_nodes g)) as [sd|] eqn:Gs; [|discriminate].
  destruct (getB _ sd) as [b|] eqn:Gb; [|discriminate].
  assert (Same : set (source d)
                     (setB (if undirected d then kUndirectedOut else kOut) (Some b) sd)
                     (_nodes g) = _nodes g).
  { rewrite <- Gb, setB_getB_same. apply set_get_same, Gs. }
  destruct (get (show (target d)) b) as [[x|h]|]; simpl in E; try discriminate;
    injection E as <-; simpl; rewrite Same; auto.
Qed.

Lemma look_cleared (nodes : list (node * NodeData)) k s t :
  look (List.map (fun '(n, _) => (n, noData)) nodes) k s t = None.
Proof.
  unfold look. induction nodes as [|[n d] r IH]; simpl; [reflexivity|].
  destruct (eq_dec s n); [destruct k; reflexivity | exact IH].
Qed.

Lemma unindexed_look g k s t : unindexed g = true -> look (_nodes g) k s t = None.
Proof.
  unfold unindexed, look. intros U. rewrite forallb_forall in U.
  destruct (get s (_nodes g)) as [d|] eqn:G; [|reflexivity].
  specialize (U _ (get_In _ _ G)). cbv beta iota in U.
  destruct d as [[?|] [?|] [?|] [?|]]; simpl in U; try discriminate.
  destruct k; reflexivity.
Qed.

(** ** Deleting from a keyed collection *)

Section DelFacts.
Context {K V : Type} `{EqDec K}.
Implicit Types (k : K) (v : V) (l : list (K * V)).

Lemma get_del_neq k k' l : k <> k' -> get k' (del k l) = get k' l.
Proof.
  intros ne. induction l as [|[k2 v2] r IH]; simpl; [reflexivity|].
  destruct (eq_dec k k2) as [->|n2]; simpl.
  - destruct (eq_dec k' k2); congruence.
  - destruct (eq_dec k' k2); congruence.
Qed.

Lemma get_absent k l : ~ In k (keys l) -> get k l = None.
Proof.
  intros N. destruct (get k l) eqn:G; [|reflexivity].
  exfalso. apply N. apply (proj1 (has_keys k l)). unfold has. rewrite G. reflexivity.
Qed.

Lemma get_del_eq k l : NoDup (keys l) -> get k (del k l) = None.
Proof.
  induction l as [|[k2 v2] r IH]; simpl; [reflexivity|].
  intros N. inversion N as [|? ? Nin Nr]; subst.
  destruct (eq_dec k k2) as [->|n2]; simpl.
  - apply get_absent, Nin.
  - destruct (eq_dec k k2); [contradiction|]. apply IH, Nr.
Qed.

Lemma del_absent k l : get k l = None -> del k l = l.
Proof.
  induction l as [|[k2 v2] r IH]; simpl; [reflexivity|].
  destruct (eq_dec k k2); [discriminate|]. intros G. rewrite IH; auto.
Qed.

Lemma keys_del_incl k l x : In x (keys (del k l)) -> In x (keys l).
Proof.
  induction l as [|[k2 v2] r IH]; simpl; [tauto|].
  destruct (eq_dec k k2); simpl; [auto|]. intros [E|I]; auto.
Qed.

Lemma NoDup_keys_del k l : NoDup (keys l) -> NoDup (keys (del k l)).
Proof.
  induction l as [|[k2 v2] r IH]; simpl; [auto|].
  intros N. inversion N as [|? ? Nin Nr]; subst.
  destruct (eq_dec k k2); simpl; [exact Nr|].
  constructor; [|apply IH, Nr]. intros I. apply Nin. eapply keys_del_incl, I.
Qed.

Lemma keys_set_absent k v l : get k l = None -> keys (set k v l) = keys l ++ [k].
Proof.
  unfold keys. induction l as [|[k2 v2] r IH]; simpl; [reflexivity|].
  destruct (eq_dec k k2); [discriminate|]. intros G. simpl. f_equal. apply IH, G.
Qed.

Lemma NoDup_keys_set k v l : NoDup (keys l) -> NoDup (keys (set k v l)).
Proof.
  intros N. destruct (get k l) as [w|] eqn:G.
  - rewrite keys_set_present; [exact N|]. unfold has. rewrite G. reflexivity.
  - rewrite keys_set_absent by exact G.
    apply NoDup_app; [exact N | repeat constructor; intros [] |].
    intros x Ix [<-|[]]. apply (proj2 (has_keys k l)) in Ix.
    unfold has in Ix. rewrite G in Ix. discriminate.
Qed.
End DelFacts.

Lemma look_drop nodes k s t k' s' t' :
  keyedOnce nodes ->
  look (drop nodes k s t) k' s' t'
  = if at_ k s t k' s' t' then None else look nodes k' s' t'.
Proof.
  intros Ko. unfold drop.
  destruct (get s nodes) as [d|] eqn:G.
  - destruct (getB k d) as [b|] eqn:B.
    + unfold look. destruct (eq_dec s s') as [<-|Ns].
      * rewrite get_set_eq, G. destruct (slot_eq_dec k k') as [<-|Nk].
        { rewrite getB_setB_eq, B. destruct (eq_dec t t') as [<-|Nt].
          - replace (at_ k s t k s t) with true by (symmetry; apply at_true; auto).
            apply get_del_eq. eapply Ko; eauto using get_In.
          - replace (at_ k s t k s t') with false
              by (symmetry; apply at_false; intros (_ & _ & ?); contradiction).
            apply get_del_neq, Nt. }
        { rewrite getB_setB_neq by exact Nk.
          replace (at_ k s t k' s t') with false
            by (symmetry; apply at_false; intros (? & _); contradiction).
          reflexivity. }
      * rewrite get_set_neq by exact Ns.
        replace (at_ k s t k' s' t') with false
          by (symmetry; apply at_false; intros (_ & ? & _); contradiction).
        reflexivity.
    + destruct (at_ k s t k' s' t') eqn:A; [|reflexivity].
      apply at_true in A as (<- & <- & <-). unfold look. rewrite G, B. reflexivity.
  - destruct (at_ k s t k' s' t') eqn:A; [|reflexivity].
    apply at_true in A as (<- & <- & <-). unfold look. rewrite G. reflexivity.
Qed.

Lemma keyedOnce_put nodes k s t v : keyedOnce nodes -> keyedOnce (put nodes k s t v).
Proof.
  intros Ko. unfold put. destruct (get s nodes) as [d|] eqn:G; [|exact Ko].
  intros n d' I k' b' B.
  apply In_set in I as [[= -> ->]|I]; [|eapply Ko; eauto].
  destruct (slot_eq_dec k k') as [<-|Nk].
  - rewrite getB_setB_eq in B. injection B as <-. apply NoDup_keys_set.
    destruct (getB k d) as [b|] eqn:B; [|constructor].
    eapply Ko; eauto using get_In.
  - rewrite getB_setB_neq in B by exact Nk. eapply Ko; eauto using get_In.
Qed.

Lemma keyedOnce_drop nodes k s t : keyedOnce nodes -> keyedOnce (drop nodes k s t).
Proof.
  intros Ko. unfold drop. destruct (get s nodes) as [d|] eqn:G; [|exact Ko].
  destruct (getB k d) as [b|] eqn:B; [|exact Ko].
  intros n d' I k' b' B'.
  apply In_set in I as [[= -> ->]|I]; [|eapply Ko; eauto].
  destruct (slot_eq_dec k k') as [<-|Nk].
  - rewrite getB_setB_eq in B'. injection B' as <-. apply NoDup_keys_del.
    eapply Ko; eauto using get_In.
  - rewrite getB_setB_neq in B' by exact Nk. eapply Ko; eauto using get_In.
Qed.

Lemma keys_drop nodes k s t : keys (drop nodes k s t) = keys nodes.
Proof.
  unfold drop. destruct (get s nodes) as [d|] eqn:G; [|reflexivity].
  destruct (getB k d); [|reflexivity].
  apply keys_set_present. unfold has. rewrite G. reflexivity.
Qed.

Lemma bucketAt_drop nodes k s t k' n :
  bucketAt (drop nodes k s t) k' n = None <-> bucketAt nodes k' n = None.
Proof.
  unfold bucketAt, drop. destruct (get s nodes) as [d|] eqn:G; [|tauto].
  destruct (getB k d) as [b|] eqn:B; [|tauto].
  destruct (eq_dec s n) as [<-|Ns].
  - rewrite get_set_eq, G. destruct (slot_eq_dec k k') as [<-|Nk].
    + rewrite getB_setB_eq, B. split; discriminate.
    + rewrite getB_setB_neq by exact Nk. tauto.
  - rewrite get_set_neq by exact Ns. tauto.
Qed.

(** ** Sets of edge identifiers *)

Lemma Graph_fields (g1 g2 : Graph) :
  multi g1 = multi g2 -> map g1 = map g2 -> _nodes g1 = _nodes g2 ->
  _edges g1 = _edges g2 -> sets g1 = sets g2 -> computed g1 = computed g2 ->
  g1 = g2.
Proof. destruct g1, g2; simpl; intros; subst; reflexivity. Qed.

Lemma add_In e (s : list edge) : In e (add e s).
Proof.
  unfold add, mem. destruct (in_dec string_dec e s); [assumption|].
  apply in_or_app. right. simpl. auto.
Qed.

Lemma add_present e (s : list edge) : In e s -> add e s = s.
Proof.
  intros I. unfold add, mem. destruct (in_dec string_dec e s); [reflexivity|contradiction].
Qed.

Lemma update_nth_twice {A} (f : A -> A) h (l : list A) :
  (forall x, f (f x) = f x) -> update_nth h f (update_nth h f l) = update_nth h f l.
Proof.
  intros F. revert h. induction l as [|x r IH]; intros [|h]; simpl; auto.
  - rewrite F. reflexivity.
  - rewrite IH. reflexivity.
Qed.

Lemma length_update_nth {A} (f : A -> A) h (l : list A) :
  List.length (update_nth h f l) = List.length l.
Proof.
  revert h. induction l as [|x r IH]; intros [|h]; simpl; auto.
Qed.

Lemma members_update_nth_eq (f : list edge -> list edge) h (l : list (list edge)) :
  h < List.length l -> members (update_nth h f l) h = f (members l h).
Proof.
  unfold members. revert h. induction l as [|x r IH]; intros [|h] Hh; simpl in *;
    try lia; auto. apply IH. lia.
Qed.

Lemma members_update_nth_neq (f : list edge -> list edge) h h' (l : list (list edge)) :
  h <> h' -> members (update_nth h f l) h' = members l h'.
Proof.
  unfold members. revert h h'.
  induction l as [|x r IH]; intros [|h] [|h'] N; simpl; auto; try congruence.
Qed.

Lemma members_fresh (l : list (list edge)) h : members (l ++ [[]]) h = members l h.
Proof.
  unfold members. destruct (Nat.lt_ge_cases h (List.length l)) as [Lt|Ge].
  - apply app_nth1, Lt.
  - rewrite (nth_overflow l) by exact Ge.
    rewrite app_nth2 by exact Ge. destruct (h - List.length l) as [|[|n]]; reflexivity.
Qed.

Lemma members_dangling (l : list (list edge)) h :
  List.length l <= h -> members l h = [].
Proof. intros Ge. apply nth_overflow, Ge. Qed.

Lemma NoDup_delete e (s : list edge) : NoDup s -> NoDup (delete e s).
Proof.
  induction s as [|x r IH]; simpl; [auto|]. intros N.
  inversion N as [|? ? Nin Nr]; subst. destruct (string_dec e x); [exact Nr|].
  constructor; [|apply IH, Nr]. intros I. apply Nin. clear - I.
  induction r as [|y r IH]; simpl in *; [tauto|].
  destruct (string_dec e y); [auto|]. destruct I; auto.
Qed.

Lemma In_delete e x (s : list edge) : x <> e -> (In x (delete e s) <-> In x s).
Proof.
  intros N. induction s as [|y r IH]; simpl; [tauto|].
  destruct (string_dec e y) as [<-|Ny]; simpl; [|rewrite IH; tauto].
  split; [auto | intros [E|I]; [congruence | exact I]].
Qed.

Lemma delete_not_In e (s : list edge) : NoDup s -> ~ In e (delete e s).
Proof.
  induction s as [|x r IH]; simpl; [tauto|]. intros N.
  inversion N as [|? ? Nin Nr]; subst.
  destruct (string_dec e x) as [<-|Nx]; [exact Nin|].
  intros [E|I]; [congruence | exact (IH Nr I)].
Qed.

Lemma delete_add e (s : list edge) : ~ In e s -> delete e (add e s) = s.
Proof.
  intros N. unfold add, mem. destruct (in_dec string_dec e s); [contradiction|].
  induction s as [|x r IH]; simpl.
  - destruct (string_dec e e); congruence.
  - destruct (string_dec e x) as [<-|Nx]; [exfalso; apply N; simpl; auto|].
    f_equal. apply IH; intros I; apply N; simpl; auto.
Qed.

Lemma In_add e x (s : list edge) : In x (add e s) <-> x = e \/ In x s.
Proof.
  unfold add, mem. destruct (in_dec string_dec e s) as [I|N].
  - split; [auto | intros [->|]; auto].
  - rewrite in_app_iff. simpl. split; [intros [|[<-|[]]]; auto | intros [->|]; auto].
Qed.

Lemma In_delete_iff e x (s : list edge) :
  NoDup s -> (In x (delete e s) <-> x <> e /\ In x s).
Proof.
  intros N. destruct (string_dec x e) as [->|Ne].
  - split; [intros I; exfalso; exact (delete_not_In e N I) | intros [C _]; congruence].
  - rewrite (In_delete s Ne). tauto.
Qed.

Lemma add_NoDup e (s : list edge) : NoDup s -> NoDup (add e s).
Proof.
  intros N. unfold add, mem. destruct (in_dec string_dec e s) as [|Ni]; [exact N|].
  apply NoDup_app; [exact N | repeat constructor; intros [] |].
  intros x Ix [<-|[]]. contradiction.
Qed.

(** ** What one insertion writes, in any graph *)

Lemma updateStructureIndex_shape g e d g' :
  updateStructureIndex g e d = Ret g' ->
  let nodes := _nodes g in
  exists v0 sets0,
    ((look nodes (outKeyOf d) (source d) (show (target d)) = Some v0 /\ sets0 = sets g)
     \/ (look nodes (outKeyOf d) (source d) (show (target d)) = None
         /\ v0 = freshEntry g e
         /\ sets0 = if multi g then sets g ++ [[]] else sets g))
    /\ (multi g = true -> isShared v0 = true)
    /\ sets g' = (if multi g
                  then match v0 with
                       | Shared h => update_nth h (add e) sets0
                       | Single _ => sets0
                       end
                  else sets0)
    /\ get (source d) nodes <> None
    /\ ((source d = target d
         /\ _nodes g' = put nodes (outKeyOf d) (source d) (show (target d)) v0)
        \/ (source d <> target d
            /\ get (target d) nodes <> None
            /\ exists v1,
                 (look nodes (inKeyOf d) (target d) (show (source d)) = Some v1
                  \/ (look nodes (inKeyOf d) (target d) (show (source d)) = None /\ v1 = v0))
                 /\ _nodes g'
                    = put (put nodes (outKeyOf d) (source d) (show (target d)) v0)
                          (inKeyOf d) (target d) (show (source d)) v1)).
Proof.
  intros E. unfold updateStructureIndex in E.
  change (if undirected d then kUndirectedOut else kOut) with (outKeyOf d) in E.
  change (if undirected d then kUndirectedIn else kIn) with (inKeyOf d) in E.
  cbv zeta.
  destruct (get (source d) (_nodes g)) as [sd|] eqn:Gs; [|discriminate].
  set (b := orEmpty (getB (outKeyOf d) sd)) in *.
  assert (Lb : look (_nodes g) (outKeyOf d) (source d) (show (target d)) = get (show (target d)) b).
  { unfold look, b. rewrite Gs. destruct (getB (outKeyOf d) sd); reflexivity. }
  assert (exists v0 sets0,
             ((look (_nodes g) (outKeyOf d) (source d) (show (target d)) = Some v0
               /\ sets0 = sets g)
              \/ (look (_nodes g) (outKeyOf d) (source d) (show (target d)) = None
                  /\ v0 = freshEntry g e
                  /\ sets0 = if multi g then sets g ++ [[]] else sets g))
             /\ (if has (show (target d)) b then (b, sets g)
                 else if multi g
                      then (set (show (target d)) (Shared (List.length (sets g))) b,
                            sets g ++ [[]])
                      else (set (show (target d)) (Single e) b, sets g))
                = (set (show (target d)) v0 b, sets0)) as (v0 & sets0 & Hv0 & Hif).
  { unfold has, freshEntry. rewrite Lb. destruct (get (show (target d)) b) as [v|] eqn:Gt.
    - exists v, (sets g). rewrite (set_get_same _ _ Gt). auto.
    - destruct (multi g); eexists _, _; (split; [right; repeat split; reflexivity|]);
        reflexivity. }
  rewrite Hif in E. clear Hif.
  rewrite get_set_eq in E.
  assert (exists sets1,
             (if multi g
              then match v0 with
                   | Shared h => Ret (update_nth h (add e) sets0)
                   | Single _ => Throw TypeError
                   end
              else Ret sets0) = Ret sets1
             /\ (multi g = true -> isShared v0 = true)
             /\ sets1 = (if multi g
                         then match v0 with
                              | Shared h => update_nth h (add e) sets0
                              | Single _ => sets0
                              end
                         else sets0)) as (sets1 & Hs & Hsh & Hs1).
  { destruct (multi g); [destruct v0 as [x|h]; [simpl in E; discriminate|]|];
      (eexists; split; [reflexivity|]; split; [intros; try reflexivity; discriminate|];
       reflexivity). }
  rewrite Hs in E. cbn [bind] in E.
  assert (P1 : set (source d)
                   (setB (outKeyOf d) (Some (set (show (target d)) v0 b)) sd) (_nodes g)
               = put (_nodes g) (outKeyOf d) (source d) (show (target d)) v0).
  { unfold put. rewrite Gs. reflexivity. }
  rewrite P1 in E.
  exists v0, sets0. split; [exact Hv0|]. split; [exact Hsh|].
  assert (Es : sets g' = sets1).
  { destruct (eq_dec (source d) (target d)); [injection E as <-; reflexivity|].
    destruct (get (target d) _); [injection E as <-; reflexivity | discriminate]. }
  split; [congruence|]. split; [congruence|].
  destruct (eq_dec (source d) (target d)) as [Est|Nst].
  - left. injection E as <-. auto.
  - right. split; [exact Nst|].
    set (nodes1 := put (_nodes g) (outKeyOf d) (source d) (show (target d)) v0) in *.
    destruct (get (target d) nodes1) as [td|] eqn:Gt; [|discriminate].
    assert (Gt0 : get (target d) (_nodes g) <> None).
    { apply (get_put (_nodes g) (outKeyOf d) (source d) (show (target d)) v0).
      fold nodes1. congruence. }
    split; [exact Gt0|].
    set (tb := orEmpty (getB (inKeyOf d) td)) in *.
    assert (Ltb : look (_nodes g) (inKeyOf d) (target d) (show (source d))
                  = get (show (source d)) tb).
    { rewrite <- (@look_put_neq (_nodes g) (outKeyOf d) (source d) (show (target d)) v0
                                (inKeyOf d) (target d) (show (source d)))
        by (intros (_ & ? & _); contradiction).
      fold nodes1. unfold look, tb. rewrite Gt.
      destruct (getB (inKeyOf d) td); reflexivity. }
    injection E as <-. cbn [_nodes with_index].
    unfold has. rewrite Ltb.
    destruct (get (show (source d)) tb) as [v1|] eqn:G1.
    + exists v1. split; [auto|]. unfold put at 1. rewrite Gt. fold tb.
      rewrite (set_get_same _ _ G1). reflexivity.
    + exists v0. split; [auto|]. unfold put at 1. rewrite Gt. reflexivity.
Qed.

Lemma put_same nodes k s t v :
  look nodes k s t = Some v -> put nodes k s t v = nodes.
Proof.
  unfold look, put. destruct (get s nodes) as [d|] eqn:G; [|discriminate].
  destruct (getB k d) as [b|] eqn:B; [|discriminate]. intros Gt. simpl.
  rewrite (set_get_same _ _ Gt), <- B, setB_getB_same. apply set_get_same, G.
Qed.

(** Every entry of the index after one insertion. *)
Lemma updateStructureIndex_look g e d g' :
  updateStructureIndex g e d = Ret g' ->
  exists v0 v1,
    (look (_nodes g) (outKeyOf d) (source d) (show (target d)) = Some v0
     \/ (look (_nodes g) (outKeyOf d) (source d) (show (target d)) = None
         /\ v0 = freshEntry g e))
    /\ (look (_nodes g) (inKeyOf d) (target d) (show (source d)) = Some v1
        \/ (look (_nodes g) (inKeyOf d) (target d) (show (source d)) = None /\ v1 = v0))
    /\ (multi g = true -> isShared v0 = true)
    /\ forall k a b,
         look (_nodes g') k a b
         = if at_ (outKeyOf d) (source d) (show (target d)) k a b then Some v0
           else if eq_dec (source d) (target d) then look (_nodes g) k a b
                else if at_ (inKeyOf d) (target d) (show (source d)) k a b then Some v1
                     else look (_nodes g) k a b.
Proof.
  intros E. destruct (updateStructureIndex_shape _ _ _ E)
    as (v0 & sets0 & H0 & Sh & _ & Gs & [[Est N']|(Nst & Gt & v1 & H1 & N')]).
  - exists v0.
    exists (match look (_nodes g) (inKeyOf d) (target d) (show (source d)) with
            | Some v => v | None => v0 end).
    split; [destruct H0 as [[? _]|(? & ? & _)]; auto|].
    split; [destruct (look _ (inKeyOf d) _ _); auto|]. split; [exact Sh|].
    intros k a b. rewrite N', look_put by exact Gs.
    destruct (eq_dec (source d) (target d)); [reflexivity | contradiction].
  - exists v0, v1.
    split; [destruct H0 as [[? _]|(? & ? & _)]; auto|].
    split; [exact H1|]. split; [exact Sh|].
    intros k a b. rewrite N'.
    rewrite look_put by (apply get_put; exact Gt). rewrite look_put by exact Gs.
    destruct (eq_dec (source d) (target d)); [contradiction|].
    destruct (at_ (outKeyOf d) (source d) (show (target d)) k a b) eqn:A1;
      destruct (at_ (inKeyOf d) (target d) (show (source d)) k a b) eqn:A2; try reflexivity.
    apply at_true in A1 as (K1 & _). apply at_true in A2 as (K2 & _).
    exfalso. apply (@out_in_slots (undirected d) (undirected d)).
    unfold outKeyOf, inKeyOf in *. congruence.
Qed.

(** X1: one insertion leaves, in the out-side bucket of the source, an
    entry under the property name of the target: the one already there or
    else a new one (the edge itself in a simple graph, a new set in a
    multigraph); when source and target differ it leaves, in the in-side
    bucket of the target, an entry under the name of the source: the one
    already there or else the very entry of the source side; every other
    entry of every bucket, the node set, the canonical edges and the flags
    are as before. *)
Theorem insertion_writes_two_entries g e d g' :
  updateStructureIndex g e d = Ret g' ->
  let O := outKeyOf d in
  let I := inKeyOf d in
  let s := source d in
  let t := target d in
  (exists v, look (_nodes g') O s (show t) = Some v
             /\ (look (_nodes g) O s (show t) = Some v
                 \/ (look (_nodes g) O s (show t) = None /\ v = freshEntry g e)))
  /\ (s <> t ->
      exists v1, look (_nodes g') I t (show s) = Some v1
                 /\ (look (_nodes g) I t (show s) = Some v1
                     \/ (look (_nodes g) I t (show s) = None
                         /\ look (_nodes g') O s (show t) = Some v1)))
  /\ (forall k a b,
         ~ (k = O /\ a = s /\ b = show t) ->
         ~ (s <> t /\ k = I /\ a = t /\ b = show s) ->
         look (_nodes g') k a b = look (_nodes g) k a b)
  /\ keys (_nodes g') = keys (_nodes g)
  /\ _edges g' = _edges g /\ multi g' = multi g /\ map g' = map g
  /\ computed g' = computed g.
Proof.
  intros E O I s t.
  destruct (updateStructureIndex_look _ _ _ E) as (v0 & v1 & H0 & H1 & _ & L).
  fold O I s t in H0, H1, L.
  assert (LO : look (_nodes g') O s (show t) = Some v0).
  { rewrite L. replace (at_ O s (show t) O s (show t)) with true; [reflexivity|].
    symmetry. apply at_true. auto. }
  split; [exists v0; auto|]. split; [|split].
  - intros Nst. exists v1. split.
    + rewrite L. destruct (at_ O s (show t) I t (show s)) eqn:A.
      { apply at_true in A as (K & _). exfalso.
        apply (@out_in_slots (undirected d) (undirected d)). exact K. }
      destruct (eq_dec s t); [contradiction|].
      replace (at_ I t (show s) I t (show s)) with true; [reflexivity|].
      symmetry. apply at_true. auto.
    + destruct H1 as [H1|[H1 ->]]; auto.
  - intros k a b N1 N2. rewrite L.
    destruct (at_ O s (show t) k a b) eqn:A1.
    { apply at_true in A1 as (<- & <- & <-). exfalso. apply N1. auto. }
    destruct (eq_dec s t) as [|Nst]; [reflexivity|].
    destruct (at_ I t (show s) k a b) eqn:A2; [|reflexivity].
    apply at_true in A2 as (<- & <- & <-). exfalso. apply N2. auto.
  - destruct (updateStructureIndex_frame _ _ _ E) as (K & M & U & Ed & C). auto.
Qed.

Lemma insertion_writes_two_entries_witness :
  let g := mkGraph false true [(Str "A", noData); (Str "B", noData)]
                  [("ab"%string, directedAB)] [] true in
  let g' := simpleWithAB true in
  look (_nodes g') kOut (Str "A") "B" = Some (Single "ab")
  /\ look (_nodes g') kIn (Str "B") "A" = Some (Single "ab")
  /\ look (_nodes g') kIn (Str "A") "B" = look (_nodes g) kIn (Str "A") "B".
Proof.
  intros g g'.
  destruct (@insertion_writes_two_entries g "ab" directedAB g' eq_refl)
    as ((v & Lv & Hv) & H1 & F & _).
  split; [reflexivity|]. split; [reflexivity|].
  apply F; [intros (K & _); discriminate K | intros (_ & _ & K & _); discriminate K].
Defined.
(** ** When an insertion succeeds *)

(** X2: [updateStructureIndex] returns exactly when both endpoints are in
    the node store and, in a multigraph, the entry already under the
    target is not a bare edge identifier; otherwise it raises. *)
Theorem insertion_succeeds_iff g e d :
  (exists g', updateStructureIndex g e d = Ret g')
  <-> (hasNode g (source d) = true /\ hasNode g (target d) = true
       /\ (multi g = true ->
           forall x, look (_nodes g) (outKeyOf d) (source d) (show (target d))
                     <> Some (Single x))).
Proof.
  split.
  - intros [g' E].
    destruct (updateStructureIndex_shape _ _ _ E)
      as (v0 & sets0 & H0 & Sh & _ & Gs & H).
    split; [apply hasNode_get, Gs|]. split.
    + apply hasNode_get. destruct H as [[<- _]|(_ & Gt & _)]; assumption.
    + intros M x L. specialize (Sh M).
      destruct H0 as [[L0 _]|(L0 & _)]; [|congruence].
      rewrite L in L0. injection L0 as <-. discriminate.
  - intros (Hs & Ht & Hm). apply hasNode_get in Hs. apply hasNode_get in Ht.
    unfold updateStructureIndex.
    change (if undirected d then kUndirectedOut else kOut) with (outKeyOf d).
    change (if undirected d then kUndirectedIn else kIn) with (inKeyOf d).
    destruct (get (source d) (_nodes g)) as [sd|] eqn:Gs; [|congruence].
    set (b := orEmpty (getB (outKeyOf d) sd)).
    assert (Lb : look (_nodes g) (outKeyOf d) (source d) (show (target d)) = get (show (target d)) b).
    { unfold look, b. rewrite Gs. destruct (getB (outKeyOf d) sd); reflexivity. }
    assert (exists b' sets0 sets1,
               (if has (show (target d)) b then (b, sets g)
                else if multi g
                     then (set (show (target d)) (Shared (List.length (sets g))) b,
                           sets g ++ [[]])
                     else (set (show (target d)) (Single e) b, sets g)) = (b', sets0)
               /\ (if multi g
                   then match get (show (target d)) b' with
                        | Some (Shared h) => Ret (update_nth h (add e) sets0)
                        | _ => Throw TypeError
                        end
                   else Ret sets0) = Ret sets1) as (b' & sets0 & sets1 & -> & Hs1).
    { unfold has. destruct (get (show (target d)) b) as [v|] eqn:Gt.
      - exists b, (sets g). rewrite Gt. destruct (multi g); [|eauto].
        destruct v as [x|h]; [|eauto].
        exfalso. apply (Hm eq_refl x). exact Lb.
      - destruct (multi g); eexists _, _, _; (split; [reflexivity|]);
          rewrite ?get_set_eq; reflexivity. }
    cbv beta iota. rewrite Hs1. cbn [bind].
    destruct (eq_dec (source d) (target d)); [eauto|].
    destruct (get (target d) (set (source d) _ (_nodes g))) eqn:Gt; [eauto|].
    rewrite get_set_neq in Gt by assumption. congruence.
Qed.

Lemma insertion_succeeds_iff_witness :
  updateStructureIndex (simpleAB true) "ab" (mkEdgeData (Str "A") (Str "X") false)
  = Throw TypeError
  /\ exists g', updateStructureIndex (simpleAB true) "ab" directedAB = Ret g'.
Proof.
  split; [reflexivity|].
  apply (proj2 (insertion_succeeds_iff (simpleAB true) "ab" directedAB)).
  repeat split; try reflexivity. intros M; discriminate M.
Defined.

(** X3: inserting an edge that was just inserted changes nothing, in a
    simple graph and in a multigraph: the second call returns the graph the
    first one left. *)
Theorem insertion_is_idempotent g e d g' :
  updateStructureIndex g e d = Ret g' -> updateStructureIndex g' e d = Ret g'.
Proof.
  intros E.
  destruct (updateStructureIndex_look _ _ _ E) as (v0 & v1 & H0 & H1 & Sh & L).
  destruct (updateStructureIndex_shape _ _ _ E)
    as (w0 & sets0 & W0 & _ & Es & Gs & Hn).
  destruct (updateStructureIndex_frame _ _ _ E) as (K & Mp & Mu & Ed & Cp).
  assert (LO : look (_nodes g') (outKeyOf d) (source d) (show (target d)) = Some v0).
  { rewrite L. replace (at_ (outKeyOf d) (source d) (show (target d))
                            (outKeyOf d) (source d) (show (target d))) with true;
      [reflexivity|]. symmetry. apply at_true. auto. }
  assert (W : w0 = v0).
  { destruct H0 as [H0|[H0 ->]], W0 as [[W0 _]|(W0 & -> & _)]; congruence. }
  subst w0.
  assert (S2 : exists g2, updateStructureIndex g' e d = Ret g2).
  { apply insertion_succeeds_iff.
    destruct (proj1 (insertion_succeeds_iff g e d) (ex_intro _ g' E)) as (Hs & Ht & _).
    rewrite !(hasNode_keys _ _ _ K). split; [exact Hs|]. split; [exact Ht|].
    rewrite Mu. intros M x. rewrite LO. intros [= ->]. specialize (Sh M). discriminate. }
  destruct S2 as [g2 E2]. rewrite E2. f_equal.
  destruct (updateStructureIndex_shape _ _ _ E2)
    as (u0 & sets2 & U0 & _ & Es2 & _ & Hn2).
  destruct (updateStructureIndex_frame _ _ _ E2) as (K2 & Mp2 & Mu2 & Ed2 & Cp2).
  cbv zeta in U0, Hn2.
  destruct U0 as [[U0 ->]|(U0 & _)]; [|congruence].
  rewrite LO in U0. injection U0 as <-.
  apply Graph_fields; try congruence.
  - destruct Hn2 as [[Est ->]|(Nst & _ & u1 & U1 & ->)].
    + apply put_same, LO.
    + rewrite (put_same _ _ _ _ LO).
      assert (LI : look (_nodes g') (inKeyOf d) (target d) (show (source d)) = Some v1).
      { rewrite L. destruct (at_ (outKeyOf d) _ _ (inKeyOf d) _ _) eqn:A.
        { apply at_true in A as (A & _). exfalso.
          apply (@out_in_slots (undirected d) (undirected d)). exact A. }
        destruct (eq_dec (source d) (target d)); [contradiction|].
        replace (at_ (inKeyOf d) (target d) (show (source d))
                     (inKeyOf d) (target d) (show (source d))) with true; [reflexivity|].
        symmetry. apply at_true. auto. }
      destruct U1 as [U1|[U1 _]]; [|congruence].
      rewrite LI in U1. injection U1 as <-. apply put_same, LI.
  - rewrite Es2, Mu. destruct (multi g); [|reflexivity].
    destruct v0 as [x|h]; [reflexivity|].
    rewrite Es. apply update_nth_twice. intros x. apply add_present, add_In.
Qed.

Lemma insertion_is_idempotent_witness :
  updateStructureIndex multiAB "ab" directedAB = Ret multiAB.
Proof.
  apply (@insertion_is_idempotent
           (mkGraph true true [(Str "A", noData); (Str "B", noData)]
                    [("ab"%string, directedAB)] [] true)).
  reflexivity.
Defined.

Lemma look_bucketAt nodes k s t v : look nodes k s t = Some v -> bucketAt nodes k s <> None.
Proof.
  unfold look, bucketAt. destruct (get s nodes) as [d|]; [|discriminate].
  destruct (getB k d); congruence.
Qed.

(** What an insertion that returns leaves at the two ends. *)
Lemma updateStructureIndex_buckets g e d g' :
  updateStructureIndex g e d = Ret g' ->
  hasNode g' (source d) = true /\ hasNode g' (target d) = true
  /\ bucketAt (_nodes g') (outKeyOf d) (source d) <> None
  /\ (source d <> target d -> bucketAt (_nodes g') (inKeyOf d) (target d) <> None).
Proof.
  intros E.
  destruct (updateStructureIndex_frame _ _ _ E) as (Ks & _).
  destruct (updateStructureIndex_look _ _ _ E) as (v0 & v1 & _ & _ & _ & L).
  destruct (updateStructureIndex_shape _ _ _ E) as (w0 & ws & _ & _ & _ & Gs & Sh).
  assert (Hs : hasNode g' (source d) = true).
  { rewrite (hasNode_keys _ _ _ Ks). apply hasNode_get, Gs. }
  split; [exact Hs|]. split; [|split].
  - destruct Sh as [[<- _]|(_ & Gt & _)]; [exact Hs|].
    rewrite (hasNode_keys _ _ _ Ks). apply hasNode_get, Gt.
  - apply (@look_bucketAt _ _ _ (show (target d)) v0). rewrite L.
    replace (at_ (outKeyOf d) (source d) (show (target d))
                 (outKeyOf d) (source d) (show (target d))) with true
      by (symmetry; apply at_true; auto).
    reflexivity.
  - intros Nst. apply (@look_bucketAt _ _ _ (show (source d)) v1). rewrite L.
    destruct (at_ (outKeyOf d) _ _ (inKeyOf d) (target d) (show (source d))) eqn:A.
    { apply at_true in A as (A & _). exfalso.
      exact (out_in_slots (undirected d) (undirected d) A). }
    destruct (eq_dec (source d) (target d)); [contradiction|].
    replace (at_ (inKeyOf d) (target d) (show (source d))
                 (inKeyOf d) (target d) (show (source d))) with true
      by (symmetry; apply at_true; auto).
    reflexivity.
Qed.

(** ** What one removal does in a simple graph *)

Lemma clearEdgeFromStructureIndex_simple g e d g' :
  multi g = false -> clearEdgeFromStructureIndex g e d = Ret g' ->
  _nodes g'
  = drop (drop (_nodes g) (outKeyOf d) (source d) (show (target d)))
         (inKeyOf d) (target d) (show (source d))
  /\ sets g' = sets g /\ _edges g' = _edges g /\ multi g' = multi g
  /\ map g' = map g /\ computed g' = computed g.
Proof.
  intros M E. unfold clearEdgeFromStructureIndex in E. rewrite M in E.
  change (if undirected d then kUndirectedOut else kOut) with (outKeyOf d) in E.
  change (if undirected d then kUndirectedIn else kIn) with (inKeyOf d) in E.
  destruct (get (source d) (_nodes g)) as [sd|] eqn:Gs; [|discriminate].
  destruct (getB (outKeyOf d) sd) as [b|] eqn:B; [|discriminate].
  assert (R : (match get (show (target d)) b with
               | Some _ => Ret (del (show (target d)) b, sets g)
               | None => Ret (b, sets g)
               end) = Ret (del (show (target d)) b, sets g)).
  { destruct (get (show (target d)) b) eqn:Gt; [reflexivity|].
    rewrite (del_absent _ _ Gt). reflexivity. }
  rewrite R in E. cbn [bind] in E.
  assert (D1 : set (source d) (setB (outKeyOf d) (Some (del (show (target d)) b)) sd) (_nodes g)
               = drop (_nodes g) (outKeyOf d) (source d) (show (target d))).
  { unfold drop. rewrite Gs, B. reflexivity. }
  rewrite D1 in E.
  set (nodes1 := drop (_nodes g) (outKeyOf d) (source d) (show (target d))) in *.
  destruct (get (target d) nodes1) as [td|] eqn:Gt; [|discriminate].
  destruct (getB (inKeyOf d) td) as [tb|] eqn:Bt; [|discriminate].
  injection E as <-. simpl. repeat split; auto.
  unfold drop. rewrite Gt, Bt. reflexivity.
Qed.

(** X4: in a simple graph, once a removal returns, the source has no out
    entry for the target and the target no in entry for the source,
    whichever edge identifier was passed; every other entry, the sets, the
    node set and the canonical edges are as before. *)
Theorem simple_removal_deletes_both_entries g e d g' :
  multi g = false -> keyedOnce (_nodes g) ->
  clearEdgeFromStructureIndex g e d = Ret g' ->
  look (_nodes g') (outKeyOf d) (source d) (show (target d)) = None
  /\ look (_nodes g') (inKeyOf d) (target d) (show (source d)) = None
  /\ (forall k a b,
         ~ (k = outKeyOf d /\ a = source d /\ b = show (target d)) ->
         ~ (k = inKeyOf d /\ a = target d /\ b = show (source d)) ->
         look (_nodes g') k a b = look (_nodes g) k a b)
  /\ keys (_nodes g') = keys (_nodes g)
  /\ sets g' = sets g /\ _edges g' = _edges g.
Proof.
  intros M Ko E.
  destruct (@clearEdgeFromStructureIndex_simple g e d g' M E) as (N & S & Ed & _).
  assert (L : forall k a b,
             look (_nodes g') k a b
             = if at_ (inKeyOf d) (target d) (show (source d)) k a b then None
               else if at_ (outKeyOf d) (source d) (show (target d)) k a b then None
                    else look (_nodes g) k a b).
  { intros. rewrite N, look_drop by (apply keyedOnce_drop, Ko).
    rewrite look_drop by exact Ko. reflexivity. }
  split; [|split; [|split; [|split]]]; auto.
  - rewrite L. destruct (at_ (inKeyOf d) _ _ _ _ _); [reflexivity|].
    replace (at_ (outKeyOf d) (source d) (show (target d)) (outKeyOf d) (source d) (show (target d)))
      with true by (symmetry; apply at_true; auto). reflexivity.
  - rewrite L.
    replace (at_ (inKeyOf d) (target d) (show (source d)) (inKeyOf d) (target d) (show (source d)))
      with true by (symmetry; apply at_true; auto). reflexivity.
  - intros k a b N1 N2. rewrite L.
    replace (at_ (inKeyOf d) (target d) (show (source d)) k a b) with false
      by (symmetry; apply at_false; intros (<- & <- & <-); apply N2; auto).
    replace (at_ (outKeyOf d) (source d) (show (target d)) k a b) with false
      by (symmetry; apply at_false; intros (<- & <- & <-); apply N1; auto).
    reflexivity.
  - rewrite N, !keys_drop. reflexivity.
Qed.

Lemma simple_removal_deletes_both_entries_witness :
  exists g',
    clearEdgeFromStructureIndex (simpleWithAB true) "other" directedAB = Ret g'
    /\ look (_nodes g') kOut (Str "A") "B" = None
    /\ look (_nodes g') kIn (Str "B") "A" = None.
Proof.
  eexists. split; [reflexivity|].
  assert (Ko : keyedOnce (_nodes (simpleWithAB true))).
  { intros n d I k b B.
    destruct I as [[= <- <-]|[[= <- <-]|[]]]; destruct k; simpl in B;
      try discriminate; injection B as <-; repeat constructor; simpl; tauto. }
  destruct (@simple_removal_deletes_both_entries
              (simpleWithAB true) "other" directedAB _ eq_refl Ko eq_refl)
    as (L1 & L2 & _).
  split; [exact L1 | exact L2].
Defined.

(** ** When a removal succeeds *)

(** X5: [clearEdgeFromStructureIndex] returns exactly when the source has
    an out-side bucket and, in a simple graph, the target has an in-side
    bucket (in a multigraph: the entry under the target, if any, is a
    set); otherwise it raises.  So removing an edge from a node that was
    never indexed raises. *)
Theorem removal_succeeds_iff g e d :
  (exists g', clearEdgeFromStructureIndex g e d = Ret g')
  <-> (bucketAt (_nodes g) (outKeyOf d) (source d) <> None
       /\ if multi g
          then forall x, look (_nodes g) (outKeyOf d) (source d) (show (target d))
                         <> Some (Single x)
          else bucketAt (_nodes g) (inKeyOf d) (target d) <> None).
Proof.
  unfold clearEdgeFromStructureIndex, bucketAt, look.
  change (if undirected d then kUndirectedOut else kOut) with (outKeyOf d).
  change (if undirected d then kUndirectedIn else kIn) with (inKeyOf d).
  destruct (get (source d) (_nodes g)) as [sd|] eqn:Gs;
    [|split; [intros [? ?]; discriminate | intros [? _]; congruence]].
  destruct (getB (outKeyOf d) sd) as [b|] eqn:B;
    [|split; [intros [? ?]; discriminate | intros [? _]; congruence]].
  destruct (multi g) eqn:M.
  - destruct (get (show (target d)) b) as [[x|h]|]; cbn [bind].
    + split; [intros [? ?]; discriminate | intros [_ N]; exfalso; apply (N x); reflexivity].
    + split; [intros _; split; [discriminate | intros; discriminate] | eauto].
    + split; [intros _; split; [discriminate | intros; discriminate] | eauto].
  - assert (R : (match get (show (target d)) b with
                 | Some _ => Ret (del (show (target d)) b, sets g)
                 | None => Ret (b, sets g)
                 end) = Ret (del (show (target d)) b, sets g)).
    { destruct (get (show (target d)) b) eqn:Gt; [reflexivity|].
      rewrite (del_absent _ _ Gt). reflexivity. }
    rewrite R. cbn [bind].
    assert (D1 : set (source d) (setB (outKeyOf d) (Some (del (show (target d)) b)) sd)
                     (_nodes g)
                 = drop (_nodes g) (outKeyOf d) (source d) (show (target d))).
    { unfold drop. rewrite Gs, B. reflexivity. }
    rewrite D1.
    pose proof (bucketAt_drop (_nodes g) (outKeyOf d) (source d) (show (target d))
                              (inKeyOf d) (target d)) as P.
    unfold bucketAt in P.
    destruct (get (target d) (drop _ _ _ _)) as [td|].
    + destruct (getB (inKeyOf d) td) as [tb|].
      * split; [intros _; split; [discriminate|] | eauto].
        intros Q. apply P in Q. discriminate.
      * split; [intros [? ?]; discriminate|].
        intros [_ Q]. exfalso. apply Q, P. reflexivity.
    + split; [intros [? ?]; discriminate|].
      intros [_ Q]. exfalso. apply Q, P. reflexivity.
Qed.

Lemma removal_succeeds_iff_witness :
  clearEdgeFromStructureIndex (simpleAB true) "ab" directedAB = Throw TypeError
  /\ exists g', clearEdgeFromStructureIndex (simpleWithAB true) "ab" directedAB = Ret g'.
Proof.
  split; [reflexivity|].
  apply (proj2 (removal_succeeds_iff (simpleWithAB true) "ab" directedAB)).
  split; discriminate.
Defined.

(** ** What every call sequence keeps, in a simple graph and in a multigraph *)

Lemma keyedOnce_unindexed g : unindexed g = true -> keyedOnce (_nodes g).
Proof.
  intros U n d I k b B. unfold unindexed in U. rewrite forallb_forall in U.
  specialize (U _ I). cbv beta iota in U.
  destruct d as [[?|] [?|] [?|] [?|]]; simpl in U; try discriminate.
  destruct k; discriminate.
Qed.

Lemma keyedOnce_cleared (nodes : list (node * NodeData)) :
  keyedOnce (List.map (fun '(n, _) => (n, noData)) nodes).
Proof.
  intros n d I k b B. apply in_map_iff in I as [[n' d'] [[= <- <-] _]].
  destruct k; discriminate.
Qed.

Lemma updateStructureIndex_keyedOnce g e d g' :
  updateStructureIndex g e d = Ret g' -> keyedOnce (_nodes g) -> keyedOnce (_nodes g').
Proof.
  intros E Ko.
  destruct (updateStructureIndex_shape _ _ _ E)
    as (w0 & sets0 & _ & _ & _ & _ & [[_ ->]|(_ & _ & w1 & _ & ->)]);
    repeat apply keyedOnce_put; exact Ko.
Qed.

Lemma clearEdgeFromStructureIndex_keyedOnce g e d g' :
  clearEdgeFromStructureIndex g e d = Ret g' -> keyedOnce (_nodes g) ->
  keyedOnce (_nodes g').
Proof.
  intros E Ko. destruct (multi g) eqn:M.
  - destruct (@clearEdgeFromStructureIndex_multi g e d g' M E) as [-> _]. exact Ko.
  - destruct (@clearEdgeFromStructureIndex_simple g e d g' M E) as (N & _).
    rewrite N. repeat apply keyedOnce_drop. exact Ko.
Qed.

(** The entries of a simple graph after a removal. *)
Lemma clearEdgeFromStructureIndex_look g e d g' :
  multi g = false -> keyedOnce (_nodes g) ->
  clearEdgeFromStructureIndex g e d = Ret g' ->
  forall k a b,
    look (_nodes g') k a b
    = if at_ (inKeyOf d) (target d) (show (source d)) k a b then None
      else if at_ (outKeyOf d) (source d) (show (target d)) k a b then None
           else look (_nodes g) k a b.
Proof.
  intros M Ko E k a b.
  destruct (@clearEdgeFromStructureIndex_simple g e d g' M E) as (N & _).
  rewrite N, look_drop by (apply keyedOnce_drop, Ko).
  rewrite look_drop by exact Ko. reflexivity.
Qed.

(** A removal that returns found both ends in the node store. *)
Lemma clearEdgeFromStructureIndex_ends g e d g' :
  multi g = false -> clearEdgeFromStructureIndex g e d = Ret g' ->
  In (source d) (keys (_nodes g)) /\ In (target d) (keys (_nodes g)).
Proof.
  intros M E.
  destruct (clearEdgeFromStructureIndex_frame _ _ _ E) as (Ks & _).
  unfold clearEdgeFromStructureIndex in E. rewrite M in E.
  destruct (get (source d) (_nodes g)) as [sd|] eqn:Gs; [|discriminate].
  split.
  - apply hasNode_In. unfold hasNode. eapply get_Some_has; eauto.
  - destruct (getB _ sd) as [b|]; [|discriminate].
    destruct (get (show (target d)) b) as [v|]; cbn [bind] in E.
    + destruct (get (target d) _) as [td|] eqn:Gt in E; [|discriminate].
      destruct (eq_dec (source d) (target d)) as [Q|Q].
      * rewrite <- Q. apply hasNode_In. unfold hasNode. eapply get_Some_has; eauto.
      * rewrite get_set_neq in Gt by congruence.
        apply hasNode_In. unfold hasNode. eapply get_Some_has; eauto.
    + destruct (get (target d) _) as [td|] eqn:Gt in E; [|discriminate].
      destruct (eq_dec (source d) (target d)) as [Q|Q].
      * rewrite <- Q. apply hasNode_In. unfold hasNode. eapply get_Some_has; eauto.
      * rewrite get_set_neq in Gt by congruence.
        apply hasNode_In. unfold hasNode. eapply get_Some_has; eauto.
Qed.

(** *** Nodes of distinct names *)

Lemma unique_inj (l : list value) a b :
  unique (List.map show l) = true -> In a l -> In b l -> show a = show b -> a = b.
Proof.
  induction l as [|x r IH]; simpl; [tauto|].
  intros U Ia Ib Q. apply andb_true_iff in U as [Nx Ur].
  assert (F : forall y, In y r -> show y <> show x).
  { intros y Iy Qy. unfold mem in Nx.
    destruct (in_dec string_dec (show x) (List.map show r)) as [_|N];
      [discriminate|]. apply N. rewrite <- Qy. apply in_map, Iy. }
  destruct Ia as [<-|Ia], Ib as [<-|Ib]; auto.
  - exfalso. apply (F _ Ib). auto.
  - exfalso. apply (F _ Ia). auto.
Qed.

Lemma uniqueNames_inj nodes a b :
  uniqueNames nodes = true -> In a (keys nodes) -> In b (keys nodes) ->
  show a = show b -> a = b.
Proof. apply unique_inj. Qed.

Lemma uniqueNames_keys (nodes nodes' : list (node * NodeData)) :
  keys nodes' = keys nodes -> uniqueNames nodes' = uniqueNames nodes.
Proof. unfold uniqueNames. intros ->. reflexivity. Qed.

Lemma tidy_unindexed g : unindexed g = true -> tidy (_nodes g).
Proof.
  intros U. split.
  - intros u s t _ _ _. rewrite !(unindexed_look _ _ _ _ U). reflexivity.
  - intros u s _. apply unindexed_look, U.
Qed.

Lemma tidy_cleared (nodes : list (node * NodeData)) :
  tidy (List.map (fun '(n, _) => (n, noData)) nodes).
Proof.
  split.
  - intros u s t _ _ _. rewrite !look_cleared. reflexivity.
  - intros u s _. apply look_cleared.
Qed.

Lemma updateStructureIndex_tidy g e d g' :
  updateStructureIndex g e d = Ret g' -> uniqueNames (_nodes g) = true ->
  tidy (_nodes g) -> tidy (_nodes g').
Proof.
  intros E Un [Mi Nl].
  destruct (updateStructureIndex_frame _ _ _ E) as (Ks & _).
  destruct (updateStructureIndex_look _ _ _ E) as (v0 & v1 & H0 & H1 & _ & L).
  destruct (updateStructureIndex_shape _ _ _ E) as (w0 & ws & _ & _ & _ & Gs & Sh).
  assert (Is : In (source d) (keys (_nodes g))) by (apply hasNode_In, hasNode_get, Gs).
  assert (It : In (target d) (keys (_nodes g))).
  { destruct Sh as [[<- _]|(_ & Gt & _)]; [exact Is|].
    apply hasNode_In, hasNode_get, Gt. }
  assert (E01 : source d <> target d -> v1 = v0).
  { intros Nst. pose proof (Mi (undirected d) _ _ Is It Nst) as M.
    fold (outKeyOf d) in M. fold (inKeyOf d) in M.
    destruct H0 as [H0|[H0 _]], H1 as [H1|[H1 ?]]; congruence. }
  split.
  - intros u a b Ia Ib Nab. rewrite Ks in Ia, Ib. rewrite !L.
    destruct (at_ (outKeyOf d) (source d) (show (target d)) (inSlot u) b (show a)) eqn:A1.
    { apply at_true in A1 as (A & _). exfalso. exact (out_in_slots (undirected d) u A). }
    destruct (at_ (inKeyOf d) (target d) (show (source d)) (outSlot u) a (show b)) eqn:A2.
    { apply at_true in A2 as (A & _). exfalso. symmetry in A.
      exact (out_in_slots u (undirected d) A). }
    destruct (at_ (outKeyOf d) (source d) (show (target d)) (outSlot u) a (show b)) eqn:A3.
    + apply at_true in A3 as (A & <- & Q). apply outSlot_inj in A as <-.
      apply (uniqueNames_inj _ _ _ Un It Ib) in Q. subst b.
      destruct (eq_dec (source d) (target d)); [contradiction|].
      replace (at_ (inKeyOf d) (target d) (show (source d))
                   (inSlot (undirected d)) (target d) (show (source d))) with true
        by (symmetry; apply at_true; auto).
      rewrite E01; auto.
    + destruct (eq_dec (source d) (target d)); [apply Mi; auto|].
      destruct (at_ (inKeyOf d) (target d) (show (source d)) (inSlot u) b (show a)) eqn:A4;
        [|apply Mi; auto].
      apply at_true in A4 as (A & <- & Q). apply inSlot_inj in A as <-.
      apply (uniqueNames_inj _ _ _ Un Is Ia) in Q. subst a.
      apply at_false in A3. exfalso. apply A3. auto.
  - intros u a Ia. rewrite Ks in Ia. rewrite L.
    destruct (at_ (outKeyOf d) (source d) (show (target d)) (inSlot u) a (show a)) eqn:A1.
    { apply at_true in A1 as (A & _). exfalso. exact (out_in_slots (undirected d) u A). }
    destruct (eq_dec (source d) (target d)); [apply Nl, Ia|].
    destruct (at_ (inKeyOf d) (target d) (show (source d)) (inSlot u) a (show a)) eqn:A2;
      [|apply Nl, Ia].
    apply at_true in A2 as (_ & <- & Q).
    apply (uniqueNames_inj _ _ _ Un Is It) in Q. contradiction.
Qed.

Lemma clearEdgeFromStructureIndex_tidy g e d g' :
  clearEdgeFromStructureIndex g e d = Ret g' -> uniqueNames (_nodes g) = true ->
  keyedOnce (_nodes g) -> tidy (_nodes g) -> tidy (_nodes g').
Proof.
  intros E Un Ko T. destruct (multi g) eqn:M.
  - destruct (@clearEdgeFromStructureIndex_multi g e d g' M E) as [-> _]. exact T.
  - destruct T as [Mi Nl].
    destruct (clearEdgeFromStructureIndex_frame _ _ _ E) as (Ks & _).
    destruct (@clearEdgeFromStructureIndex_ends g e d g' M E) as [Is It].
    pose proof (@clearEdgeFromStructureIndex_look g e d g' M Ko E) as L.
    split.
    + intros u a b Ia Ib Nab. rewrite Ks in Ia, Ib. rewrite !L.
      destruct (at_ (inKeyOf d) (target d) (show (source d)) (outSlot u) a (show b)) eqn:A1.
      { apply at_true in A1 as (A & _). exfalso. symmetry in A.
        exact (out_in_slots u (undirected d) A). }
      destruct (at_ (outKeyOf d) (source d) (show (target d)) (inSlot u) b (show a)) eqn:A2.
      { apply at_true in A2 as (A & _). exfalso. exact (out_in_slots (undirected d) u A). }
      destruct (at_ (outKeyOf d) (source d) (show (target d)) (outSlot u) a (show b)) eqn:A3.
      * apply at_true in A3 as (A & <- & Q). apply outSlot_inj in A as <-.
        apply (uniqueNames_inj _ _ _ Un It Ib) in Q. subst b.
        replace (at_ (inKeyOf d) (target d) (show (source d))
                     (inSlot (undirected d)) (target d) (show (source d))) with true
          by (symmetry; apply at_true; auto).
        reflexivity.
      * destruct (at_ (inKeyOf d) (target d) (show (source d)) (inSlot u) b (show a)) eqn:A4;
          [|apply Mi; auto].
        apply at_true in A4 as (A & <- & Q). apply inSlot_inj in A as <-.
        apply (uniqueNames_inj _ _ _ Un Is Ia) in Q. subst a.
        apply at_false in A3. exfalso. apply A3. auto.
    + intros u a Ia. rewrite Ks in Ia. rewrite L.
      destruct (at_ (inKeyOf d) (target d) (show (source d)) (inSlot u) a (show a));
        [reflexivity|].
      destruct (at_ (outKeyOf d) (source d) (show (target d)) (inSlot u) a (show a));
        [reflexivity|].
      apply Nl, Ia.
Qed.

Lemma updateStructureIndex_neat g e d g' :
  updateStructureIndex g e d = Ret g' -> neat g -> neat g'.
Proof.
  intros E (Un & Ko & T).
  destruct (updateStructureIndex_frame _ _ _ E) as (Ks & _).
  split; [rewrite (uniqueNames_keys _ _ Ks); exact Un|].
  split; [eapply updateStructureIndex_keyedOnce | eapply updateStructureIndex_tidy];
    eauto.
Qed.

Lemma clearEdgeFromStructureIndex_neat g e d g' :
  clearEdgeFromStructureIndex g e d = Ret g' -> neat g -> neat g'.
Proof.
  intros E (Un & Ko & T).
  destruct (clearEdgeFromStructureIndex_frame _ _ _ E) as (Ks & _).
  split; [rewrite (uniqueNames_keys _ _ Ks); exact Un|].
  split; [eapply clearEdgeFromStructureIndex_keyedOnce
         | eapply clearEdgeFromStructureIndex_tidy]; eauto.
Qed.

Lemma computeIndex_neat g g' : computeIndex g = Ret g' -> neat g -> neat g'.
Proof.
  unfold computeIndex. destruct (computed g); [intros [= <-]; auto|].
  intros E S.
  assert (F : forall g1,
             fold_left
               (fun acc '(edge, data) => g <- acc ;; updateStructureIndex g edge data)
               (_edges g) (Ret g) = Ret g1 -> neat g1).
  { apply (fold_left_preserves (fun c => forall g1, c = Ret g1 -> neat g1)).
    - intros g1 [= <-]. exact S.
    - intros c [e d] Hc g1 E1. destruct c as [g0|]; [|discriminate].
      exact (@updateStructureIndex_neat g0 e d g1 E1 (Hc g0 eq_refl)). }
  destruct (fold_left _ _ _) as [g1|]; [|discriminate].
  injection E as <-. exact (F g1 eq_refl).
Qed.

Lemma step_neat g c g' : step g c = Ret g' -> neat g -> neat g'.
Proof.
  destruct c as [e d|e|e d|e d| |]; simpl; intros E S.
  - eapply updateStructureIndex_neat; [exact E|]. exact S.
  - unfold dropEdge in E. destruct (get e (_edges g)) as [d|]; [|congruence].
    eapply clearEdgeFromStructureIndex_neat; [exact E|]. exact S.
  - eapply updateStructureIndex_neat; eauto.
  - eapply clearEdgeFromStructureIndex_neat; eauto.
  - eapply computeIndex_neat; eauto.
  - injection E as <-. destruct S as (Un & _ & _). split.
    + rewrite (uniqueNames_keys _ _ (@step_keys g ClearIndex _ eq_refl)). exact Un.
    + split; [apply keyedOnce_cleared | apply tidy_cleared].
Qed.

Lemma run_neat cs g g' : run cs g = Ret g' -> neat g -> neat g'.
Proof.
  revert g. induction cs as [|c cs IH]; intros g E S; simpl in E.
  - congruence.
  - destruct (step g c) as [g1|] eqn:St; [|discriminate].
    exact (IH g1 E (@step_neat g c g1 St S)).
Qed.

Lemma neat_unindexed g :
  unindexed g = true -> uniqueNames (_nodes g) = true -> neat g.
Proof.
  intros U Un. split; [exact Un|].
  split; [apply keyedOnce_unindexed | apply tidy_unindexed]; exact U.
Qed.

(** X6: in a simple graph as in a multigraph, for directed and for
    undirected edges, after any sequence of insertions, removals, builds
    and clears from an empty index whose nodes are converted to distinct
    property names: between two different nodes [s] and [t], the out entry
    of [s] under the name of [t] is the in entry of [t] under the name of
    [s], and no in-side bucket holds a node under its own name (a
    self-loop is never mirrored). *)
Theorem entries_mirrored_between_nodes g0 cs g :
  unindexed g0 = true -> uniqueNames (_nodes g0) = true -> run cs g0 = Ret g ->
  (forall u s t, hasNode g s = true -> hasNode g t = true -> s <> t ->
                 look (_nodes g) (outSlot u) s (show t)
                 = look (_nodes g) (inSlot u) t (show s))
  /\ (forall u s, hasNode g s = true -> look (_nodes g) (inSlot u) s (show s) = None).
Proof.
  intros U Un R.
  destruct (@run_neat cs g0 g R (neat_unindexed _ U Un)) as (_ & _ & [Mi Nl]).
  split.
  - intros u s t Hs Ht. apply Mi; apply hasNode_In; assumption.
  - intros u s Hs. apply Nl, hasNode_In, Hs.
Qed.

Lemma entries_mirrored_between_nodes_witness :
  let g0 := mkGraph false true [(Str "A", noData); (Str "B", noData)] [] [] false in
  let g := after [AddEdge "ab" (mkEdgeData (Str "A") (Str "B") true);
                  AddEdge "aa" (mkEdgeData (Str "A") (Str "A") true);
                  ComputeIndex] g0 in
  look (_nodes g) kUndirectedOut (Str "A") "B" = Some (Single "ab")
  /\ look (_nodes g) kUndirectedOut (Str "A") "B"
     = look (_nodes g) kUndirectedIn (Str "B") "A"
  /\ look (_nodes g) kUndirectedIn (Str "A") "A" = None.
Proof.
  intros g0 g. split; [reflexivity|].
  destruct (@entries_mirrored_between_nodes g0
              [AddEdge "ab" (mkEdgeData (Str "A") (Str "B") true);
               AddEdge "aa" (mkEdgeData (Str "A") (Str "A") true);
               ComputeIndex] g eq_refl eq_refl eq_refl) as [Mi Nl].
  split.
  - apply (Mi true (Str "A") (Str "B")); [reflexivity | reflexivity | discriminate].
  - apply (Nl true (Str "A")). reflexivity.
Defined.

(** ** The store of sets *)

(** What [updateStructureIndex] does to the sets of a multigraph. *)
Lemma updateStructureIndex_members g e d g' :
  multi g = true -> updateStructureIndex g e d = Ret g' ->
  (forall h, look (_nodes g) (outKeyOf d) (source d) (show (target d)) = Some (Shared h) ->
             h < List.length (sets g)) ->
  exists h,
    look (_nodes g') (outKeyOf d) (source d) (show (target d)) = Some (Shared h)
    /\ h < List.length (sets g')
    /\ List.length (sets g) <= List.length (sets g')
    /\ members (sets g') h = add e (members (sets g) h)
    /\ forall h', h' <> h -> members (sets g') h' = members (sets g) h'.
Proof.
  intros M E V.
  destruct (updateStructureIndex_shape _ _ _ E) as (v0 & sets0 & H0 & Sh & Es & _).
  destruct (updateStructureIndex_look _ _ _ E) as (w0 & w1 & W0 & _ & _ & L).
  assert (W : w0 = v0).
  { destruct H0 as [[H0 _]|(H0 & -> & _)], W0 as [W0|[W0 ->]]; congruence. }
  subst w0. rewrite M in Es. specialize (Sh M).
  destruct v0 as [x|h]; [discriminate|]. exists h.
  split.
  { rewrite L. replace (at_ (outKeyOf d) (source d) (show (target d))
                            (outKeyOf d) (source d) (show (target d))) with true;
      [reflexivity|]. symmetry. apply at_true. auto. }
  rewrite Es, length_update_nth.
  destruct H0 as [[H0 ->]|(H0 & F & ->)].
  - specialize (V _ H0). split; [exact V|]. split; [lia|]. split.
    + apply members_update_nth_eq, V.
    + intros h' N. apply members_update_nth_neq. congruence.
  - unfold freshEntry in F. rewrite M in F. injection F as ->. rewrite M.
    rewrite length_app. simpl. split; [lia|]. split; [lia|]. split.
    + rewrite members_update_nth_eq by (rewrite length_app; simpl; lia).
      rewrite members_fresh. reflexivity.
    + intros h' N. rewrite members_update_nth_neq by congruence.
      apply members_fresh.
Qed.

(** What [clearEdgeFromStructureIndex] does to the sets of a multigraph. *)
Lemma clearEdgeFromStructureIndex_members g e d g' :
  multi g = true -> clearEdgeFromStructureIndex g e d = Ret g' ->
  sets g' = match look (_nodes g) (outKeyOf d) (source d) (show (target d)) with
            | Some (Shared h) => update_nth h (delete e) (sets g)
            | _ => sets g
            end.
Proof.
  intros M E. unfold clearEdgeFromStructureIndex in E. rewrite M in E.
  change (if undirected d then kUndirectedOut else kOut) with (outKeyOf d) in E.
  unfold look.
  destruct (get (source d) (_nodes g)) as [sd|]; [|discriminate].
  destruct (getB (outKeyOf d) sd) as [b|]; [|discriminate].
  destruct (get (show (target d)) b) as [[x|h]|]; simpl in E; try discriminate;
    injection E as <-; reflexivity.
Qed.

Lemma allocated_unindexed g :
  unindexed g = true -> (forall h, NoDup (members (sets g) h)) -> allocated g.
Proof.
  intros U N. split; [|exact N].
  intros k s t h L. rewrite (unindexed_look _ _ _ _ U) in L. discriminate.
Qed.

Lemma updateStructureIndex_allocated g e d g' :
  updateStructureIndex g e d = Ret g' -> allocated g -> allocated g'.
Proof.
  intros E [V N].
  destruct (updateStructureIndex_look _ _ _ E) as (v0 & v1 & H0 & H1 & _ & L).
  destruct (multi g) eqn:M.
  - destruct (@updateStructureIndex_members g e d g' M E (V _ _ _))
      as (h & Lh & Vh & Le & Mh & Mo).
    assert (E0 : v0 = Shared h).
    { rewrite L in Lh.
      replace (at_ (outKeyOf d) (source d) (show (target d))
                   (outKeyOf d) (source d) (show (target d))) with true in Lh
        by (symmetry; apply at_true; auto). congruence. }
    subst v0. split.
    + intros k a b h' Lk. rewrite L in Lk.
      destruct (at_ (outKeyOf d) _ _ k a b); [congruence|].
      assert (Old : forall k a b, look (_nodes g) k a b = Some (Shared h') ->
                                  h' < List.length (sets g')).
      { intros ? ? ? Q. specialize (V _ _ _ _ Q). lia. }
      destruct (eq_dec (source d) (target d)); [eapply Old; eauto|].
      destruct (at_ (inKeyOf d) _ _ k a b); [|eapply Old; eauto].
      injection Lk as ->. destruct H1 as [H1|[_ H1]]; [eapply Old; eauto|].
      congruence.
    + intros h'. destruct (Nat.eq_dec h' h) as [->|Nh].
      * rewrite Mh. apply add_NoDup, N.
      * rewrite Mo by exact Nh. apply N.
  - destruct (updateStructureIndex_shape _ _ _ E) as (w0 & sets0 & W0 & _ & Es & _).
    rewrite M in Es.
    assert (S0 : sets g' = sets g).
    { destruct W0 as [[_ ->]|(_ & _ & ->)]; rewrite ?M in Es; exact Es. }
    split; [|intros h'; rewrite S0; apply N].
    intros k a b h' Lk. rewrite S0. rewrite L in Lk.
    assert (F0 : v0 = Shared h' ->  h' < List.length (sets g)).
    { intros ->. destruct H0 as [H0|[_ H0]]; [eapply V; eauto|].
      unfold freshEntry in H0. rewrite M in H0. discriminate. }
    destruct (at_ (outKeyOf d) _ _ k a b); [apply F0; congruence|].
    destruct (eq_dec (source d) (target d)); [eapply V; eauto|].
    destruct (at_ (inKeyOf d) _ _ k a b); [|eapply V; eauto].
    injection Lk as ->. destruct H1 as [H1|[_ H1]]; [eapply V; eauto | auto].
Qed.

Lemma clearEdgeFromStructureIndex_allocated g e d g' :
  clearEdgeFromStructureIndex g e d = Ret g' -> keyedOnce (_nodes g) ->
  allocated g -> allocated g'.
Proof.
  intros E T [V N]. destruct (multi g) eqn:M.
  - destruct (@clearEdgeFromStructureIndex_multi g e d g' M E) as [Nd _].
    pose proof (@clearEdgeFromStructureIndex_members g e d g' M E) as S.
    assert (Len : List.length (sets g') = List.length (sets g)).
    { rewrite S. destruct (look _ _ _ _) as [[x|h]|]; auto using length_update_nth. }
    split.
    + intros k a b h L. rewrite Nd in L. rewrite Len. eapply V; eauto.
    + intros h'. rewrite S.
      destruct (look _ _ _ _) as [[x|h]|] eqn:Lk; try apply N.
      destruct (Nat.eq_dec h h') as [<-|Nh].
      * rewrite members_update_nth_eq by (eapply V; eauto). apply NoDup_delete, N.
      * rewrite members_update_nth_neq by exact Nh. apply N.
  - destruct (@clearEdgeFromStructureIndex_simple g e d g' M E) as (Nd & S & _).
    split; [|intros h; rewrite S; apply N].
    intros k a b h L. rewrite S. rewrite Nd in L.
    rewrite look_drop in L by (apply keyedOnce_drop, T).
    destruct (at_ (inKeyOf d) _ _ k a b); [discriminate|].
    rewrite look_drop in L by exact T.
    destruct (at_ (outKeyOf d) _ _ k a b); [discriminate|]. eapply V; eauto.
Qed.

Lemma updateStructureIndex_sound g e d g' :
  updateStructureIndex g e d = Ret g' -> sound g -> sound g'.
Proof.
  intros E [T A]. split;
    [eapply updateStructureIndex_keyedOnce | eapply updateStructureIndex_allocated]; eauto.
Qed.

Lemma clearEdgeFromStructureIndex_sound g e d g' :
  clearEdgeFromStructureIndex g e d = Ret g' -> sound g -> sound g'.
Proof.
  intros E [T A]. split;
    [eapply clearEdgeFromStructureIndex_keyedOnce
    | eapply clearEdgeFromStructureIndex_allocated]; eauto.
Qed.

Lemma with_edges_sound g edges : sound g -> sound (with_edges g edges).
Proof. intros [T [V N]]. split; [exact T | split; [exact V | exact N]]. Qed.

Lemma computeIndex_sound g g' : computeIndex g = Ret g' -> sound g -> sound g'.
Proof.
  unfold computeIndex. destruct (computed g); [intros [= <-]; auto|].
  intros E S.
  assert (F : forall g1,
             fold_left
               (fun acc '(edge, data) => g <- acc ;; updateStructureIndex g edge data)
               (_edges g) (Ret g) = Ret g1 -> sound g1).
  { apply (fold_left_preserves (fun c => forall g1, c = Ret g1 -> sound g1)).
    - intros g1 [= <-]. exact S.
    - intros c [e d] Hc g1 E1. destruct c as [g0|]; [|discriminate].
      exact (@updateStructureIndex_sound g0 e d g1 E1 (Hc g0 eq_refl)). }
  destruct (fold_left _ _ _) as [g1|]; [|discriminate].
  injection E as <-. destruct (F g1 eq_refl) as [T [V N]].
  split; [exact T | split; [exact V | exact N]].
Qed.

Lemma step_sound g c g' : step g c = Ret g' -> sound g -> sound g'.
Proof.
  destruct c as [e d|e|e d|e d| |]; simpl; intros E S.
  - eapply updateStructureIndex_sound; [exact E|]. apply with_edges_sound, S.
  - unfold dropEdge in E. destruct (get e (_edges g)) as [d|]; [|congruence].
    eapply clearEdgeFromStructureIndex_sound; [exact E|]. apply with_edges_sound, S.
  - eapply updateStructureIndex_sound; eauto.
  - eapply clearEdgeFromStructureIndex_sound; eauto.
  - eapply computeIndex_sound; eauto.
  - injection E as <-. destruct S as [_ [_ N]]. split; [apply keyedOnce_cleared|].
    split; [|exact N]. intros k s t h L. simpl in L. rewrite look_cleared in L.
    discriminate.
Qed.

Lemma run_sound cs g g' : run cs g = Ret g' -> sound g -> sound g'.
Proof.
  revert g. induction cs as [|c cs IH]; intros g E S; simpl in E.
  - congruence.
  - destruct (step g c) as [g1|] eqn:St; [|discriminate].
    exact (IH g1 E (@step_sound g c g1 St S)).
Qed.

Lemma sound_unindexed g : unindexed g = true -> sets g = [] -> sound g.
Proof.
  intros U S. split; [apply keyedOnce_unindexed, U|].
  apply allocated_unindexed; [exact U|]. intros h. rewrite S.
  unfold members. destruct h; constructor.
Qed.

(** ** Members of the shared sets of a multigraph *)

(** X7: in a multigraph whose index went from empty through any sequence
    of calls, one insertion leaves under the name of the target a set that
    holds the edge, once; its other members are as before and no other set
    changes; where the nodes have distinct names and the ends differ, that
    set is the one the target refers to under the name of the source. *)
Theorem multigraph_insertion_adds_member g0 cs g e d g' :
  unindexed g0 = true -> sets g0 = [] -> run cs g0 = Ret g ->
  multi g = true -> updateStructureIndex g e d = Ret g' ->
  exists h,
    look (_nodes g') (outKeyOf d) (source d) (show (target d)) = Some (Shared h)
    /\ (uniqueNames (_nodes g0) = true -> source d <> target d ->
        look (_nodes g') (inKeyOf d) (target d) (show (source d)) = Some (Shared h))
    /\ members (sets g') h = add e (members (sets g) h)
    /\ In e (members (sets g') h)
    /\ NoDup (members (sets g') h)
    /\ forall h', h' <> h -> members (sets g') h' = members (sets g) h'.
Proof.
  intros U S0 R M E.
  pose proof (@run_sound cs g0 g R (sound_unindexed _ U S0)) as Sg.
  pose proof (@updateStructureIndex_sound g e d g' E Sg) as [_ [_ N']].
  destruct Sg as [_ [V _]].
  destruct (@updateStructureIndex_members g e d g' M E (V _ _ _))
    as (h & Lh & _ & _ & Mh & Mo).
  exists h. split; [exact Lh|]. split; [|split; [exact Mh|split; [|split]]].
  - intros Un Nst. rewrite <- Lh. symmetry.
    pose proof (@run_neat cs g0 g R (neat_unindexed _ U Un)) as Ng.
    destruct (@updateStructureIndex_neat g e d g' E Ng) as (_ & _ & [Mi _]).
    destruct (updateStructureIndex_frame _ _ _ E) as (Ks & _).
    destruct (updateStructureIndex_shape _ _ _ E) as (w0 & ws & _ & _ & _ & Gs & Sh).
    destruct Sh as [[Q _]|(_ & Gt & _)]; [contradiction|].
    apply (Mi (undirected d)); [| |exact Nst]; rewrite Ks;
      apply hasNode_In, hasNode_get; assumption.
  - rewrite Mh. apply add_In.
  - apply N'.
  - exact Mo.
Qed.

Lemma multigraph_insertion_adds_member_witness :
  exists h,
    look (_nodes multiAB) kOut (Str "A") "B" = Some (Shared h)
    /\ look (_nodes multiAB) kIn (Str "B") "A" = Some (Shared h)
    /\ In "ab"%string (members (sets multiAB) h).
Proof.
  destruct (@multigraph_insertion_adds_member
              (mkGraph true true [(Str "A", noData); (Str "B", noData)]
                       [("ab"%string, directedAB)] [] true)
              [] _ "ab" directedAB multiAB eq_refl eq_refl eq_refl eq_refl eq_refl)
    as (h & L & Mi & _ & I & _).
  exists h. split; [exact L|]. split; [|exact I].
  apply Mi; [reflexivity | discriminate].
Defined.

(** X8: in such a multigraph one removal changes no bucket: the entry
    stays, the set it refers to loses the edge and keeps its other members,
    and no other set changes. *)
Theorem multigraph_removal_drops_member g0 cs g e d g' :
  unindexed g0 = true -> sets g0 = [] -> run cs g0 = Ret g ->
  multi g = true -> clearEdgeFromStructureIndex g e d = Ret g' ->
  _nodes g' = _nodes g
  /\ (look (_nodes g) (outKeyOf d) (source d) (show (target d)) = None -> sets g' = sets g)
  /\ forall h,
       look (_nodes g) (outKeyOf d) (source d) (show (target d)) = Some (Shared h) ->
       members (sets g') h = delete e (members (sets g) h)
       /\ ~ In e (members (sets g') h)
       /\ (forall x, x <> e ->
                     (In x (members (sets g') h) <-> In x (members (sets g) h)))
       /\ forall h', h' <> h -> members (sets g') h' = members (sets g) h'.
Proof.
  intros U S0 R M E.
  destruct (run_sound cs R (sound_unindexed _ U S0)) as [_ [V N]].
  destruct (clearEdgeFromStructureIndex_multi g e d M E) as [Nd _].
  pose proof (clearEdgeFromStructureIndex_members g e d M E) as S.
  split; [exact Nd|]. split.
  - intros L. rewrite L in S. exact S.
  - intros h L. rewrite L in S. rewrite S.
    rewrite members_update_nth_eq by (eapply V; eauto).
    split; [reflexivity|]. split; [apply delete_not_In, N|]. split.
    + intros x Nx. apply In_delete, Nx.
    + intros h' Nh. apply members_update_nth_neq. congruence.
Qed.

Lemma multigraph_removal_drops_member_witness :
  exists g',
    clearEdgeFromStructureIndex multiAB "ab" directedAB = Ret g'
    /\ _nodes g' = _nodes multiAB
    /\ members (sets g') 0 = [].
Proof.
  eexists. split; [reflexivity|].
  destruct (@multigraph_removal_drops_member
              (mkGraph true true [(Str "A", noData); (Str "B", noData)] [] [] true)
              [AddEdge "ab" directedAB] multiAB "ab" directedAB _
              eq_refl eq_refl eq_refl eq_refl eq_refl) as (Nd & _ & H).
  split; [exact Nd|].
  destruct (H 0 eq_refl) as (Mh & _). exact Mh.
Defined.

(** ** Inserting an edge and removing it again *)

(** X9: in a multigraph, inserting an edge that its set does not hold yet
    and removing it again gives every set the members it had; the entry
    the insertion may have created stays, over an empty set. *)
Theorem multigraph_insert_remove_restores_sets g0 cs g e d g1 g2 :
  unindexed g0 = true -> sets g0 = [] -> run cs g0 = Ret g ->
  multi g = true ->
  (forall h, look (_nodes g) (outKeyOf d) (source d) (show (target d)) = Some (Shared h) ->
             ~ In e (members (sets g) h)) ->
  updateStructureIndex g e d = Ret g1 ->
  clearEdgeFromStructureIndex g1 e d = Ret g2 ->
  _nodes g2 = _nodes g1
  /\ forall h, members (sets g2) h = members (sets g) h.
Proof.
  intros U S0 R M Fresh E1 E2.
  pose proof (run_sound cs R (sound_unindexed _ U S0)) as Sg.
  destruct Sg as [Tg [V N]].
  destruct (updateStructureIndex_members g e d M E1 (V _ _ _))
    as (h & Lh & Vh & _ & Mh & Mo).
  destruct (updateStructureIndex_frame _ _ _ E1) as (_ & _ & M1 & _).
  rewrite <- M1 in M.
  destruct (clearEdgeFromStructureIndex_multi g1 e d M E2) as [Nd _].
  pose proof (clearEdgeFromStructureIndex_members g1 e d M E2) as S.
  rewrite Lh in S. split; [exact Nd|]. intros h'. rewrite S.
  destruct (Nat.eq_dec h h') as [<-|Nh].
  - rewrite members_update_nth_eq by exact Vh. rewrite Mh. apply delete_add.
    destruct (updateStructureIndex_look _ _ _ E1) as (v0 & v1 & H0 & _ & _ & L).
    rewrite L in Lh.
    replace (at_ (outKeyOf d) (source d) (show (target d))
                 (outKeyOf d) (source d) (show (target d))) with true in Lh
      by (symmetry; apply at_true; auto).
    injection Lh as ->.
    destruct H0 as [H0|[H0 F]]; [apply Fresh, H0|].
    unfold freshEntry in F. rewrite M1 in M. rewrite M in F. injection F as ->.
    rewrite members_dangling by lia. intros [].
  - rewrite members_update_nth_neq by exact Nh. apply Mo. congruence.
Qed.

Lemma multigraph_insert_remove_restores_sets_witness :
  exists g2,
    clearEdgeFromStructureIndex multiAB "ab" directedAB = Ret g2
    /\ forall h, members (sets g2) h = members [] h.
Proof.
  eexists. split; [reflexivity|].
  apply (@multigraph_insert_remove_restores_sets
           (mkGraph true true [(Str "A", noData); (Str "B", noData)]
                    [("ab"%string, directedAB)] [] true)
           [] _ "ab" directedAB multiAB _ eq_refl eq_refl eq_refl eq_refl).
  - intros h L. discriminate L.
  - reflexivity.
  - reflexivity.
Defined.

(** X10: in a simple graph whose nodes are converted to distinct property
    names, inserting an edge between a pair that has no entry and removing
    it again restores every entry of every bucket. *)
Theorem simple_insert_remove_restores_entries g0 cs g e d g1 g2 :
  unindexed g0 = true -> uniqueNames (_nodes g0) = true ->
  run cs g0 = Ret g -> multi g = false ->
  look (_nodes g) (outKeyOf d) (source d) (show (target d)) = None ->
  updateStructureIndex g e d = Ret g1 ->
  clearEdgeFromStructureIndex g1 e d = Ret g2 ->
  (forall k a b, look (_nodes g2) k a b = look (_nodes g) k a b)
  /\ sets g2 = sets g /\ keys (_nodes g2) = keys (_nodes g).
Proof.
  intros U Un R M L0 E1 E2.
  pose proof (@run_neat cs g0 g R (neat_unindexed _ U Un)) as (Ung & Kog & Tg).
  pose proof (@updateStructureIndex_keyedOnce g e d g1 E1 Kog) as Ko1.
  destruct (@updateStructureIndex_frame g e d g1 E1) as (K1 & _ & M1 & _).
  assert (M' : multi g1 = false) by congruence.
  pose proof (@clearEdgeFromStructureIndex_look g1 e d g2 M' Ko1 E2) as L2.
  destruct (@clearEdgeFromStructureIndex_simple g1 e d g2 M' E2) as (N2 & S2 & _).
  destruct (@updateStructureIndex_look g e d g1 E1) as (v0 & v1 & _ & _ & _ & L1).
  destruct (@updateStructureIndex_shape g e d g1 E1)
    as (w0 & sets0 & W0 & _ & Es & Gs & Sh).
  assert (Is : In (source d) (keys (_nodes g))) by (apply hasNode_In, hasNode_get, Gs).
  assert (It : In (target d) (keys (_nodes g))).
  { destruct Sh as [[<- _]|(_ & Gt & _)]; [exact Is|].
    apply hasNode_In, hasNode_get, Gt. }
  rewrite M in Es.
  assert (S1 : sets g1 = sets g).
  { destruct W0 as [[_ ->]|(_ & _ & ->)]; rewrite ?M in Es; exact Es. }
  split; [|split].
  - intros k a b. rewrite L2.
    destruct (at_ (inKeyOf d) (target d) (show (source d)) k a b) eqn:A2.
    { apply at_true in A2 as (<- & <- & <-). symmetry.
      destruct (eq_dec (source d) (target d)) as [Est|Nst].
      - rewrite Est. apply (tidy_noInLoop Tg), It.
      - transitivity (look (_nodes g) (outKeyOf d) (source d) (show (target d)));
          [symmetry; exact (tidy_mirrored Tg (undirected d) Is It Nst) | exact L0]. }
    destruct (at_ (outKeyOf d) (source d) (show (target d)) k a b) eqn:A1.
    { apply at_true in A1 as (<- & <- & <-). congruence. }
    rewrite L1, A1, A2. destruct (eq_dec (source d) (target d)); reflexivity.
  - congruence.
  - rewrite N2, !keys_drop. exact K1.
Qed.

Lemma simple_insert_remove_restores_entries_witness :
  exists g2,
    clearEdgeFromStructureIndex (simpleWithAB true) "ab" directedAB = Ret g2
    /\ look (_nodes g2) kOut (Str "A") "B" = None
    /\ look (_nodes g2) kIn (Str "B") "A" = None.
Proof.
  eexists. split; [reflexivity|].
  destruct (@simple_insert_remove_restores_entries
              (mkGraph false true [(Str "A", noData); (Str "B", noData)]
                       [("ab"%string, directedAB)] [] true)
              [] _ "ab" directedAB (simpleWithAB true) _
              eq_refl eq_refl eq_refl eq_refl eq_refl eq_refl eq_refl) as (L & _).
  split; rewrite L; reflexivity.
Defined.

(** ** Clearing the whole index *)

(** X11: clearing the structure index leaves no entry in any bucket of any
    node, whatever the index held; the nodes keep their order, and the
    edges and the sets are not touched; clearing twice is clearing once. *)
Theorem clearing_removes_every_entry g :
  (forall k s t, look (_nodes (clearStructureIndex g)) k s t = None)
  /\ unindexed (clearStructureIndex g) = true
  /\ keys (_nodes (clearStructureIndex g)) = keys (_nodes g)
  /\ _edges (clearStructureIndex g) = _edges g
  /\ sets (clearStructureIndex g) = sets g
  /\ multi (clearStructureIndex g) = multi g
  /\ clearStructureIndex (clearStructureIndex g) = clearStructureIndex g.
Proof.
  unfold clearStructureIndex, with_index, unindexed. cbn [_nodes _edges sets multi map computed].
  split; [intros; apply look_cleared|].
  split; [|split; [|split; [reflexivity|split; [reflexivity|split; [reflexivity|]]]]].
  - induction (_nodes g) as [|[n d] r IH]; [reflexivity|exact IH].
  - unfold keys. rewrite List.map_map. apply List.map_ext. intros [n d]. reflexivity.
  - f_equal. rewrite List.map_map. apply List.map_ext. intros [n d]. reflexivity.
Qed.

(** ** The index of a multigraph against its edge store *)

Lemma stored_add g g' e d x u a b :
  _edges g' = set e d (_edges g) -> get e (_edges g) = None ->
  (stored g' x u a b
   <-> (x = e /\ undirected d = u /\ source d = a /\ show (target d) = b)
       \/ stored g x u a b).
Proof.
  intros E F. unfold stored. rewrite E. destruct (string_dec e x) as [<-|Ne].
  - rewrite get_set_eq. split.
    + intros (d' & [= <-] & H). left. tauto.
    + intros [(_ & H)|(d' & G & _)]; [exists d; tauto | congruence].
  - rewrite (get_set_neq _ _ Ne). split; [auto | intros [(C & _)|H]; [congruence | exact H]].
Qed.

Lemma stored_del g g' e x u a b :
  _edges g' = del e (_edges g) -> NoDup (keys (_edges g)) ->
  (stored g' x u a b <-> x <> e /\ stored g x u a b).
Proof.
  intros E N. unfold stored. rewrite E. destruct (string_dec e x) as [<-|Ne].
  - rewrite (get_del_eq _ _ N). split; [intros (d' & G & _); discriminate | intros [C _]; congruence].
  - rewrite (get_del_neq _ Ne). split; [intros H; split; [congruence | exact H] | tauto].
Qed.

Lemma exact_unindexed g : unindexed g = true -> _edges g = [] -> exact g.
Proof.
  intros U E. split.
  - rewrite E. constructor.
  - intros u s t h L. rewrite (unindexed_look _ _ _ _ U) in L. discriminate.
  - intros e d G. rewrite E in G. discriminate.
  - intros u s t u' s' t' h L. rewrite (unindexed_look _ _ _ _ U) in L. discriminate.
Qed.

Lemma addEdge_exact g e d g' :
  multi g = true -> sound g -> exact g -> get e (_edges g) = None ->
  addEdge g e d = Ret g' -> exact g'.
Proof.
  intros M [T [V N]] [Ids Mem Ent Han] F E.
  unfold addEdge, onEdgeAdded in E.
  set (g1 := with_edges g (set e d (_edges g))) in E.
  assert (M1 : multi g1 = true) by exact M.
  destruct (updateStructureIndex_look g1 e d E) as (v0 & v1 & H0 & _ & _ & L).
  destruct (updateStructureIndex_members g1 e d M1 E (V _ _ _))
    as (h & Lh & _ & _ & Mh & Mo).
  destruct (updateStructureIndex_frame g1 e d E) as (_ & _ & _ & Ed & _).
  change (_edges g1) with (set e d (_edges g)) in Ed.
  change (_nodes g1) with (_nodes g) in *. change (sets g1) with (sets g) in *.
  assert (V0 : v0 = Shared h).
  { rewrite L in Lh.
    replace (at_ (outKeyOf d) (source d) (show (target d))
                 (outKeyOf d) (source d) (show (target d))) with true in Lh
      by (symmetry; apply at_true; auto).
    congruence. }
  subst v0.
  assert (H0' : look (_nodes g) (outKeyOf d) (source d) (show (target d)) = Some (Shared h)
                \/ (look (_nodes g) (outKeyOf d) (source d) (show (target d)) = None
                    /\ h = List.length (sets g))).
  { destruct H0 as [H0|[H0 Fr]]; [left; exact H0|right; split; [exact H0|]].
    unfold freshEntry in Fr. rewrite M1 in Fr. injection Fr as ->. reflexivity. }
  clear H0.
  assert (LO : forall u a b,
             look (_nodes g') (outSlot u) a b
             = if at_ (outKeyOf d) (source d) (show (target d)) (outSlot u) a b
               then Some (Shared h) else look (_nodes g) (outSlot u) a b).
  { intros u a b. rewrite L.
    destruct (at_ (outKeyOf d) (source d) (show (target d)) (outSlot u) a b); [reflexivity|].
    replace (at_ (inKeyOf d) (target d) (show (source d)) (outSlot u) a b) with false.
    - destruct (eq_dec (source d) (target d)); reflexivity.
    - symmetry. apply at_false. intros (C & _).
      exact (out_in_slots u (undirected d) (eq_sym C)). }
  assert (None_unstored : look (_nodes g) (outKeyOf d) (source d) (show (target d)) = None ->
                          forall x, ~ stored g x (undirected d) (source d) (show (target d))).
  { intros Ln x (dx & Gx & Eu & Es & Et). destruct (Ent _ _ Gx) as (hx & Lx).
    unfold outKeyOf in Lx, Ln. rewrite Eu, Es, Et in Lx. congruence. }
  split.
  - rewrite Ed. apply NoDup_keys_set, Ids.
  - intros u a b h' L' x. rewrite LO in L'.
    rewrite (@stored_add g g' e d x u a b Ed F).
    destruct (at_ (outKeyOf d) (source d) (show (target d)) (outSlot u) a b) eqn:A.
    + apply at_true in A as (Ek & <- & <-). apply outSlot_inj in Ek. subst u.
      injection L' as <-. rewrite Mh, In_add.
      destruct H0' as [Lg|[Lg ->]].
      * rewrite (Mem _ _ _ _ Lg x). intuition auto.
      * rewrite members_dangling by lia. pose proof (None_unstored Lg x). simpl. intuition auto.
    + apply at_false in A.
      assert (Nh : h' <> h).
      { destruct H0' as [Lg|[Lg ->]].
        - intros ->. apply A.
          destruct (Han _ _ _ _ _ _ _ Lg L') as (Eu & Ea & Eb).
          unfold outKeyOf. rewrite Eu. auto.
        - pose proof (V _ _ _ _ L'). lia. }
      rewrite (Mo _ Nh), (Mem _ _ _ _ L' x). split; [auto|].
      intros [(-> & <- & <- & <-)|H]; [exfalso; apply A; auto | exact H].
  - intros x dx Gx. rewrite Ed in Gx.
    change (outKeyOf dx) with (outSlot (undirected dx)). rewrite LO.
    destruct (at_ (outKeyOf d) (source d) (show (target d))
                  (outSlot (undirected dx)) (source dx) (show (target dx))) eqn:A; [eauto|].
    destruct (string_dec e x) as [<-|Ne].
    + rewrite get_set_eq in Gx. injection Gx as <-.
      apply at_false in A. exfalso. apply A. auto.
    + rewrite (get_set_neq _ _ Ne) in Gx. exact (Ent _ _ Gx).
  - intros u a b u' a' b' h' L1 L2. rewrite LO in L1, L2.
    destruct (at_ (outKeyOf d) (source d) (show (target d)) (outSlot u) a b) eqn:A1;
      destruct (at_ (outKeyOf d) (source d) (show (target d)) (outSlot u') a' b') eqn:A2.
    + apply at_true in A1 as (K1 & <- & <-). apply at_true in A2 as (K2 & <- & <-).
      rewrite K1 in K2. apply outSlot_inj in K2. auto.
    + exfalso. injection L1 as <-. apply at_false in A2.
      destruct H0' as [Lg|[Lg ->]].
      * apply at_true in A1 as (K1 & <- & <-). apply A2.
        destruct (Han _ _ _ _ _ _ _ Lg L2) as (Eu & Ea & Eb).
        unfold outKeyOf. rewrite Eu. auto.
      * pose proof (V _ _ _ _ L2). lia.
    + exfalso. injection L2 as <-. apply at_false in A1.
      destruct H0' as [Lg|[Lg ->]].
      * apply at_true in A2 as (K2 & <- & <-). apply A1.
        destruct (Han _ _ _ _ _ _ _ Lg L1) as (Eu & Ea & Eb).
        unfold outKeyOf. rewrite Eu. auto.
      * pose proof (V _ _ _ _ L1). lia.
    + exact (Han _ _ _ _ _ _ _ L1 L2).
Qed.

Lemma dropEdge_exact g e g' :
  multi g = true -> sound g -> exact g -> dropEdge g e = Ret g' -> exact g'.
Proof.
  intros M [T [V N]] X E. unfold dropEdge in E.
  destruct (get e (_edges g)) as [d|] eqn:G; [|injection E as <-; exact X].
  destruct X as [Ids Mem Ent Han].
  unfold onEdgeRemoved in E.
  set (g1 := with_edges g (del e (_edges g))) in E.
  assert (M1 : multi g1 = true) by exact M.
  destruct (clearEdgeFromStructureIndex_multi g1 e d M1 E) as [Nd _].
  pose proof (clearEdgeFromStructureIndex_members g1 e d M1 E) as S.
  destruct (clearEdgeFromStructureIndex_frame g1 e d E) as (_ & _ & _ & Ed & _).
  change (_edges g1) with (del e (_edges g)) in Ed.
  change (_nodes g1) with (_nodes g) in *. change (sets g1) with (sets g) in *.
  destruct (Ent _ _ G) as (h & Lh). rewrite Lh in S.
  split.
  - rewrite Ed. apply NoDup_keys_del, Ids.
  - intros u a b h' L' x. rewrite Nd in L'.
    rewrite (@stored_del g g' e x u a b Ed Ids), <- (Mem _ _ _ _ L' x), S.
    destruct (Nat.eq_dec h h') as [<-|Nh].
    + rewrite members_update_nth_eq by (eapply V; eauto).
      apply In_delete_iff, N.
    + rewrite members_update_nth_neq by exact Nh.
      split; [|tauto]. intros I. split; [|exact I]. intros ->.
      apply (Mem _ _ _ _ L') in I. destruct I as (d' & G' & Eu & Ea & Eb).
      assert (d' = d) by congruence. subst d'. apply Nh.
      unfold outKeyOf in Lh. rewrite Eu, Ea, Eb in Lh. congruence.
  - intros x dx Gx. rewrite Ed in Gx. rewrite Nd.
    destruct (string_dec e x) as [<-|Ne].
    + rewrite (get_del_eq _ _ Ids) in Gx. discriminate.
    + rewrite (get_del_neq _ Ne) in Gx. exact (Ent _ _ Gx).
  - rewrite Nd. exact Han.
Qed.

Lemma run_exact cs :
  forall g g',
    multi g = true -> sound g -> exact g ->
    mutations cs g = true -> run cs g = Ret g' ->
    multi g' = true /\ sound g' /\ exact g'.
Proof.
  induction cs as [|c cs IH]; intros g g' M S X Mu R.
  - injection R as <-. auto.
  - cbn [run bind] in R. cbn [mutations] in Mu.
    apply andb_prop in Mu as [Ad Mu].
    destruct (step g c) as [g1|] eqn:St; [|discriminate].
    pose proof (step_sound _ St S) as S1.
    assert (multi g1 = true /\ exact g1) as [M1 X1].
    { destruct c as [e d|e|e d|e d| |]; try discriminate; cbn [step] in St.
      - split.
        + unfold addEdge, onEdgeAdded in St.
          destruct (updateStructureIndex_frame _ _ _ St) as (_ & _ & -> & _). exact M.
        + apply (@addEdge_exact g e d g1 M S X); [|exact St].
          unfold has in Ad. destruct (get e (_edges g)); [discriminate|reflexivity].
      - split; [|exact (@dropEdge_exact g e g1 M S X St)].
        unfold dropEdge in St. destruct (get e (_edges g)) as [d|].
        + unfold onEdgeRemoved in St.
          eapply clearEdgeFromStructureIndex_multi; [|exact St]. exact M.
        + injection St as <-. exact M. }
    exact (IH g1 g' M1 S1 X1 Mu R).
Qed.

(** X12: in a multigraph built from no edge by the mutation API, adding
    edges under fresh identifiers and dropping edges, the index agrees
    with the edge store.  Every stored edge is in the set its source
    refers to under the name of its target; such a set holds the stored
    edges of that kind from that source to a node of that name and nothing
    else, each once; and where the nodes have distinct names, an entry on
    the in side is the out entry of the other endpoint. *)
Theorem multigraph_index_matches_edge_store g0 cs g :
  multi g0 = true -> unindexed g0 = true -> sets g0 = [] -> _edges g0 = [] ->
  mutations cs g0 = true -> run cs g0 = Ret g ->
  (forall e d, get e (_edges g) = Some d ->
     exists h, look (_nodes g) (outKeyOf d) (source d) (show (target d))
               = Some (Shared h)
               /\ In e (members (sets g) h))
  /\ (forall u s t h, look (_nodes g) (outSlot u) s t = Some (Shared h) ->
        NoDup (members (sets g) h)
        /\ forall e, In e (members (sets g) h) <-> stored g e u s t)
  /\ (uniqueNames (_nodes g0) = true ->
      forall u s t h, hasNode g s = true -> hasNode g t = true ->
        look (_nodes g) (inSlot u) t (show s) = Some (Shared h) ->
        s <> t /\ look (_nodes g) (outSlot u) s (show t) = Some (Shared h)).
Proof.
  intros M U S0 E0 Mu R.
  destruct (@run_exact cs g0 g M (sound_unindexed _ U S0) (exact_unindexed _ U E0) Mu R)
    as (_ & [T [V N]] & [Ids Mem Ent Han]).
  split; [|split].
  - intros e d G. destruct (Ent _ _ G) as (h & L). exists h. split; [exact L|].
    apply (Mem _ _ _ _ L). exists d. auto.
  - intros u s t h L. split; [apply N | exact (Mem _ _ _ _ L)].
  - intros Un u s t h Hs Ht L.
    destruct (@run_neat cs g0 g R (neat_unindexed _ U Un)) as (_ & _ & [Mi Nl]).
    apply hasNode_In in Hs, Ht.
    assert (Nst : s <> t).
    { intros ->. rewrite (Nl u t Ht) in L. discriminate. }
    split; [exact Nst|]. rewrite (Mi u s t Hs Ht Nst). exact L.
Qed.

Lemma multigraph_index_matches_edge_store_witness :
  (exists h,
      look (_nodes multiAB) kOut (Str "A") "B" = Some (Shared h)
      /\ In "ab"%string (members (sets multiAB) h))
  /\ look (_nodes multiAB) kOut (Str "A") "B" = Some (Shared 0).
Proof.
  destruct (@multigraph_index_matches_edge_store
              (nodesAB true true) [AddEdge "ab" directedAB] multiAB
              eq_refl eq_refl eq_refl eq_refl eq_refl eq_refl) as (H & _ & Mi).
  split; [exact (H "ab"%string directedAB eq_refl)|].
  exact (proj2 (Mi eq_refl false (Str "A") (Str "B") 0 eq_refl eq_refl eq_refl)).
Defined.

(** ** The index of a simple graph against its edge store *)

Lemma hasEdge_stored g (u : bool) s t :
  uniqueNames (_nodes g) = true ->
  (forall e d, get e (_edges g) = Some d -> In (target d) (keys (_nodes g))) ->
  In t (keys (_nodes g)) ->
  (if u then hasUndirectedEdge g s t else hasDirectedEdge g s t) = false ->
  forall x, ~ stored g x u s (show t).
Proof.
  intros Un Ends It H x (d & G & Eu & Es & Et).
  apply (uniqueNames_inj _ _ _ Un (Ends _ _ G) It) in Et.
  apply get_In in G.
  assert (T : (if u then hasUndirectedEdge g s t else hasDirectedEdge g s t) = true).
  { destruct u; unfold hasUndirectedEdge, hasDirectedEdge; apply existsb_exists;
      exists (x, d); (split; [exact G|]); cbv beta iota; rewrite Eu, Es, Et;
      (destruct (eq_dec s s) as [_|C]; [|congruence]);
      (destruct (eq_dec t t) as [_|C]; [|congruence]); reflexivity. }
  congruence.
Qed.

Lemma addEdge_exactSimple g e d g' :
  multi g = false -> uniqueNames (_nodes g) = true -> exactSimple g ->
  get e (_edges g) = None ->
  (if undirected d then hasUndirectedEdge g (source d) (target d)
   else hasDirectedEdge g (source d) (target d)) = false ->
  addEdge g e d = Ret g' -> exactSimple g'.
Proof.
  intros M Uq [Ids Ent Sg En] F Hn E.
  unfold addEdge, onEdgeAdded in E.
  set (g1 := with_edges g (set e d (_edges g))) in E.
  destruct (updateStructureIndex_look g1 e d E) as (v0 & v1 & H0 & H1 & _ & L).
  destruct (updateStructureIndex_frame g1 e d E) as (Ks & _ & _ & Ed & _).
  destruct (updateStructureIndex_buckets g1 e d E) as (Hs & Ht & _).
  change (_edges g1) with (set e d (_edges g)) in Ed.
  change (_nodes g1) with (_nodes g) in *.
  apply hasNode_In in Hs, Ht. rewrite Ks in Hs, Ht.
  pose proof (@hasEdge_stored g (undirected d) (source d) (target d) Uq
                (fun x dx G => proj2 (En x dx G)) Ht Hn) as Un.
  assert (L0 : look (_nodes g) (outKeyOf d) (source d) (show (target d)) = None).
  { destruct (look (_nodes g) (outKeyOf d) (source d) (show (target d)))
      as [[x|h]|] eqn:Lk; [| |reflexivity].
    - exfalso. apply (Un x). apply Ent. exact Lk.
    - exfalso. exact (Sg _ _ _ _ Lk). }
  assert (V0 : v0 = Single e).
  { destruct H0 as [H0|[_ ->]]; [congruence|].
    unfold freshEntry. change (multi g1) with (multi g). rewrite M. reflexivity. }
  subst v0.
  assert (LO : forall u a b,
             look (_nodes g') (outSlot u) a b
             = if at_ (outKeyOf d) (source d) (show (target d)) (outSlot u) a b
               then Some (Single e) else look (_nodes g) (outSlot u) a b).
  { intros u a b. rewrite L.
    destruct (at_ (outKeyOf d) (source d) (show (target d)) (outSlot u) a b);
      [reflexivity|].
    replace (at_ (inKeyOf d) (target d) (show (source d)) (outSlot u) a b) with false.
    - destruct (eq_dec (source d) (target d)); reflexivity.
    - symmetry. apply at_false. intros (C & _).
      exact (out_in_slots u (undirected d) (eq_sym C)). }
  split.
  - rewrite Ed. apply NoDup_keys_set, Ids.
  - intros u a b x. rewrite LO, (@stored_add g g' e d x u a b Ed F).
    destruct (at_ (outKeyOf d) (source d) (show (target d)) (outSlot u) a b) eqn:A.
    + apply at_true in A as (Ek & <- & <-). apply outSlot_inj in Ek. subst u.
      pose proof (Un x). split.
      * intros [= <-]. auto.
      * intros [(-> & _)|S]; [reflexivity|contradiction].
    + apply at_false in A. rewrite (Ent u a b x). split; [auto|].
      intros [(_ & <- & <- & <-)|S]; [exfalso; apply A; auto | exact S].
  - intros k a b h. rewrite L.
    destruct (at_ (outKeyOf d) (source d) (show (target d)) k a b); [discriminate|].
    destruct (eq_dec (source d) (target d)); [apply Sg|].
    destruct (at_ (inKeyOf d) (target d) (show (source d)) k a b); [|apply Sg].
    destruct H1 as [H1|[_ ->]]; [|discriminate].
    intros [= ->]. exact (Sg _ _ _ _ H1).
  - intros x dx G. rewrite Ed in G. rewrite Ks.
    destruct (string_dec e x) as [<-|Ne].
    + rewrite get_set_eq in G. injection G as <-. auto.
    + rewrite (get_set_neq _ _ Ne) in G. exact (En _ _ G).
Qed.

Lemma dropEdge_exactSimple g e g' :
  multi g = false -> keyedOnce (_nodes g) -> exactSimple g ->
  dropEdge g e = Ret g' -> exactSimple g'.
Proof.
  intros M T X E. unfold dropEdge in E.
  destruct (get e (_edges g)) as [d|] eqn:G; [|injection E as <-; exact X].
  destruct X as [Ids Ent Sg En]. unfold onEdgeRemoved in E.
  set (g1 := with_edges g (del e (_edges g))) in E.
  assert (M1 : multi g1 = false) by exact M.
  pose proof (@clearEdgeFromStructureIndex_look g1 e d g' M1 T E) as L.
  destruct (clearEdgeFromStructureIndex_frame g1 e d E) as (Ks & _ & _ & Ed & _).
  change (_edges g1) with (del e (_edges g)) in Ed.
  change (_nodes g1) with (_nodes g) in *.
  assert (LO : forall u a b,
             look (_nodes g') (outSlot u) a b
             = if at_ (outKeyOf d) (source d) (show (target d)) (outSlot u) a b
               then None else look (_nodes g) (outSlot u) a b).
  { intros u a b. rewrite L.
    replace (at_ (inKeyOf d) (target d) (show (source d)) (outSlot u) a b) with false;
      [reflexivity|].
    symmetry. apply at_false. intros (C & _).
    exact (out_in_slots u (undirected d) (eq_sym C)). }
  assert (Se : stored g e (undirected d) (source d) (show (target d)))
    by (exists d; auto).
  split.
  - rewrite Ed. apply NoDup_keys_del, Ids.
  - intros u a b x. rewrite LO, (@stored_del g g' e x u a b Ed Ids).
    destruct (at_ (outKeyOf d) (source d) (show (target d)) (outSlot u) a b) eqn:A.
    + apply at_true in A as (Ek & <- & <-). apply outSlot_inj in Ek. subst u.
      split; [discriminate|]. intros [Ne Sx]. exfalso. apply Ne.
      apply Ent in Sx. apply Ent in Se. congruence.
    + apply at_false in A. rewrite (Ent u a b x). split; [|tauto].
      intros Sx. split; [|exact Sx]. intros ->.
      destruct Sx as (d' & G' & Eu & Ea & Eb).
      assert (d' = d) by congruence. subst d'. apply A.
      unfold outKeyOf. rewrite Eu. auto.
  - intros k a b h. rewrite L.
    destruct (at_ (inKeyOf d) (target d) (show (source d)) k a b); [discriminate|].
    destruct (at_ (outKeyOf d) (source d) (show (target d)) k a b); [discriminate|].
    apply Sg.
  - intros x dx Gx. rewrite Ed in Gx. rewrite Ks.
    destruct (string_dec e x) as [<-|Ne].
    + rewrite (get_del_eq _ _ Ids) in Gx. discriminate.
    + rewrite (get_del_neq _ Ne) in Gx. exact (En _ _ Gx).
Qed.

Lemma run_exactSimple cs :
  forall g g',
    multi g = false -> neat g -> exactSimple g ->
    simpleMutations cs g = true -> run cs g = Ret g' ->
    multi g' = false /\ neat g' /\ exactSimple g'.
Proof.
  induction cs as [|c cs IH]; intros g g' M T X Mu R.
  - injection R as <-. auto.
  - cbn [run bind] in R. cbn [simpleMutations] in Mu.
    apply andb_prop in Mu as [Ad Mu].
    destruct (step g c) as [g1|] eqn:St; [|discriminate].
    pose proof (@step_neat g c g1 St T) as T1.
    assert (multi g1 = false /\ exactSimple g1) as [M1 X1].
    { destruct T as (Uq & Ko & _).
      destruct c as [e d|e|e d|e d| |]; try discriminate; cbn [step] in St.
      - apply andb_prop in Ad as [Fr Np]. split.
        + unfold addEdge, onEdgeAdded in St.
          destruct (updateStructureIndex_frame _ _ _ St) as (_ & _ & -> & _). exact M.
        + apply (@addEdge_exactSimple g e d g1 M Uq X); [| |exact St].
          * unfold has in Fr. destruct (get e (_edges g)); [discriminate|reflexivity].
          * destruct (if undirected d then _ else _); [discriminate|reflexivity].
      - split; [|exact (@dropEdge_exactSimple g e g1 M Ko X St)].
        unfold dropEdge in St. destruct (get e (_edges g)) as [d|].
        + unfold onEdgeRemoved in St.
          destruct (@clearEdgeFromStructureIndex_simple
                      (with_edges g (del e (_edges g))) e d g1 M St)
            as (_ & _ & _ & -> & _). exact M.
        + injection St as <-. exact M. }
    exact (IH g1 g' M1 T1 X1 Mu R).
Qed.

(** X20: in a simple graph whose nodes are converted to distinct property
    names, built from no edge by the mutation API, adding edges under fresh
    identifiers between pairs not yet joined and dropping edges, the index
    agrees with the edge store.  The source of every stored edge holds its
    identifier under the name of the target, and for distinct endpoints
    the target holds it under the name of the source; every entry of an
    out-side bucket is the identifier of a stored edge of that kind from
    the node to a node of that name; and an entry on the in side is the
    out entry of the other endpoint. *)
Theorem simple_index_matches_edge_store g0 cs g :
  multi g0 = false -> unindexed g0 = true -> uniqueNames (_nodes g0) = true ->
  _edges g0 = [] -> simpleMutations cs g0 = true -> run cs g0 = Ret g ->
  (forall e d, get e (_edges g) = Some d ->
     look (_nodes g) (outKeyOf d) (source d) (show (target d)) = Some (Single e)
     /\ (source d <> target d ->
         look (_nodes g) (inKeyOf d) (target d) (show (source d)) = Some (Single e)))
  /\ (forall u s t v, look (_nodes g) (outSlot u) s t = Some v ->
        exists e, v = Single e /\ stored g e u s t)
  /\ (forall u s t v, hasNode g s = true -> hasNode g t = true ->
        look (_nodes g) (inSlot u) t (show s) = Some v ->
        s <> t /\ look (_nodes g) (outSlot u) s (show t) = Some v).
Proof.
  intros M U Uq E0 Mu R.
  assert (X0 : exactSimple g0).
  { split.
    - rewrite E0. constructor.
    - intros u s t e. rewrite (unindexed_look _ _ _ _ U). split; [discriminate|].
      intros (d & G & _). rewrite E0 in G. discriminate.
    - intros k s t h. rewrite (unindexed_look _ _ _ _ U). discriminate.
    - intros e d G. rewrite E0 in G. discriminate. }
  destruct (@run_exactSimple cs g0 g M (neat_unindexed _ U Uq) X0 Mu R)
    as (_ & (_ & _ & [Mi Nl]) & [Ids Ent Sg En]).
  split; [|split].
  - intros e d G.
    assert (L : look (_nodes g) (outKeyOf d) (source d) (show (target d))
                = Some (Single e)) by (apply Ent; exists d; auto).
    split; [exact L|]. intros Nst.
    destruct (En _ _ G) as [Is It].
    rewrite <- L. symmetry. exact (Mi (undirected d) _ _ Is It Nst).
  - intros u s t v L. destruct v as [e|h]; [|exfalso; exact (Sg _ _ _ _ L)].
    exists e. split; [reflexivity|]. apply Ent, L.
  - intros u s t v Hs Ht L. apply hasNode_In in Hs, Ht.
    assert (Nst : s <> t).
    { intros ->. rewrite (Nl u t Ht) in L. discriminate. }
    split; [exact Nst|]. rewrite (Mi u s t Hs Ht Nst). exact L.
Qed.

Lemma simple_index_matches_edge_store_witness :
  look (_nodes (simpleWithAB true)) kOut (Str "A") "B" = Some (Single "ab"%string)
  /\ look (_nodes (simpleWithAB true)) kIn (Str "B") "A"
     = Some (Single "ab"%string).
Proof.
  destruct (@simple_index_matches_edge_store
              (simpleAB true) [AddEdge "ab" directedAB] (simpleWithAB true)
              eq_refl eq_refl eq_refl eq_refl eq_refl eq_refl) as (H & _).
  destruct (H "ab"%string directedAB eq_refl) as (Lo & Li).
  split; [exact Lo|]. apply Li. discriminate.
Defined.

(** ** The entries of a multigraph are sets, shared by both ends *)

Lemma updateStructureIndex_shared g e d g' :
  multi g = true -> updateStructureIndex g e d = Ret g' ->
  (forall k s t v, look (_nodes g) k s t = Some v -> isShared v = true) ->
  forall k s t v, look (_nodes g') k s t = Some v -> isShared v = true.
Proof.
  intros M E A k s t v L.
  destruct (updateStructureIndex_look _ _ _ E) as (v0 & v1 & _ & H1 & Sh & Lk).
  specialize (Sh M). rewrite Lk in L.
  destruct (at_ (outKeyOf d) _ _ k s t); [congruence|].
  destruct (eq_dec (source d) (target d)); [eapply A; eauto|].
  destruct (at_ (inKeyOf d) _ _ k s t); [|eapply A; eauto].
  injection L as <-. destruct H1 as [H1|[_ ->]]; [eapply A; eauto | exact Sh].
Qed.

Lemma step_multi g c g' : step g c = Ret g' -> multi g' = multi g.
Proof.
  destruct c as [e d|e|e d|e d| |]; simpl; intros E.
  - apply updateStructureIndex_frame in E. tauto.
  - unfold dropEdge in E. destruct (get e (_edges g)); [|congruence].
    apply clearEdgeFromStructureIndex_frame in E. tauto.
  - apply updateStructureIndex_frame in E. tauto.
  - apply clearEdgeFromStructureIndex_frame in E. tauto.
  - apply computeIndex_frame in E. tauto.
  - injection E as <-. reflexivity.
Qed.

Lemma computeIndex_shared g g' :
  multi g = true -> computeIndex g = Ret g' ->
  (forall k s t v, look (_nodes g) k s t = Some v -> isShared v = true) ->
  forall k s t v, look (_nodes g') k s t = Some v -> isShared v = true.
Proof.
  unfold computeIndex. destruct (computed g); [intros _ [= <-]; auto|].
  intros M E A.
  assert (F : forall g1,
             fold_left
               (fun acc '(edge, data) => g <- acc ;; updateStructureIndex g edge data)
               (_edges g) (Ret g) = Ret g1 ->
             multi g1 = true
             /\ forall k s t v, look (_nodes g1) k s t = Some v -> isShared v = true).
  { apply (fold_left_preserves
             (fun c => forall g1, c = Ret g1 ->
                multi g1 = true
                /\ forall k s t v, look (_nodes g1) k s t = Some v ->
                                   isShared v = true)).
    - intros g1 [= <-]. auto.
    - intros c [e d] Hc g1 E1. destruct c as [g0|]; [|discriminate].
      destruct (Hc g0 eq_refl) as [M0 A0]. cbn [bind] in E1. split.
      + destruct (updateStructureIndex_frame _ _ _ E1) as (_ & _ & -> & _). exact M0.
      + exact (@updateStructureIndex_shared g0 e d g1 M0 E1 A0). }
  destruct (fold_left _ _ _) as [g1|]; [|discriminate].
  injection E as <-. exact (proj2 (F g1 eq_refl)).
Qed.

Lemma step_shared g c g' :
  multi g = true -> step g c = Ret g' ->
  (forall k s t v, look (_nodes g) k s t = Some v -> isShared v = true) ->
  forall k s t v, look (_nodes g') k s t = Some v -> isShared v = true.
Proof.
  intros M E A. destruct c as [e d|e|e d|e d| |]; cbn [step] in E.
  - unfold addEdge, onEdgeAdded in E.
    exact (@updateStructureIndex_shared
             (with_edges g (set e d (_edges g))) e d g' M E A).
  - unfold dropEdge in E.
    destruct (get e (_edges g)) as [d|]; [|injection E as <-; exact A].
    unfold onEdgeRemoved in E.
    destruct (@clearEdgeFromStructureIndex_multi
                (with_edges g (del e (_edges g))) e d g' M E) as [-> _]. exact A.
  - exact (@updateStructureIndex_shared g e d g' M E A).
  - destruct (@clearEdgeFromStructureIndex_multi g e d g' M E) as [-> _]. exact A.
  - exact (@computeIndex_shared g g' M E A).
  - injection E as <-. intros k s t v L. simpl in L. rewrite look_cleared in L.
    discriminate.
Qed.

Lemma run_shared cs :
  forall g g',
    multi g = true -> run cs g = Ret g' ->
    (forall k s t v, look (_nodes g) k s t = Some v -> isShared v = true) ->
    forall k s t v, look (_nodes g') k s t = Some v -> isShared v = true.
Proof.
  induction cs as [|c cs IH]; intros g g' M R A; simpl in R.
  - injection R as <-. exact A.
  - destruct (step g c) as [g1|] eqn:St; [|discriminate]. cbn [bind] in R.
    apply (IH g1 g'); [rewrite (@step_multi g c g1 St); exact M | exact R|].
    exact (@step_shared g c g1 M St A).
Qed.

(** X21: in a multigraph whose index went from empty through any sequence
    of insertions, removals, builds and clears, every entry of every
    bucket is a set; and where the nodes are converted to distinct
    property names, the out entry of a node [s] under the name of another
    node [t] and the in entry of [t] under the name of [s] are one set
    instance. *)
Theorem multigraph_entries_are_shared_sets g0 cs g :
  multi g0 = true -> unindexed g0 = true -> run cs g0 = Ret g ->
  (forall k s t v, look (_nodes g) k s t = Some v -> exists h, v = Shared h)
  /\ (uniqueNames (_nodes g0) = true ->
      forall u s t v, hasNode g s = true -> hasNode g t = true -> s <> t ->
        look (_nodes g) (outSlot u) s (show t) = Some v ->
        exists h, v = Shared h
                  /\ look (_nodes g) (inSlot u) t (show s) = Some (Shared h)).
Proof.
  intros M U R.
  assert (A : forall k s t v, look (_nodes g) k s t = Some v -> exists h, v = Shared h).
  { intros k s t v L.
    assert (S : isShared v = true).
    { apply (@run_shared cs g0 g M R) with (k := k) (s := s) (t := t); [|exact L].
      intros k' s' t' v' L'. rewrite (unindexed_look _ _ _ _ U) in L'. discriminate. }
    destruct v as [x|h]; [discriminate | eauto]. }
  split; [exact A|].
  intros Un u s t v Hs Ht Nst L.
  destruct (@run_neat cs g0 g R (neat_unindexed _ U Un)) as (_ & _ & [Mi _]).
  destruct (A _ _ _ _ L) as (h & ->). exists h. split; [reflexivity|].
  rewrite <- L. symmetry. apply Mi; [apply hasNode_In, Hs | apply hasNode_In, Ht | exact Nst].
Qed.

Lemma multigraph_entries_are_shared_sets_witness :
  let g := after [AddEdge "e1" directedAB; AddEdge "e2" directedAB; ComputeIndex;
                  DropEdge "e1"] (nodesAB true true) in
  (exists h, Shared 0 = Shared h
             /\ look (_nodes g) kIn (Str "B") "A" = Some (Shared h))
  /\ members (sets g) 0 = ["e2"%string].
Proof.
  intros g. split; [|reflexivity].
  destruct (@multigraph_entries_are_shared_sets (nodesAB true true)
              [AddEdge "e1" directedAB; AddEdge "e2" directedAB; ComputeIndex;
               DropEdge "e1"] g eq_refl eq_refl eq_refl) as [_ P].
  apply (P eq_refl false (Str "A") (Str "B") (Shared 0));
    [reflexivity | reflexivity | discriminate | reflexivity].
Defined.

(** ** Nodes of one name *)

(** X22: two nodes converted to one property name, the node "A" and the
    node keyed by the array ["A"], share the properties of every bucket.
    In a simple graph, after "e1" from "A" to "T" and "e2" from ["A"] to
    "T" are added, the in bucket of "T" holds one entry under "A", the
    identifier "e1": the in entry for ["A"] is not its out entry "e2".
    Removing "e2" then deletes that entry: "e1" is still stored, and the
    in bucket of its target no longer holds it. *)
Theorem namesake_nodes_share_entries :
  let e1 := mkEdgeData (Str "A") (Str "T") false in
  let e2 := mkEdgeData (Arr ["A"%string]) (Str "T") false in
  let g1 := after [AddEdge "e1" e1] (namesakes false) in
  let g2 := after [AddEdge "e2" e2] g1 in
  let g3 := after [DropEdge "e2"] g2 in
  show (Str "A") = show (Arr ["A"%string])
  /\ uniqueNames (_nodes (namesakes false)) = false
  /\ look (_nodes g1) kOut (Arr ["A"%string]) "T" = None
  /\ look (_nodes g1) kIn (Str "T") "A" = Some (Single "e1")
  /\ run [AddEdge "e2" e2] g1 = Ret g2
  /\ look (_nodes g2) kOut (Arr ["A"%string]) "T" = Some (Single "e2")
  /\ look (_nodes g2) kIn (Str "T") "A" = Some (Single "e1")
  /\ run [DropEdge "e2"] g2 = Ret g3
  /\ get "e1"%string (_edges g3) = Some e1
  /\ look (_nodes g3) kOut (Str "A") "T" = Some (Single "e1")
  /\ look (_nodes g3) kIn (Str "T") "A" = None.
Proof. repeat split; reflexivity. Qed.

(** ** What the calls through the index return *)

Lemma mergeEdgesFromObject_merges_nothing edges object :
  mergeEdgesFromObject edges object = edges.
Proof.
  unfold mergeEdgesFromObject. destruct object as [b|]; [|reflexivity].
  revert edges. induction b as [|[n v] r IH]; intros edges; simpl; [reflexivity|].
  destruct v; simpl; apply IH.
Qed.

Lemma nodeDataOf_object g n d :
  map g = false -> nodeDataOf g n = Some d -> d = noData.
Proof.
  unfold nodeDataOf. intros ->. destruct (mem _ _); congruence.
Qed.

Lemma mergeEdges_outcome g n k edges :
  mergeEdges g (nodeDataOf g n) k edges
  = if stuck g n k then Throw TypeError else Ret edges.
Proof.
  unfold mergeEdges, stuck. destruct (nodeDataOf g n) as [d|] eqn:N; simpl;
    [|reflexivity].
  destruct (map g) eqn:M; simpl.
  - destruct (getB k d); reflexivity.
  - rewrite mergeEdgesFromObject_merges_nothing. reflexivity.
Qed.

Lemma visit_outcome count g n k key :
  visit count g (nodeDataOf g n) k key ([], Num 0)
  = if stuck g n k then Throw TypeError else Ret ([], Num 0).
Proof.
  unfold visit, stuck. destruct (nodeDataOf g n) as [d|] eqn:N; simpl; [|reflexivity].
  destruct (map g) eqn:M; simpl.
  - destruct (getB k d), count, key; reflexivity.
  - rewrite (nodeDataOf_object _ _ M N). destruct k, count, key; reflexivity.
Qed.

Lemma member_outcome op g type direction edges n :
  member op g type direction edges n
  = if negb (hasNode g n) then Throw (NotFoundGraphError op n InBunch)
    else if blocked g type direction n then Throw TypeError else Ret edges.
Proof.
  unfold member, blocked, slots. destruct (hasNode g n); [|reflexivity].
  cbn [negb existsb].
  destruct type, direction as [[|]|]; cbn [isType orb andb reads wants bind];
    rewrite ?mergeEdges_outcome;
    destruct (stuck g n kIn); cbn [bind orb andb]; rewrite ?mergeEdges_outcome;
    destruct (stuck g n kOut); cbn [bind orb andb]; rewrite ?mergeEdges_outcome;
    destruct (stuck g n kUndirectedIn); cbn [bind orb andb];
    rewrite ?mergeEdges_outcome;
    destruct (stuck g n kUndirectedOut); reflexivity.
Qed.

Lemma members_outcome op g type direction members edges :
  fold_left (fun acc node => edges <- acc ;; member op g type direction edges node)
            members (Ret edges)
  = match firstFailure op g type direction members with
    | Some e => Throw e
    | None => Ret edges
    end.
Proof.
  induction members as [|n rest IH]; cbn [fold_left firstFailure bind]; [reflexivity|].
  rewrite member_outcome.
  destruct (negb (hasNode g n));
    [apply (fold_left_Throw (member op g type direction))|].
  destruct (blocked g type direction n);
    [apply (fold_left_Throw (member op g type direction)) | exact IH].
Qed.

Lemma createEdgeArrayForBunch_outcome op g type direction bunch g1 :
  computeIndex g = Ret g1 ->
  createEdgeArrayForBunch op g type direction bunch
  = match firstFailure op g1 type direction (overBunch bunch) with
    | Some e => Throw e
    | None => Ret ([], g1)
    end.
Proof.
  intros C. unfold createEdgeArrayForBunch. rewrite C. cbn [bind].
  rewrite members_outcome. destruct (firstFailure _ _ _ _ _); reflexivity.
Qed.

Lemma createEdgeArrayForNode_outcome count g type direction n g1 :
  computeIndex g = Ret g1 ->
  createEdgeArrayForNode count g type direction n
  = if blocked g1 type direction n then Throw TypeError
    else Ret (nothing count, g1).
Proof.
  intros C. unfold createEdgeArrayForNode, blocked, slots, nothing. rewrite C.
  cbn [bind existsb].
  destruct type, direction as [[|]|]; cbn [isType orb andb reads wants bind];
    rewrite ?visit_outcome;
    destruct (stuck g1 n kIn); cbn [bind orb andb]; rewrite ?visit_outcome;
    destruct (stuck g1 n kOut); cbn [bind orb andb]; rewrite ?visit_outcome;
    destruct (stuck g1 n kUndirectedIn); cbn [bind orb andb];
    rewrite ?visit_outcome;
    destruct (stuck g1 n kUndirectedOut); cbn [bind orb andb];
    destruct count; reflexivity.
Qed.

Lemma createEdgeArrayForPath_outcome count g type s t g1 :
  computeIndex g = Ret g1 ->
  createEdgeArrayForPath count g type s t
  = if blocked g1 type None s then Throw TypeError
    else Ret (nothing count, g1).
Proof.
  intros C. unfold createEdgeArrayForPath, blocked, slots, nothing. rewrite C.
  cbn [bind existsb].
  destruct type; cbn [isType orb andb reads wants bind];
    rewrite ?visit_outcome;
    destruct (stuck g1 s kIn); cbn [bind orb andb]; rewrite ?visit_outcome;
    destruct (stuck g1 s kOut); cbn [bind orb andb]; rewrite ?visit_outcome;
    destruct (stuck g1 s kUndirectedIn); cbn [bind orb andb];
    rewrite ?visit_outcome;
    destruct (stuck g1 s kUndirectedOut); cbn [bind orb andb];
    destruct count; reflexivity.
Qed.

(** ** Calls with one or two arguments *)

Lemma createEdgeArrayForNode_Throw count g type direction n e :
  computeIndex g = Throw e -> createEdgeArrayForNode count g type direction n = Throw e.
Proof. intros C. unfold createEdgeArrayForNode. rewrite C. reflexivity. Qed.

Lemma createEdgeArrayForPath_Throw count g type s t e :
  computeIndex g = Throw e -> createEdgeArrayForPath count g type s t = Throw e.
Proof. intros C. unfold createEdgeArrayForPath. rewrite C. reflexivity. Qed.

Lemma createEdgeArrayForBunch_Throw op g type direction bunch e :
  computeIndex g = Throw e -> createEdgeArrayForBunch op g type direction bunch = Throw e.
Proof. intros C. unfold createEdgeArrayForBunch. rewrite C. reflexivity. Qed.

Lemma blocked_intro g type direction n k :
  reads type direction k = true -> stuck g n k = true ->
  blocked g type direction n = true.
Proof.
  intros R S. unfold blocked. apply existsb_exists. exists k.
  split; [destruct k; simpl; auto|]. rewrite R, S. reflexivity.
Qed.

(** Through the [Map] helpers a bucket that exists raises. *)
Lemma stuck_bucket g n k :
  map g = true -> bucketAt (_nodes g) k n <> None -> stuck g n k = true.
Proof.
  unfold stuck, nodeDataOf, bucketAt. intros -> B.
  destruct (get n (_nodes g)) as [d|]; [|reflexivity].
  destruct (getB k d); [reflexivity | contradiction].
Qed.

Lemma stuck_map g n k :
  map g = true -> hasNode g n = true ->
  stuck g n k = true <-> bucketAt (_nodes g) k n <> None.
Proof.
  unfold stuck, nodeDataOf, bucketAt, hasNode, has. intros -> H.
  destruct (get n (_nodes g)) as [d|]; [|discriminate].
  destruct (getB k d); simpl; split; congruence.
Qed.

(** Without them the record of a node is read as a property of the [Map]
    object, and there is none under the name of a node. *)
Lemma stuck_object g n k :
  map g = false -> stuck g n k = negb (mem (show n) inherited).
Proof.
  unfold stuck, nodeDataOf. intros ->. destruct (mem _ _); reflexivity.
Qed.

(** A call with one argument that names a node of the graph. *)
Lemma node_call counter description this n g1 :
  hasNode this n = true -> computeIndex this = Ret g1 ->
  attachEdgeArrayCreator counter description this [n]
  = if blocked g1 (type description) (direction description) n
    then Throw TypeError
    else Ret (nothing counter, g1).
Proof.
  intros H C. unfold attachEdgeArrayCreator. rewrite H.
  apply createEdgeArrayForNode_outcome, C.
Qed.

(** A call with two arguments that name nodes of the graph. *)
Lemma path_call counter description this s t g1 :
  hasNode this s = true -> hasNode this t = true -> computeIndex this = Ret g1 ->
  attachEdgeArrayCreator counter description this [s; t]
  = if negb (hasEdgeOfType (type description) this s t)
    then Ret (nothing counter, this)
    else if blocked g1 (type description) None s then Throw TypeError
         else Ret (nothing counter, g1).
Proof.
  intros Hs Ht C. unfold attachEdgeArrayCreator, hasEdgeOfType, nothing.
  rewrite Hs, Ht. cbn [negb].
  destruct (negb _); [reflexivity|].
  apply createEdgeArrayForPath_outcome, C.
Qed.

(** A call with one argument that is a bunch and no node. *)
Lemma bunch_call counter description this bunch g1 :
  hasNode this bunch = false -> isBunch bunch = true ->
  computeIndex this = Ret g1 ->
  attachEdgeArrayCreator counter description this [bunch]
  = match firstFailure (methodName counter description) g1 (type description)
            (direction description) (overBunch bunch) with
    | Some e => Throw e
    | None => Ret (nothing counter, g1)
    end.
Proof.
  intros H B C. unfold attachEdgeArrayCreator, methodName, nothing. rewrite H, B.
  rewrite (@createEdgeArrayForBunch_outcome _ this _ _ bunch g1 C).
  destruct (firstFailure _ _ _ _ _); [reflexivity|].
  destruct counter; reflexivity.
Qed.

(** X13: what a call through the index returns, once the index is built.
    With one argument that names a node: [TypeError] when a bucket the call
    reads raises ([blocked]), the empty collection, or 0, otherwise.  With
    two arguments that name nodes: the empty collection, or 0, and the
    index left as it is when the existence check fails; otherwise
    [TypeError] when a bucket of the source that the type reads raises, and
    the empty collection, or 0, when none does.  With one argument that is
    a bunch and no node: the members are gone through in order and the
    first that fails decides, a member the graph does not have with
    [NotFoundGraphError] for that member, a member with a bucket that
    raises with [TypeError]; when no member fails the result is the empty
    collection, or 0. *)
Theorem calls_through_the_index counter description this g1 :
  computeIndex this = Ret g1 ->
  let call := attachEdgeArrayCreator counter description this in
  let type := type description in
  let direction := direction description in
  (forall n, hasNode this n = true ->
     call [n] = if blocked g1 type direction n then Throw TypeError
                else Ret (nothing counter, g1))
  /\ (forall s t, hasNode this s = true -> hasNode this t = true ->
        call [s; t] = if negb (hasEdgeOfType type this s t)
                      then Ret (nothing counter, this)
                      else if blocked g1 type None s then Throw TypeError
                           else Ret (nothing counter, g1))
  /\ (forall bunch, hasNode this bunch = false -> isBunch bunch = true ->
        call [bunch]
        = match firstFailure (methodName counter description) g1 type direction
                  (overBunch bunch) with
          | Some e => Throw e
          | None => Ret (nothing counter, g1)
          end).
Proof.
  intros C call ty dir. subst call ty dir. split; [|split].
  - intros n H. apply node_call; assumption.
  - intros s t Hs Ht. apply path_call; assumption.
  - intros bunch H B. apply bunch_call; assumption.
Qed.

Lemma calls_through_the_index_witness :
  attachEdgeArrayCreator false outEdgesFamily multiAB [Str "A"] = Throw TypeError
  /\ attachEdgeArrayCreator true inEdgesFamily multiAB [Str "A"]
     = Ret (Count (Num 0), multiAB)
  /\ attachEdgeArrayCreator false edgesFamily multiAB [Str "A"; Str "B"]
     = Throw TypeError
  /\ attachEdgeArrayCreator false inEdgesFamily multiAB [Arr ["A"; "X"; "B"]%string]
     = Throw (NotFoundGraphError "inEdges" (Str "X") InBunch)
  /\ attachEdgeArrayCreator false edgesFamily multiAB [Arr ["A"; "X"; "B"]%string]
     = Throw TypeError.
Proof.
  assert (C : computeIndex multiAB = Ret multiAB) by reflexivity.
  destruct (@calls_through_the_index false outEdgesFamily multiAB multiAB C)
    as (N1 & _).
  destruct (@calls_through_the_index true inEdgesFamily multiAB multiAB C)
    as (N2 & _).
  destruct (@calls_through_the_index false edgesFamily multiAB multiAB C)
    as (_ & P3 & B5).
  destruct (@calls_through_the_index false inEdgesFamily multiAB multiAB C)
    as (_ & _ & B4).
  split; [apply (N1 (Str "A")); reflexivity|].
  split; [apply (N2 (Str "A")); reflexivity|].
  split; [apply (P3 (Str "A") (Str "B")); reflexivity|].
  split; [apply (B4 (Arr ["A"; "X"; "B"]%string)); reflexivity|].
  apply (B5 (Arr ["A"; "X"; "B"]%string)); reflexivity.
Defined.

(** X14: no call with arguments lists an edge: whatever the graph, the
    family, the mode and the arguments, a call with at least one argument
    that returns returns the empty collection, or 0. *)
Theorem calls_with_arguments_list_nothing counter description this args r g' :
  args <> [] ->
  attachEdgeArrayCreator counter description this args = Ret (r, g') ->
  r = nothing counter.
Proof.
  intros Na E. destruct args as [|a [|b [|c rest]]]; [contradiction| | |discriminate].
  - destruct (hasNode this a) eqn:Ha.
    + destruct (computeIndex this) as [g1|e] eqn:C.
      * rewrite (@node_call counter description this a g1 Ha C) in E.
        destruct (blocked _ _ _ _); congruence.
      * unfold attachEdgeArrayCreator in E. rewrite Ha in E.
        rewrite (@createEdgeArrayForNode_Throw counter this _ _ a e C) in E. discriminate.
    + destruct (isBunch a) eqn:Ba.
      * destruct (computeIndex this) as [g1|e] eqn:C.
        -- rewrite (@bunch_call counter description this a g1 Ha Ba C) in E.
           destruct (firstFailure _ _ _ _ _); congruence.
        -- unfold attachEdgeArrayCreator in E. rewrite Ha, Ba in E.
           rewrite (@createEdgeArrayForBunch_Throw _ this _ _ a e C) in E. discriminate.
      * unfold attachEdgeArrayCreator in E. rewrite Ha, Ba in E. discriminate.
  - destruct (hasNode this a) eqn:Ha;
      [|unfold attachEdgeArrayCreator in E; rewrite Ha in E; discriminate].
    destruct (hasNode this b) eqn:Hb;
      [|unfold attachEdgeArrayCreator in E; rewrite Ha, Hb in E; discriminate].
    destruct (computeIndex this) as [g1|e] eqn:C.
    + rewrite (@path_call counter description this a b g1 Ha Hb C) in E.
      destruct (negb _); [congruence|]. destruct (blocked _ _ _ _); congruence.
    + unfold attachEdgeArrayCreator in E. rewrite Ha, Hb in E. cbn [negb] in E.
      destruct (negb _); [unfold nothing; destruct counter; congruence|].
      rewrite (@createEdgeArrayForPath_Throw counter this _ a b e C) in E. discriminate.
Qed.

Lemma calls_with_arguments_list_nothing_witness :
  attachEdgeArrayCreator false inEdgesFamily multiAB [Str "A"]
  = Ret (Edges [], multiAB)
  /\ Edges [] = nothing false.
Proof.
  split; [reflexivity|].
  apply (@calls_with_arguments_list_nothing false inEdgesFamily multiAB [Str "A"]
           (Edges []) multiAB); [discriminate | reflexivity].
Defined.

(** ** Where the calls raise *)

Lemma In_set_eq {K V} `{EqDec K} (k : K) (v : V) l : In (k, v) (set k v l).
Proof.
  induction l as [|[k' v'] r IH]; simpl; [auto|].
  destruct (eq_dec k k') as [<-|N]; simpl; auto.
Qed.

Lemma hasDirectedEdge_In g e d :
  In (e, d) (_edges g) -> undirected d = false ->
  hasDirectedEdge g (source d) (target d) = true.
Proof.
  intros I U. unfold hasDirectedEdge. apply existsb_exists. exists (e, d).
  split; [exact I|]. rewrite U. simpl.
  destruct (eq_dec (source d) (source d)); [|congruence].
  destruct (eq_dec (target d) (target d)); [reflexivity | congruence].
Qed.

Lemma hasUndirectedEdge_In g e d :
  In (e, d) (_edges g) -> undirected d = true ->
  hasUndirectedEdge g (source d) (target d) = true.
Proof.
  intros I U. unfold hasUndirectedEdge. apply existsb_exists. exists (e, d).
  split; [exact I|]. rewrite U. simpl.
  destruct (eq_dec (source d) (source d)); [|congruence].
  destruct (eq_dec (target d) (target d)); [reflexivity | congruence].
Qed.

(** X15: on a graph with a built index, read through the [Map] helpers,
    once the mutation API has added an edge, every one-node call on the
    source that reads its out-side bucket raises [TypeError], and so does
    every one-node call on the target that reads its in-side bucket, and
    every two-node call from the source to the target whose existence
    check finds the edge: in a simple graph as in a multigraph, in both
    modes. *)
Theorem added_edge_blocks_calls counter description g e d g' :
  computed g = true -> map g = true -> addEdge g e d = Ret g' ->
  let call := attachEdgeArrayCreator counter description g' in
  let type := type description in
  let direction := direction description in
  (reads type direction (outKeyOf d) = true -> call [source d] = Throw TypeError)
  /\ (source d <> target d -> reads type direction (inKeyOf d) = true ->
      call [target d] = Throw TypeError)
  /\ (reads type None (outKeyOf d) = true ->
      (isType type mixed = true -> undirected d = false) ->
      call [source d; target d] = Throw TypeError).
Proof.
  intros C M E call ty dir. subst call ty dir.
  unfold addEdge, onEdgeAdded in E.
  destruct (updateStructureIndex_frame _ _ _ E) as (_ & M' & _ & Ed & C').
  cbn [map computed _edges with_edges] in M', Ed, C'.
  rewrite M in M'. rewrite C in C'.
  pose proof (computeIndex_built _ C') as B.
  destruct (updateStructureIndex_buckets _ _ _ E) as (Hs & Ht & Bo & Bi).
  split; [|split].
  - intros R. rewrite (@node_call counter description g' (source d) g' Hs B).
    rewrite (@blocked_intro g' _ _ (source d) (outKeyOf d) R); [reflexivity|].
    apply stuck_bucket; assumption.
  - intros Nst R. rewrite (@node_call counter description g' (target d) g' Ht B).
    rewrite (@blocked_intro g' _ _ (target d) (inKeyOf d) R); [reflexivity|].
    apply stuck_bucket; auto.
  - intros R Mx.
    rewrite (@path_call counter description g' (source d) (target d) g' Hs Ht B).
    assert (I : In (e, d) (_edges g')) by (rewrite Ed; apply In_set_eq).
    assert (X : hasEdgeOfType (type description) g' (source d) (target d) = true).
    { unfold hasEdgeOfType, outKeyOf, outSlot in *.
      destruct (type description), (undirected d) eqn:U; simpl in *;
        try discriminate;
        try (apply (hasDirectedEdge_In _ _ _ I U));
        try (apply (hasUndirectedEdge_In _ _ _ I U)).
      specialize (Mx eq_refl). discriminate. }
    rewrite X. cbn [negb].
    rewrite (@blocked_intro g' _ _ (source d) (outKeyOf d) R); [reflexivity|].
    apply stuck_bucket; assumption.
Qed.

Lemma added_edge_blocks_calls_witness :
  attachEdgeArrayCreator false outEdgesFamily (multiWithAB true) [Str "A"]
  = Throw TypeError
  /\ attachEdgeArrayCreator true inEdgesFamily (simpleWithAB true) [Str "B"]
     = Throw TypeError
  /\ attachEdgeArrayCreator false edgesFamily (simpleWithAB true) [Str "A"; Str "B"]
     = Throw TypeError.
Proof.
  destruct (@added_edge_blocks_calls false outEdgesFamily (nodesAB true true) "ab"
              directedAB (multiWithAB true) eq_refl eq_refl eq_refl) as (S1 & _).
  destruct (@added_edge_blocks_calls true inEdgesFamily (simpleAB true) "ab"
              directedAB (simpleWithAB true) eq_refl eq_refl eq_refl) as (_ & S2 & _).
  destruct (@added_edge_blocks_calls false edgesFamily (simpleAB true) "ab"
              directedAB (simpleWithAB true) eq_refl eq_refl eq_refl) as (_ & _ & S3).
  split; [apply S1; reflexivity|].
  split; [apply S2; [discriminate | reflexivity]|].
  apply S3; [reflexivity | intros _; reflexivity].
Defined.

Lemma reads_some type direction :
  isType type selfLoops = false -> exists k, reads type direction k = true.
Proof.
  destruct type; try discriminate; intros _;
    destruct direction as [[|]|];
    first [ exists kIn; reflexivity | exists kOut; reflexivity
          | exists kUndirectedIn; reflexivity | exists kUndirectedOut; reflexivity ].
Qed.

(** X18: on a graph that is not read through the [Map] helpers
    ([graph.map] false), the record of a node is looked up as a property of
    the node store, a [Map]; under a name that the prototypes of a [Map] do
    not answer there is none, and every one-node call of a family other
    than [selfLoops] raises [TypeError], whatever the index holds; so does
    every two-node call whose existence check succeeds. *)
Theorem object_mode_calls_raise counter description this g1 n :
  map this = false -> computeIndex this = Ret g1 ->
  hasNode this n = true -> mem (show n) inherited = false ->
  isType (type description) selfLoops = false ->
  attachEdgeArrayCreator counter description this [n] = Throw TypeError
  /\ forall t, hasNode this t = true ->
               hasEdgeOfType (type description) this n t = true ->
               attachEdgeArrayCreator counter description this [n; t]
               = Throw TypeError.
Proof.
  intros M C H I Ty.
  destruct (computeIndex_frame _ C) as (_ & M1 & _). rewrite M in M1.
  assert (B : forall direction,
             blocked g1 (type description) direction n = true).
  { intros direction. destruct (@reads_some (type description) direction Ty) as (k & R).
    apply (@blocked_intro g1 _ _ n k R). rewrite stuck_object by exact M1.
    rewrite I. reflexivity. }
  split.
  - rewrite (@node_call counter description this n g1 H C), B. reflexivity.
  - intros t Ht X.
    rewrite (@path_call counter description this n t g1 H Ht C), X, B. reflexivity.
Qed.

Lemma object_mode_calls_raise_witness :
  attachEdgeArrayCreator false edgesFamily (nodesAB true false) [Str "A"]
  = Throw TypeError
  /\ attachEdgeArrayCreator false edgesFamily (multiWithAB false) [Str "A"; Str "B"]
     = Throw TypeError.
Proof.
  split.
  - apply (@object_mode_calls_raise false edgesFamily (nodesAB true false)
             (nodesAB true false) (Str "A")); reflexivity.
  - apply (@object_mode_calls_raise false edgesFamily (multiWithAB false)
             (multiWithAB false) (Str "A")); reflexivity.
Defined.

(** ** The helpers on a bucket of the index *)

Lemma collect_fold_sets (b : bucket) (edges : list item) :
  bucketOfSets b = true ->
  fold_left (fun acc '(_, v) => edges <- acc ;; x <- values v ;; Ret (pushApply edges x))
            b (Ret edges)
  = Ret edges.
Proof.
  induction b as [|[n v] r IH]; simpl; [reflexivity|].
  intros S. apply andb_true_iff in S as [Sv Sr].
  destruct v as [x|h]; [discriminate|]. simpl. apply IH, Sr.
Qed.

Lemma count_fold_sets (s : store) (b : bucket) (n : nat) :
  bucketOfSets b = true ->
  fold_left (fun nb '(_, v) => plus nb (sizeOf s v)) b (Num n) = Num (n + sizes s b).
Proof.
  revert n. induction b as [|[m v] r IH]; intros n; simpl.
  - intros _. unfold sizes. simpl. rewrite Nat.add_0_r. reflexivity.
  - intros S. apply andb_true_iff in S as [Sv Sr].
    destruct v as [x|h]; [discriminate|]. simpl. rewrite (IH _ Sr).
    unfold sizes. simpl. rewrite Nat.add_assoc. reflexivity.
Qed.

(** X23: the six helpers on a bucket as [updateStructureIndex] builds it.
    The three helpers of a [Map] raise [TypeError] on every bucket, with a
    key or without.  Of the three helpers of a plain object:
    [mergeEdgesFromObject] merges nothing; [countEdgesFromObject] returns
    the size of the set under the key, and without a key the sizes of the
    sets added up; [collectEdgesFromObject] returns the iterator of the set
    under the key, no array, and without a key the empty array, so that on
    a bucket of sets the count is not the length of what is collected as
    soon as a set has a member. *)
Theorem helpers_on_a_bucket (s : store) (b : bucket) :
  (forall key, collectEdgesFromMap (Some b) key = Throw TypeError
               /\ countEdgesFromMap (Some b) key = Throw TypeError)
  /\ (forall edges, mergeEdgesFromMap edges (Some b) = Throw TypeError
                    /\ mergeEdgesFromObject edges (Some b) = edges)
  /\ (forall key h, get (show key) b = Some (Shared h) ->
        collectEdgesFromObject (Some b) (Some key) = Ret (Iterator h)
        /\ countEdgesFromObject s (Some b) (Some key)
           = Num (List.length (members s h)))
  /\ (bucketOfSets b = true ->
      collectEdgesFromObject (Some b) None = Ret (Array [])
      /\ countEdgesFromObject s (Some b) None = Num (sizes s b)).
Proof.
  split; [|split; [|split]].
  - intros [key|]; split; reflexivity.
  - intros edges. split; [reflexivity|]. apply mergeEdgesFromObject_merges_nothing.
  - intros key h G. unfold collectEdgesFromObject, countEdgesFromObject.
    rewrite G. split; reflexivity.
  - intros S. unfold collectEdgesFromObject, countEdgesFromObject. split.
    + rewrite (collect_fold_sets b [] S). reflexivity.
    + rewrite (count_fold_sets s b 0 S). reflexivity.
Qed.

Lemma helpers_on_a_bucket_witness :
  collectEdgesFromObject (Some [("B"%string, Shared 0)]) (Some (Str "B"))
  = Ret (Iterator 0)
  /\ collectEdgesFromObject (Some [("B"%string, Shared 0)]) None = Ret (Array [])
  /\ countEdgesFromObject [["ab"%string]] (Some [("B"%string, Shared 0)]) None = Num 1.
Proof.
  destruct (helpers_on_a_bucket [["ab"%string]] [("B"%string, Shared 0)])
    as (_ & _ & K & U).
  split; [exact (proj1 (K (Str "B") 0 eq_refl))|].
  split; [exact (proj1 (U eq_refl)) | exact (proj2 (U eq_refl))].
Defined.

(** ** The scan of the canonical edges *)

Lemma scan_kept (count : bool) type (edges : list (edge * EdgeData))
  (found : list item) (nb : nat) :
  fold_left
    (fun '((l, nb) : list item * nat) '((e, data) : edge * EdgeData) =>
       if keeps type data
       then ((if count then l else l ++ [Id e]), S nb)
       else (l, nb))
    edges (found, nb)
  = ((if count then found else found ++ List.map Id (keys (kept type edges))),
     nb + List.length (kept type edges)).
Proof.
  revert found nb. induction edges as [|[e d] r IH]; intros found nb; simpl.
  - destruct count; rewrite ?app_nil_r, Nat.add_0_r; reflexivity.
  - destruct (keeps type d); rewrite IH; simpl.
    + destruct count; rewrite <- ?app_assoc, Nat.add_succ_r; reflexivity.
    + reflexivity.
Qed.

Lemma createEdgeArray_scan count g type :
  createEdgeArray count g type
  = if count && isType type mixed then Count (size g)
    else if isType type mixed then Edges (List.map Id (keys (_edges g)))
         else if count then Count (Num (List.length (kept type (_edges g))))
              else Edges (List.map Id (keys (kept type (_edges g)))).
Proof.
  unfold createEdgeArray. cbv zeta. rewrite scan_kept.
  destruct count, (map g), (isType type mixed); reflexivity.
Qed.

Lemma createEdgeArray_collect g type :
  createEdgeArray false g type = Edges (List.map Id (listed type g)).
Proof.
  rewrite createEdgeArray_scan. unfold listed.
  destruct (isType type mixed); reflexivity.
Qed.

Lemma createEdgeArray_count g type :
  createEdgeArray true g type = Count (Num (List.length (listed type g))).
Proof.
  rewrite createEdgeArray_scan. unfold listed, size, keys.
  destruct (isType type mixed); simpl; rewrite ?length_map; reflexivity.
Qed.

Lemma In_kept type e (edges : list (edge * EdgeData)) :
  In e (keys (kept type edges))
  <-> exists data, In (e, data) edges /\ keeps type data = true.
Proof.
  unfold keys, kept. rewrite in_map_iff. split.
  - intros [[e' d] [<- I]]. apply filter_In in I. exists d. exact I.
  - intros [d I]. exists (e, d). split; [reflexivity|]. apply filter_In. exact I.
Qed.

Lemma keeps_directed data :
  keeps directed data = true <-> undirected data = false /\ source data <> target data.
Proof.
  unfold keeps. simpl. destruct (eq_dec (source data) (target data)), (undirected data);
    simpl; split; intros; try discriminate; try tauto; intuition congruence.
Qed.

Lemma keeps_undirected data :
  keeps undirectedType data = true
  <-> undirected data = true /\ source data <> target data.
Proof.
  unfold keeps. simpl. destruct (eq_dec (source data) (target data)), (undirected data);
    simpl; split; intros; try discriminate; try tauto; intuition congruence.
Qed.

Lemma keeps_selfLoops data :
  keeps selfLoops data = true <-> undirected data = false /\ source data = target data.
Proof.
  unfold keeps. simpl. destruct (eq_dec (source data) (target data)), (undirected data);
    simpl; split; intros; try discriminate; try tauto; intuition congruence.
Qed.

(** C4, as the code has it: an arity-0 collect call lists, in the order of
    the canonical edge store, every edge for [edges]; for [directedEdges]
    exactly the edges that are not undirected and whose source differs from
    their target; for [undirectedEdges] exactly the undirected edges whose
    source differs from their target; for [selfLoops] only edges whose
    source is their target, every directed one among them. *)
Theorem arity0_lists_by_type (description : Description) (g : Graph) :
  attachEdgeArrayCreator false description g []
  = Ret (Edges (List.map Id (listed (type description) g)), g)
  /\ listed mixed g = keys (_edges g)
  /\ (forall e, In e (listed directed g)
                <-> exists data, In (e, data) (_edges g)
                                 /\ undirected data = false
                                 /\ source data <> target data)
  /\ (forall e, In e (listed undirectedType g)
                <-> exists data, In (e, data) (_edges g)
                                 /\ undirected data = true
                                 /\ source data <> target data)
  /\ (forall e, In e (listed selfLoops g)
                -> exists data, In (e, data) (_edges g) /\ source data = target data)
  /\ (forall e data, In (e, data) (_edges g) -> source data = target data ->
                     undirected data = false -> In e (listed selfLoops g)).
Proof.
  split; [|split; [|split; [|split; [|split]]]].
  - unfold attachEdgeArrayCreator. rewrite createEdgeArray_collect. reflexivity.
  - reflexivity.
  - intros e. unfold listed; simpl. rewrite In_kept.
    split; intros [d [I K]]; exists d; split; auto; apply keeps_directed; auto.
  - intros e. unfold listed; simpl. rewrite In_kept.
    split; intros [d [I K]]; exists d; split; auto; apply keeps_undirected; auto.
  - intros e. unfold listed; simpl. rewrite In_kept.
    intros [d [I K]]. exists d. split; auto. apply keeps_selfLoops in K. tauto.
  - intros e d I S U. unfold listed; simpl. rewrite In_kept.
    exists d. split; auto. apply keeps_selfLoops. auto.
Qed.

Lemma arity0_lists_by_type_witness :
  attachEdgeArrayCreator false
    (mkDescription "directedEdges" "countDirectedEdges" directed None) loops []
  = Ret (Edges [Id "ab"], loops)
  /\ In "aa"%string (listed selfLoops loops).
Proof.
  split.
  - exact (proj1 (arity0_lists_by_type
                    (mkDescription "directedEdges" "countDirectedEdges" directed None)
                    loops)).
  - apply (proj2 (proj2 (proj2 (proj2 (proj2
             (arity0_lists_by_type edgesFamily loops))))))
      with (data := mkEdgeData (Str "A") (Str "A") false); simpl; auto.
Defined.

(** C4 as stated fails: "aa" is a canonical edge that is not undirected, and
    [directedEdges()] does not list it; "uu" is an undirected canonical
    edge, and [undirectedEdges()] does not list it. *)
Lemma loops_not_listed_by_direction :
  In ("aa"%string, mkEdgeData (Str "A") (Str "A") false) (_edges loops)
  /\ attachEdgeArrayCreator false
       (mkDescription "directedEdges" "countDirectedEdges" directed None) loops []
     = Ret (Edges [Id "ab"], loops)
  /\ In ("uu"%string, mkEdgeData (Str "A") (Str "A") true) (_edges loops)
  /\ attachEdgeArrayCreator false
       (mkDescription "undirectedEdges" "countUndirectedEdges" undirectedType None)
       loops []
     = Ret (Edges [Id "ba"], loops).
Proof. simpl. repeat split; auto. Qed.

(** ** What an error says *)

Lemma member_errors name g type direction edges n e :
  member name g type direction edges n = Throw e ->
  e = TypeError \/ (e = NotFoundGraphError name n InBunch /\ hasNode g n = false).
Proof.
  unfold member. destruct (hasNode g n); cbn [negb].
  - intros E. left.
    match type of E with ?X = Throw _ => assert (O : onlyTypeError X) end;
      [|exact (O e E)].
    clear E. cbv zeta.
    repeat match goal with
           | |- onlyTypeError (if ?c then _ else _) => destruct c
           | |- onlyTypeError (bind _ _) => apply bind_onlyTypeError; [|intros]
           end; auto with exc.
  - intros [= <-]. auto.
Qed.

Lemma bunch_errors name g type direction (all : list node) e :
  forall l acc,
    incl l all ->
    fold_left (fun acc node => edges <- acc ;; member name g type direction edges node)
              l acc = Throw e ->
    acc = Throw e
    \/ e = TypeError
    \/ exists x, e = NotFoundGraphError name x InBunch /\ In x all
                 /\ hasNode g x = false.
Proof.
  induction l as [|n r IH]; intros acc I E; [left; exact E|].
  cbn [fold_left] in E.
  destruct (IH _ (fun x Ix => I x (or_intror Ix)) E) as [B|B]; [|right; exact B].
  destruct acc as [edges|e']; [|left; exact B]. cbn [bind] in B. right.
  destruct (@member_errors name g type direction edges n e B) as [T|[N H]]; [left; exact T|].
  right. exists n. split; [exact N|]. split; [apply I; simpl; auto | exact H].
Qed.

Lemma createEdgeArrayForBunch_truthful name g type direction bunch e :
  createEdgeArrayForBunch name g type direction bunch = Throw e ->
  e = TypeError
  \/ exists x, e = NotFoundGraphError name x InBunch /\ In x (overBunch bunch)
               /\ hasNode g x = false.
Proof.
  unfold createEdgeArrayForBunch. intros E.
  destruct (computeIndex g) as [g1|e1] eqn:C.
  - cbn [bind] in E.
    destruct (fold_left _ (overBunch bunch) (Ret [])) as [l|e2] eqn:F;
      [discriminate|].
    cbn [bind] in E. injection E as <-.
    destruct (@bunch_errors name g1 type direction (overBunch bunch) e2
                (overBunch bunch) (Ret []) (incl_refl _) F)
      as [B|[T|(x & N & I & H)]]; [discriminate | auto |].
    right. exists x. split; [exact N|]. split; [exact I|].
    destruct (computeIndex_frame _ C) as (K & _). rewrite <- (hasNode_keys _ _ _ K).
    exact H.
  - cbn [bind] in E. injection E as <-. left.
    exact (computeIndex_onlyTypeError _ C).
Qed.

(** X16: every error of a call is truthful.  A [NotFoundGraphError] names
    the method called and an identifier the call was given (the argument,
    a member of the bunch, the source or the target), and the graph has no
    node under that identifier; a target is reported only when the source
    exists.  An [InvalidArgumentsGraphError] is raised only with more than
    two arguments and carries their number.  A call without arguments
    raises nothing. *)
Theorem errors_are_truthful counter description this args e :
  attachEdgeArrayCreator counter description this args = Throw e ->
  truthful counter description this args e.
Proof.
  unfold attachEdgeArrayCreator. fold (methodName counter description). cbv zeta.
  destruct args as [|a [|b [|c r]]].
  - discriminate.
  - destruct (hasNode this a) eqn:Ha.
    { intros E. rewrite (createEdgeArrayForNode_onlyTypeError _ _ _ _ _ E).
      simpl. auto. }
    destruct (isBunch a) eqn:Ba.
    + destruct (createEdgeArrayForBunch _ this _ _ a) as [[l g1]|e1] eqn:B;
        [discriminate|].
      cbn [bind]. intros [= <-].
      destruct (@createEdgeArrayForBunch_truthful _ _ _ _ _ _ B) as [->|(x & -> & I & H)].
      * simpl. auto.
      * simpl. split; [reflexivity|]. split; [exact H|]. exists a. auto.
    + intros [= <-]. simpl. auto.
  - destruct (hasNode this a) eqn:Ha; cbn [negb].
    2:{ intros [= <-]. simpl. split; [reflexivity|]. split; [exact Ha|]. eauto. }
    destruct (hasNode this b) eqn:Hb; cbn [negb].
    2:{ intros [= <-]. simpl. split; [reflexivity|]. split; [exact Hb|]. eauto. }
    destruct (negb _); [discriminate|].
    intros E. rewrite (createEdgeArrayForPath_onlyTypeError _ _ _ _ _ E).
    simpl. auto.
  - intros [= <-]. simpl. split; [reflexivity|]. split; [reflexivity|]. lia.
Qed.

Lemma errors_are_truthful_witness :
  truthful false inEdgesFamily multiAB [Arr ["A"; "X"]%string]
           (NotFoundGraphError "inEdges" (Str "X") InBunch)
  /\ truthful false edgesFamily multiAB [Arr ["A"; "X"]%string] TypeError.
Proof.
  split.
  - apply (@errors_are_truthful false inEdgesFamily multiAB [Arr ["A"; "X"]%string]
             (NotFoundGraphError "inEdges" (Str "X") InBunch)).
    reflexivity.
  - apply (@errors_are_truthful false edgesFamily multiAB [Arr ["A"; "X"]%string]
             TypeError).
    reflexivity.
Defined.

(** ** Calls without arguments *)

Lemma NoDup_keys_filter {K V} (f : K * V -> bool) (l : list (K * V)) :
  NoDup (keys l) -> NoDup (keys (filter f l)).
Proof.
  unfold keys. induction l as [|p r IH]; simpl; [auto|].
  intros N. inversion N as [|? ? Nin Nr]; subst.
  destruct (f p); simpl; [|auto]. constructor; [|auto].
  intros I. apply Nin. apply in_map_iff in I as (q & Eq & Iq).
  apply filter_In in Iq as [Iq _]. apply in_map_iff. eauto.
Qed.

(** X17: without arguments every family returns in both modes, in every
    graph, simple or multi, whatever the index holds, and returns the graph
    as it is; the count is the length of the list; the list holds stored
    identifiers only, and none twice when the store holds none twice. *)
Theorem arity0_count_is_length description g :
  exists l,
    attachEdgeArrayCreator false description g [] = Ret (Edges (List.map Id l), g)
    /\ attachEdgeArrayCreator true description g []
       = Ret (Count (Num (List.length l)), g)
    /\ incl l (keys (_edges g))
    /\ (NoDup (keys (_edges g)) -> NoDup l).
Proof.
  exists (listed (type description) g). unfold attachEdgeArrayCreator.
  rewrite createEdgeArray_collect, createEdgeArray_count.
  split; [reflexivity|]. split; [reflexivity|]. unfold listed, kept.
  destruct (isType (type description) mixed).
  - split; [apply incl_refl | auto].
  - split; [|apply NoDup_keys_filter].
    intros x I. unfold keys in *. apply in_map_iff in I as (q & Eq & Iq).
    apply filter_In in Iq as [Iq _]. apply in_map_iff. eauto.
Qed.

(** ** The family of the self-loops, called with arguments *)

Lemma blocked_selfLoops g direction n : blocked g selfLoops direction n = false.
Proof. unfold blocked. destruct direction as [[|]|]; reflexivity. Qed.

(** X19: a family of type [selfLoops] called with one or two arguments
    never lists an edge: in every graph, whatever its loops and whatever
    its index holds, the result, when there is one, is the empty list, or
    the count 0. *)
Theorem selfLoops_with_arguments_lists_nothing counter description g args r g' :
  type description = selfLoops -> args <> [] ->
  attachEdgeArrayCreator counter description g args = Ret (r, g') ->
  r = if counter then Count (Num 0) else Edges [].
Proof.
  intros Ty Na E. destruct args as [|a [|b [|c rest]]]; [contradiction| | |discriminate].
  - destruct (hasNode g a) eqn:Ha.
    + destruct (computeIndex g) as [g1|e] eqn:C.
      * rewrite (@node_call counter description g a g1 Ha C), Ty in E.
        rewrite blocked_selfLoops in E. injection E as <- _. reflexivity.
      * unfold attachEdgeArrayCreator in E. rewrite Ha in E.
        rewrite (@createEdgeArrayForNode_Throw counter g _ _ a e C) in E.
        discriminate.
    + destruct (isBunch a) eqn:Ba.
      * destruct (computeIndex g) as [g1|e] eqn:C.
        -- rewrite (@bunch_call counter description g a g1 Ha Ba C) in E.
           destruct (firstFailure _ _ _ _ _); [discriminate|].
           injection E as <- _. reflexivity.
        -- unfold attachEdgeArrayCreator in E. rewrite Ha, Ba in E.
           rewrite (@createEdgeArrayForBunch_Throw _ g _ _ a e C) in E.
           discriminate.
      * unfold attachEdgeArrayCreator in E. rewrite Ha, Ba in E. discriminate.
  - destruct (hasNode g a) eqn:Ha;
      [|unfold attachEdgeArrayCreator in E; rewrite Ha in E; discriminate].
    destruct (hasNode g b) eqn:Hb;
      [|unfold attachEdgeArrayCreator in E; rewrite Ha, Hb in E; discriminate].
    destruct (computeIndex g) as [g1|e] eqn:C.
    + rewrite (@path_call counter description g a b g1 Ha Hb C), Ty in E.
      rewrite blocked_selfLoops in E.
      destruct (negb _); injection E as <- _; reflexivity.
    + unfold attachEdgeArrayCreator in E. rewrite Ha, Hb in E. cbn [negb] in E.
      destruct (negb _); [injection E as <- _; reflexivity|].
      rewrite (@createEdgeArrayForPath_Throw counter g _ a b e C) in E.
      discriminate.
Qed.

Lemma selfLoops_with_arguments_lists_nothing_witness :
  attachEdgeArrayCreator false selfLoopsFamily simpleLoop []
  = Ret (Edges [Id "aa"], simpleLoop)
  /\ exists r,
       attachEdgeArrayCreator false selfLoopsFamily simpleLoop [Str "A"]
       = Ret (r, simpleLoop)
       /\ r = Edges [].
Proof.
  split; [reflexivity|]. exists (Edges []). split; [reflexivity|].
  assert (N : [Str "A"] <> []) by discriminate.
  exact (@selfLoops_with_arguments_lists_nothing false selfLoopsFamily simpleLoop
           [Str "A"] (Edges []) simpleLoop eq_refl N eq_refl).
Defined.

(** ** Counting against collecting *)

Lemma sameFailure_refl e : sameFailure e e.
Proof. destruct e; simpl; auto. Qed.

Lemma firstFailure_same op1 op2 g type direction members :
  match firstFailure op1 g type direction members,
        firstFailure op2 g type direction members with
  | Some e1, Some e2 => sameFailure e1 e2
  | None, None => True
  | _, _ => False
  end.
Proof.
  induction members as [|n rest IH]; cbn [firstFailure]; [exact I|].
  destruct (negb (hasNode g n)); [simpl; auto|].
  destruct (blocked g type direction n); [exact I | exact IH].
Qed.

(** C2: for every family, every number of arguments and every graph,
    simple or multi, whatever its index holds: when the collect-mode
    method returns a collection, the count-mode method returns its length
    and leaves the same graph; and when the collect-mode method raises,
    the count-mode method raises the same error under its own name. *)
Theorem count_is_length_of_collection
  (description : Description) (this : Graph) (args : list value) :
  agree (attachEdgeArrayCreator false description this args)
        (attachEdgeArrayCreator true description this args).
Proof.
  destruct args as [|a [|b [|c rest]]].
  - unfold attachEdgeArrayCreator.
    rewrite createEdgeArray_collect, createEdgeArray_count. simpl.
    rewrite length_map. auto.
  - destruct (hasNode this a) eqn:Ha.
    + destruct (computeIndex this) as [g1|e] eqn:C.
      * rewrite (@node_call false description this a g1 Ha C).
        rewrite (@node_call true description this a g1 Ha C).
        destruct (blocked _ _ _ _); simpl; auto.
      * unfold attachEdgeArrayCreator. rewrite Ha.
        rewrite !(@createEdgeArrayForNode_Throw _ this _ _ a e C).
        apply sameFailure_refl.
    + destruct (isBunch a) eqn:Ba.
      * destruct (computeIndex this) as [g1|e] eqn:C.
        -- rewrite (@bunch_call false description this a g1 Ha Ba C).
           rewrite (@bunch_call true description this a g1 Ha Ba C).
           pose proof (firstFailure_same (methodName false description)
                         (methodName true description) g1 (type description)
                         (direction description) (overBunch a)) as F.
           destruct (firstFailure (methodName false description) _ _ _ _),
             (firstFailure (methodName true description) _ _ _ _);
             simpl; auto; contradiction.
        -- unfold attachEdgeArrayCreator. rewrite Ha, Ba.
           rewrite !(@createEdgeArrayForBunch_Throw _ this _ _ a e C).
           apply sameFailure_refl.
      * unfold attachEdgeArrayCreator. rewrite Ha, Ba. simpl. auto.
  - destruct (hasNode this a) eqn:Ha;
      [|unfold attachEdgeArrayCreator; rewrite Ha; simpl; auto].
    destruct (hasNode this b) eqn:Hb;
      [|unfold attachEdgeArrayCreator; rewrite Ha, Hb; simpl; auto].
    destruct (computeIndex this) as [g1|e] eqn:C.
    + rewrite (@path_call false description this a b g1 Ha Hb C).
      rewrite (@path_call true description this a b g1 Ha Hb C).
      destruct (negb _); [simpl; auto|].
      destruct (blocked _ _ _ _); simpl; auto.
    + unfold attachEdgeArrayCreator. rewrite Ha, Hb. cbn [negb].
      destruct (negb _); [simpl; auto|].
      rewrite !(@createEdgeArrayForPath_Throw _ this _ a b e C).
      apply sameFailure_refl.
  - simpl. auto.
Qed.

(** ** Dispatch on the arguments *)

(** C9: every query method, of any family and in either mode, called with
    more than two positional arguments raises [InvalidArgumentsGraphError];
    the text of the error names the method, the expected range
    "0, 1 or 2" and the number of arguments received. *)
Theorem too_many_arguments_rejected
  (counter : bool) (description : Description) (this : Graph) (args : list value) :
  2 < List.length args ->
  let err := InvalidArgumentsGraphError (methodName counter description)
                                        (List.length args) in
  attachEdgeArrayCreator counter description this args = Throw err
  /\ names err (methodName counter description) = true
  /\ names err "expecting 0, 1 or 2" = true
  /\ names err ("got " ++ decimal (List.length args)) = true.
Proof.
  intros Hlen err. split; [|apply InvalidArguments_names].
  destruct args as [|a [|b [|c r]]]; simpl in Hlen; try lia.
  reflexivity.
Qed.

Lemma too_many_arguments_rejected_witness :
  attachEdgeArrayCreator true edgesFamily
    (emptyGraph false true) [Str "A"; Str "B"; Str "C"]
  = Throw (InvalidArgumentsGraphError "countEdges" 3)
  /\ message (InvalidArgumentsGraphError "countEdges" 3)
     = Some "Graph.countEdges: too many arguments (expecting 0, 1 or 2 and got 3)."%string.
Proof.
  split; [|reflexivity].
  apply (too_many_arguments_rejected true edgesFamily
           (emptyGraph false true) [Str "A"; Str "B"; Str "C"]).
  simpl; lia.
Defined.

(** The [NotFoundGraphError]s of a call with one argument. *)
Lemma one_argument_NotFound counter description this v op x p :
  attachEdgeArrayCreator counter description this [v]
  = Throw (NotFoundGraphError op x p) ->
  op = methodName counter description
  /\ hasNode this v = false /\ hasNode this x = false
  /\ ((p = InGraph /\ x = v /\ isBunch v = false)
      \/ (p = InBunch /\ isBunch v = true /\ In x (overBunch v))).
Proof.
  unfold attachEdgeArrayCreator, methodName. intros E.
  destruct (hasNode this v) eqn:Hv.
  { apply createEdgeArrayForNode_onlyTypeError in E. discriminate. }
  destruct (isBunch v) eqn:Bv; [|injection E as <- <- <-; auto 10].
  destruct (createEdgeArrayForBunch _ this _ _ v) as [[l g1]|e1] eqn:B;
    [discriminate|].
  cbn [bind] in E. injection E as ->.
  destruct (@createEdgeArrayForBunch_truthful _ _ _ _ _ _ B)
    as [T|(y & [= -> -> ->] & I & H)]; [discriminate|].
  auto 10.
Qed.

(** C10, as the code has it: on a call with one argument, the argument is
    read as a node whenever the graph has a node under that identifier,
    whether or not the value is also a bunch, and then no member is looked
    up and no [NotFoundGraphError] is raised; it is read as a bunch only
    when there is no such node; it raises the [NotFoundGraphError] for the
    argument when it is neither.  A [NotFoundGraphError] is raised in two
    cases only: for the argument, which is neither a node nor a bunch; and
    for a member of the argument, which is a bunch and no node, when the
    graph has no node under that member. *)
Theorem node_before_bunch
  (counter : bool) (description : Description) (this : Graph) (v : value) :
  let call := attachEdgeArrayCreator counter description this [v] in
  let op := methodName counter description in
  (hasNode this v = true ->
   call = createEdgeArrayForNode counter this (type description)
            (direction description) v
   /\ forall op' x p, call <> Throw (NotFoundGraphError op' x p))
  /\ (hasNode this v = false -> isBunch v = true ->
      call = r <- createEdgeArrayForBunch op this (type description)
                    (direction description) v ;;
             Ret (if counter then Count (Num (List.length (fst r)))
                  else Edges (List.map Id (fst r)), snd r))
  /\ (hasNode this v = false -> isBunch v = false ->
      call = Throw (NotFoundGraphError op v InGraph))
  /\ (forall op' x p, call = Throw (NotFoundGraphError op' x p) ->
      op' = op /\ hasNode this v = false /\ hasNode this x = false
      /\ ((p = InGraph /\ x = v /\ isBunch v = false)
          \/ (p = InBunch /\ isBunch v = true /\ In x (overBunch v)))).
Proof.
  intros call op. subst call op.
  split; [|split; [|split]].
  - intros Hv. split.
    + unfold attachEdgeArrayCreator. rewrite Hv. reflexivity.
    + intros op' x p E. apply one_argument_NotFound in E as (_ & F & _).
      congruence.
  - unfold attachEdgeArrayCreator, methodName. intros -> ->.
    destruct (createEdgeArrayForBunch _ _ _ _ _) as [[edges g]|e]; reflexivity.
  - unfold attachEdgeArrayCreator, methodName. intros -> ->. reflexivity.
  - intros op' x p. apply one_argument_NotFound.
Qed.

(** A graph whose only node is keyed by the array [["A"]]: the array is a
    bunch, and the call reads it as the node; "A" is no node of the graph,
    and no error reports it. *)
Lemma node_before_bunch_witness :
  let g := mkGraph true true [(Arr ["A"%string], noData)] [] [] true in
  hasNode g (Arr ["A"%string]) = true
  /\ isBunch (Arr ["A"%string]) = true
  /\ hasNode g (Str "A") = false
  /\ attachEdgeArrayCreator false edgesFamily g [Arr ["A"%string]]
     = createEdgeArrayForNode false g mixed None (Arr ["A"%string])
  /\ attachEdgeArrayCreator false edgesFamily g [Arr ["A"%string]]
     = Ret (Edges [], g).
Proof.
  intros g. split; [reflexivity|]. split; [reflexivity|]. split; [reflexivity|].
  split; [|reflexivity].
  apply (proj1 (node_before_bunch false edgesFamily g (Arr ["A"%string]))).
  reflexivity.
Defined.

(** C10 as stated fails: the array [["X"]] is a bunch and no node of the
    graph, and the call raises [NotFoundGraphError], for its member "X". *)
Lemma bunch_member_not_found :
  isBunch (Arr ["X"%string]) = true
  /\ hasNode multiAB (Arr ["X"%string]) = false
  /\ attachEdgeArrayCreator false edgesFamily multiAB [Arr ["X"%string]]
     = Throw (NotFoundGraphError "edges" (Str "X") InBunch).
Proof. repeat split; reflexivity. Qed.

(** ** Nonexistent nodes *)





(** ** An edge the mutation API added *)

Lemma addEdge_nodesAB multi map :
  addEdge (nodesAB multi map) "ab" directedAB
  = Ret (if multi then multiWithAB map else simpleWithAB map).
Proof. destruct multi; reflexivity. Qed.

(** C1, at the graph with the nodes A and B, simple or multi, read through
    the [Map] helpers or not: after the directed edge "ab" from A to B is
    added, the index holds it at both ends, and [outEdges(A)] and
    [inEdges(B)] raise [TypeError]; they do not hold "ab". *)
Theorem added_edge_not_listed (multi map : bool) :
  let g := if multi then multiWithAB map else simpleWithAB map in
  addEdge (nodesAB multi map) "ab" directedAB = Ret g
  /\ look (_nodes g) kOut (Str "A") "B" <> None
  /\ look (_nodes g) kIn (Str "B") "A" <> None
  /\ attachEdgeArrayCreator false outEdgesFamily g [Str "A"] = Throw TypeError
  /\ attachEdgeArrayCreator false inEdgesFamily g [Str "B"] = Throw TypeError.
Proof. destruct multi, map; repeat split; try reflexivity; discriminate. Qed.

(** ** Two parallel edges in a multigraph *)

(** C5, at a multigraph with the nodes A and B: after the two directed
    edges "e1" and "e2" from A to B are added, the out entry of A and the
    in entry of B are one set, which holds both, and after "e1" is removed
    it holds "e2"; but [outEdges(A)] raises [TypeError], before and after
    the removal, and so does [inEdges(B)].  And at a multigraph with the
    node "A" and the node keyed by the array ["A"], both converted to the
    property name "A": after "e1" from "A" to "T" and "e2" from ["A"] to
    "T" are added, the out entry of ["A"] for "T" is the set of "e2" and
    the in entry of "T" under "A" is the set of "e1", another set. *)
Theorem parallel_edges_not_listed :
  (forall map computed,
      parallel map computed (Str "A") (Str "B") "e1" "e2" = Throw TypeError)
  /\ (let g := after [AddEdge "e1" directedAB; AddEdge "e2" directedAB]
                     (nodesAB true true) in
      let g' := after [DropEdge "e1"] g in
      look (_nodes g) kOut (Str "A") "B" = Some (Shared 0)
      /\ look (_nodes g) kIn (Str "B") "A" = Some (Shared 0)
      /\ members (sets g) 0 = ["e1"; "e2"]%string
      /\ attachEdgeArrayCreator false outEdgesFamily g [Str "A"] = Throw TypeError
      /\ members (sets g') 0 = ["e2"]%string
      /\ attachEdgeArrayCreator false outEdgesFamily g' [Str "A"] = Throw TypeError
      /\ attachEdgeArrayCreator false inEdgesFamily g' [Str "B"] = Throw TypeError)
  /\ (let g := after [AddEdge "e1" (mkEdgeData (Str "A") (Str "T") false);
                      AddEdge "e2" (mkEdgeData (Arr ["A"%string]) (Str "T") false)]
                     (namesakes true) in
      look (_nodes g) kOut (Arr ["A"%string]) "T" = Some (Shared 1)
      /\ look (_nodes g) kIn (Str "T") (show (Arr ["A"%string])) = Some (Shared 0)
      /\ members (sets g) 1 = ["e2"%string]
      /\ members (sets g) 0 = ["e1"%string]).
Proof.
  split; [|split].
  - intros [|] [|]; reflexivity.
  - repeat split; reflexivity.
  - repeat split; reflexivity.
Qed.

(** ** A bunch over both ends of an edge *)

(** C7, at the graph with the nodes A and B and the directed edge "ab"
    from A to B, simple or multi, read through the [Map] helpers or not:
    the bunch call on [A, B] does not return "ab": in both modes it raises
    [TypeError]. *)
Theorem bunch_misses_connecting_edge (multi map : bool) :
  let g := if multi then multiWithAB map else simpleWithAB map in
  hasDirectedEdge g (Str "A") (Str "B") = true
  /\ attachEdgeArrayCreator false edgesFamily g [Arr ["A"; "B"]%string]
     = Throw TypeError
  /\ attachEdgeArrayCreator true edgesFamily g [Arr ["A"; "B"]%string]
     = Throw TypeError.
Proof. destruct multi, map; repeat split; reflexivity. Qed.

(** ** The existence check of a path call *)

Lemma undirectedAB_built :
  run [AddEdge "ab" (mkEdgeData (Str "A") (Str "B") true)] (nodesAB true true)
  = Ret undirectedAB.
Proof. reflexivity. Qed.

(** C3, at a mixed family: the only edge between A and B is undirected;
    [edges(A, B)] returns the empty collection and [countEdges(A, B)] 0,
    although [edges()] lists the edge, the type reads the undirected
    buckets, and [undirectedEdges(A, B)], whose existence check finds the
    edge, goes on to the index (where it raises [TypeError]). *)
Theorem mixed_path_ignores_undirected_edge :
  hasUndirectedEdge undirectedAB (Str "A") (Str "B") = true
  /\ hasDirectedEdge undirectedAB (Str "A") (Str "B") = false
  /\ attachEdgeArrayCreator false edgesFamily undirectedAB [Str "A"; Str "B"]
     = Ret (Edges [], undirectedAB)
  /\ attachEdgeArrayCreator true edgesFamily undirectedAB [Str "A"; Str "B"]
     = Ret (Count (Num 0), undirectedAB)
  /\ attachEdgeArrayCreator false edgesFamily undirectedAB []
     = Ret (Edges [Id "ab"], undirectedAB)
  /\ reads mixed None kUndirectedOut = true
  /\ createEdgeArrayForPath false undirectedAB mixed (Str "A") (Str "B")
     = Throw TypeError
  /\ attachEdgeArrayCreator false
       (mkDescription "undirectedEdges" "countUndirectedEdges" undirectedType None)
       undirectedAB [Str "A"; Str "B"]
     = Throw TypeError.
Proof. repeat split; reflexivity. Qed.

(** ** Removing a self-loop *)

Lemma simpleLoop_built :
  addEdge (mkGraph false true [(Str "A", noData)] [] [] true) "aa"
          (mkEdgeData (Str "A") (Str "A") false)
  = Ret simpleLoop.
Proof. reflexivity. Qed.

(** C6, at a simple graph: inserting the loop "aa" wrote the out bucket of A
    only, but removing it goes on to the in bucket of A, which does not
    exist, and raises [TypeError]; in a multigraph the same removal
    succeeds. *)
Theorem simple_graph_loop_removal_reads_in_bucket :
  look (_nodes simpleLoop) kOut (Str "A") "A" = Some (Single "aa")
  /\ in_ (mkNodeData None (Some [("A"%string, Single "aa")]) None None) = None
  /\ clearEdgeFromStructureIndex simpleLoop "aa" (mkEdgeData (Str "A") (Str "A") false)
     = Throw TypeError
  /\ dropEdge simpleLoop "aa" = Throw TypeError
  /\ (exists g,
         run [AddEdge "aa" (mkEdgeData (Str "A") (Str "A") false); DropEdge "aa"]
             (mkGraph true true [(Str "A", noData)] [] [] true) = Ret g).
Proof. repeat split; try reflexivity. eexists. reflexivity. Qed.

(** ** Inserting a self-loop *)

(** In a simple graph and in a multigraph alike, inserting a loop on [s]
    rewrites the out-side bucket of [s] and nothing else among the
    buckets. *)
Lemma loop_insertion_frame g e d g' :
  source d = target d -> updateStructureIndex g e d = Ret g' ->
  exists sd b,
    get (source d) (_nodes g) = Some sd
    /\ _nodes g' = set (source d) (setB (outKeyOf d) (Some b) sd) (_nodes g)
    /\ get (show (target d)) b <> None.
Proof.
  intros L E. unfold updateStructureIndex in E.
  change (if undirected d then kUndirectedOut else kOut) with (outKeyOf d) in E.
  destruct (get (source d) (_nodes g)) as [sd|] eqn:Gs; [|discriminate].
  destruct (eq_dec (source d) (target d)) as [_|N]; [|contradiction].
  exists sd. unfold has in E.
  destruct (get (show (target d)) (orEmpty (getB (outKeyOf d) sd))) as [v|] eqn:Gt.
  - eexists. split; [reflexivity|]. split; [|rewrite Gt; discriminate].
    destruct (multi g); cbn [fst snd] in E; rewrite ?Gt in E;
      [destruct v; [discriminate|]|]; simpl in E; injection E as <-; reflexivity.
  - destruct (multi g); simpl in E.
    + rewrite get_set_eq in E. simpl in E. injection E as <-.
      eexists. split; [reflexivity|]. split; [reflexivity|].
      rewrite get_set_eq. discriminate.
    + injection E as <-.
      eexists. split; [reflexivity|]. split; [reflexivity|].
      rewrite get_set_eq. discriminate.
Qed.

Lemma sixteen_methods :
  List.length attachEdgeIterationMethods = 16
  /\ NoDup (keys attachEdgeIterationMethods)
  /\ In edgesFamily EDGES_ITERATION
  /\ In outEdgesFamily EDGES_ITERATION
  /\ In inEdgesFamily EDGES_ITERATION.
Proof.
  split; [reflexivity|]. split.
  - vm_compute. repeat constructor; simpl; intuition discriminate.
  - simpl; auto 10.
Qed.

(** ** A case left open *)

(** [selfLoops()] does not list the undirected loop "uu" of [loops]: the
    second conjunct of the scan test holds for undirected edges only when
    the type is ['undirected']. *)
Lemma selfLoops_skips_undirected_loop :
  In ("uu"%string, mkEdgeData (Str "A") (Str "A") true) (_edges loops)
  /\ attachEdgeArrayCreator false selfLoopsFamily loops []
     = Ret (Edges [Id "aa"], loops).
Proof. simpl. auto. Qed.

